(** * ChoCo iReal parser: the chart decoder of [choco/parsers/ireal_parser.py]

    A shallow embedding of the string and list passes of [ChoCoTune], of
    [split_ireal_charts], [mjoin] and [extract_annotations_from_tune], with
    the properties stated about them.

    Conventions of the embedding.
    - A Python [str] is a list of characters ([str]); characters are the code
      points below 256, which covers every marker the parser looks at.
    - [str.find] returns an integer with [-1] for "not found", as in Python.
    - An exception is a value of [exn]; a function that can raise returns a
      [result].
    - Calls to [logger] have no effect on the values computed and are left
      out. *)

From Stdlib Require Import Ascii String.
From Stdlib Require Import List Bool Arith ZArith Lia.
From Stdlib Require Import DecimalString Floats.
Import ListNotations.

Local Open Scope char_scope.
Local Open Scope nat_scope.
Local Open Scope list_scope.

(** ** Python values *)

Definition str := list ascii.

(** Reading a string literal as a Python string. *)
Definition py (s : string) : str := list_ascii_of_string s.

Arguments py s%_string.

Inductive exn : Type :=
| IndexError
| AttributeError
| AssertionError
| RuntimeError
| ValueError
| ZeroDivisionError
| ReError.

Inductive result (A : Type) : Type :=
| Ok (a : A)
| Raise (e : exn).

Arguments Ok {A} a.
Arguments Raise {A} e.

Definition bind {A B : Type} (r : result A) (k : A -> result B) : result B :=
  match r with
  | Ok a => k a
  | Raise e => Raise e
  end.

Notation "x <- r ;; k" := (bind r (fun x => k))
  (at level 61, r at next level, right associativity).

(** ** Character classes *)

Definition chr_eqb (a b : ascii) : bool := Ascii.eqb a b.

(** [str.isspace] and the regular expression class [\s] on code points below
    256: tab, line feed, vertical tab, form feed, carriage return, the four
    separators 28..31, space, NEL (133) and the no-break space (160). *)
Definition is_space (c : ascii) : bool :=
  let n := nat_of_ascii c in
  (((9 <=? n) && (n <=? 13)) || ((28 <=? n) && (n <=? 32))
   || (n =? 133) || (n =? 160))%nat.

(** The class [\d] on code points below 256. *)
Definition is_digit (c : ascii) : bool :=
  let n := nat_of_ascii c in ((48 <=? n) && (n <=? 57))%nat.

(** The character the regular expression [.] refuses. *)
Definition newline : ascii := "010".

(** ** String methods *)

(** [s.count(c)] for a one-character [c]. *)
Fixpoint count (c : ascii) (s : str) : nat :=
  match s with
  | [] => 0
  | d :: t => (if chr_eqb d c then 1 else 0) + count c t
  end.

(** [s.find(c)] for a one-character [c]. *)
Fixpoint find (c : ascii) (s : str) : Z :=
  match s with
  | [] => (-1)%Z
  | d :: t =>
      if chr_eqb d c then 0%Z
      else let r := find c t in
           if (r =? -1)%Z then (-1)%Z else (r + 1)%Z
  end.

(** [s.replace(c, '')] for a one-character [c]. *)
Definition remove_char (c : ascii) (s : str) : str :=
  filter (fun d => negb (chr_eqb d c)) s.

(** [s[a:b]], [s[:b]] and [s[a:]] for indices between 0 and [len(s)]; a slice
    whose start is past its end is empty. *)
Definition slice (a b : nat) (s : str) : str := firstn (b - a) (skipn a s).
Definition slice_to (b : nat) (s : str) : str := firstn b s.
Definition slice_from (a : nat) (s : str) : str := skipn a s.

(** [[i for i, d in enumerate(s) if d == c]], counting from [i]. *)
Fixpoint positions_from (i : nat) (c : ascii) (s : str) : list nat :=
  match s with
  | [] => []
  | d :: t =>
      if chr_eqb d c then i :: positions_from (S i) c t
      else positions_from (S i) c t
  end.

Definition positions (c : ascii) (s : str) : list nat := positions_from 0 c s.

(** [s.lstrip()], [s.rstrip()], [s.strip()]. *)
Fixpoint lstrip (s : str) : str :=
  match s with
  | [] => []
  | c :: t => if is_space c then lstrip t else s
  end.

Definition rstrip (s : str) : str := rev (lstrip (rev s)).

Definition strip (s : str) : str := rstrip (lstrip s).

(** [s.strip() == ""]. *)
Definition is_blank (s : str) : bool := forallb is_space s.

(** ** The repeat-bracket reconciler *)

Module Reconciler.

(** [ChoCoTune._insert_missing_repeat_brackets]. *)
Definition insert_missing_repeat_brackets (chord_string : str) : str :=
  let cbracket_opn_loc := find "{" chord_string in
  let cbracket_cld_loc := find "}" chord_string in
  if ((cbracket_cld_loc >? -1)
      && ((cbracket_opn_loc =? -1) || (cbracket_opn_loc >? cbracket_cld_loc)))%Z
  then "{" :: chord_string
  else chord_string.

End Reconciler.

(** ** The coda and segno resolver *)

Module Codas.

(** [re.sub(r'[QS]', '', s)]. *)
Definition remove_QS (s : str) : str :=
  filter (fun d => negb (chr_eqb d "Q" || chr_eqb d "S")) s.

(** [ChoCoTune._fill_codas].  The unpacking [q1, q2 = [...]] raises
    [ValueError] when the list has not two elements. *)
Definition fill_codas (chord_string : str) : result str :=
  let qs := count "Q" chord_string in
  if 2 <? qs then Raise RuntimeError
  else if qs =? 1 then Ok (remove_char "Q" chord_string)
  else if qs =? 2 then
    match positions "Q" chord_string with
    | [q1; q2] =>
        let segno := find "S" chord_string in
        let segno := if (segno =? -1)%Z then 0 else Z.to_nat (segno + 1) in
        let coda := slice_from (q2 + 1) chord_string in
        let repeat := slice segno q1 chord_string in
        let new_chord_string :=
          slice_to q2 chord_string ++ repeat ++ py " |" ++ coda in
        Ok (remove_QS new_chord_string)
    | _ => Raise ValueError
    end
  else Ok chord_string.

(** [segno_span a s rep]: [rep] is the part of [s] from just after its first
    segno mark, or from its start when it has none, up to the end of its
    prefix [a] (where the first coda mark stands); it is empty when the first
    segno mark comes after [a]. *)
Inductive segno_span : str -> str -> str -> Prop :=
| span_head (a s : str) :
    ~ In "S" s ->
    segno_span a s a
| span_segno (u v s : str) :
    ~ In "S" u ->
    segno_span (u ++ "S" :: v) s v
| span_late (a s : str) :
    ~ In "S" a -> In "S" s ->
    segno_span a s [].

(** [unmarked s t]: [t] is [s] with every coda mark and every segno mark
    removed, and nothing else. *)
Inductive unmarked : str -> str -> Prop :=
| unmarked_nil : unmarked [] []
| unmarked_coda (s t : str) : unmarked s t -> unmarked ("Q" :: s) t
| unmarked_segno (s t : str) : unmarked s t -> unmarked ("S" :: s) t
| unmarked_keep (c : ascii) (s t : str) :
    c <> "Q" -> c <> "S" -> unmarked s t -> unmarked (c :: s) (c :: t).

(** What the specification says of the resolver, case by case on the number
    of coda marks. *)
Inductive coda_spec : str -> result str -> Prop :=
| coda_none (s : str) :
    ~ In "Q" s ->
    coda_spec s (Ok s)
| coda_outro (a b : str) :
    ~ In "Q" a -> ~ In "Q" b ->
    coda_spec (a ++ "Q" :: b) (Ok (a ++ b))
| coda_jump (a b c rep out : str) :
    ~ In "Q" a -> ~ In "Q" b -> ~ In "Q" c ->
    segno_span a (a ++ "Q" :: b ++ "Q" :: c) rep ->
    unmarked ((a ++ "Q" :: b) ++ rep ++ py " |" ++ c) out ->
    coda_spec (a ++ "Q" :: b ++ "Q" :: c) (Ok out)
| coda_many (s : str) :
    2 < count "Q" s ->
    coda_spec s (Raise RuntimeError).

End Codas.

(** ** Regular expressions

    Each regular expression of the parser is embedded as the matcher Python's
    backtracking engine runs for it: a function that, given the text at a
    position, answers whether the pattern matches there and what it consumed.
    Scanning functions ([re.search], [re.finditer], [re.findall], [re.sub])
    then walk the string from left to right and, after a match, resume at its
    end.  All the patterns below match at least one character. *)

Module Re.

(** [re.finditer]: the matches of a pattern whose matcher is [at], as
    triples (start, end, captured data).  [pos] is the index of the head of
    [s]; [skip] counts the characters of [s] that still belong to the
    previous match. *)
Fixpoint finditer {A : Type} (at_ : str -> option (A * nat))
    (pos skip : nat) (s : str) : list (nat * nat * A) :=
  match s with
  | [] => []
  | _ :: t =>
      match skip with
      | S k => finditer at_ (S pos) k t
      | O =>
          match at_ s with
          | Some (a, n) => (pos, pos + n, a) :: finditer at_ (S pos) (n - 1) t
          | None => finditer at_ (S pos) 0 t
          end
      end
  end.

(** *** [{(.+?)}] *)

(** The lazy [.*?] followed by the closing bracket: the text up to the first
    closing bracket, which no line feed may precede, and the text after it. *)
Fixpoint until_close (s : str) : option (str * str) :=
  match s with
  | [] => None
  | c :: t =>
      if chr_eqb c "}" then Some ([], t)
      else if chr_eqb c newline then None
      else match until_close t with
           | Some (g, post) => Some (c :: g, post)
           | None => None
           end
  end.

(** [(.+?)}] on the text that follows an opening bracket: one character that
    is not a line feed (a closing bracket is accepted), then [until_close]. *)
Definition group_close (s : str) : option (str * str) :=
  match s with
  | [] => None
  | c :: t =>
      if chr_eqb c newline then None
      else match until_close t with
           | Some (g, post) => Some (c :: g, post)
           | None => None
           end
  end.

(** [re.search(r'{(.+?)}', s)]: the text before the leftmost match, its
    group and the text after the match. *)
Fixpoint search_repeat (s : str) : option (str * str * str) :=
  match s with
  | [] => None
  | c :: t =>
      match (if chr_eqb c "{" then group_close t else None) with
      | Some (g, post) => Some ([], g, post)
      | None =>
          match search_repeat t with
          | Some (pre, g, post) => Some (c :: pre, g, post)
          | None => None
          end
      end
  end.

(** *** [N(\d)] and [N\d] *)

(** [re.search(r'N(\d)', s) is not None]. *)
Fixpoint has_ending (s : str) : bool :=
  match s with
  | [] => false
  | c :: t =>
      match t with
      | d :: _ => (chr_eqb c "N" && is_digit d) || has_ending t
      | [] => false
      end
  end.

(** [re.sub(r'N\d', '', s)]. *)
Fixpoint remove_endings (s : str) : str :=
  match s with
  | [] => []
  | c :: t =>
      match t with
      | d :: u =>
          if chr_eqb c "N" && is_digit d then remove_endings u
          else c :: remove_endings t
      | [] => [c]
      end
  end.

(** *** [{.+?N\d.+?}] (IREAL_NREP_RE) *)

(** The length of [(.+?)}] at the head of [s]. *)
Definition group_close_len (s : str) : option nat :=
  match group_close s with
  | Some (g, _) => Some (length g + 1)
  | None => None
  end.

(** The rest of the pattern once the first lazy group holds at least one
    character: try the ending marker and the second group here, and
    otherwise give one more character to the first group. *)
Fixpoint nrep_tail (s : str) : option nat :=
  match s with
  | [] => None
  | c :: t =>
      let here :=
        if chr_eqb c "N" then
          match t with
          | d :: u =>
              if is_digit d then
                match group_close_len u with
                | Some n => Some (2 + n)
                | None => None
                end
              else None
          | [] => None
          end
        else None in
      match here with
      | Some n => Some n
      | None =>
          if chr_eqb c newline then None
          else match nrep_tail t with
               | Some n => Some (S n)
               | None => None
               end
      end
  end.

Definition nrep_at (s : str) : option (unit * nat) :=
  match s with
  | c :: d :: t =>
      if chr_eqb c "{" && negb (chr_eqb d newline) then
        match nrep_tail t with
        | Some n => Some (tt, 2 + n)
        | None => None
        end
      else None
  | _ => None
  end.

(** *** [([^N]+)N\d] *)

(** [re.search(r'([^N]+)N\d', s)], answering its group: [run] is the run of
    characters other than [N] read since the last [N]. *)
Fixpoint search_first_ending (run : str) (s : str) : option str :=
  match s with
  | [] => None
  | c :: t =>
      if chr_eqb c "N" then
        match t with
        | d :: _ =>
            match run with
            | _ :: _ => if is_digit d then Some run
                        else search_first_ending [] t
            | [] => search_first_ending [] t
            end
        | [] => None
        end
      else search_first_ending (run ++ [c]) t
  end.

(** *** [([{\[|]?)\s*N(\d)] (IREAL_REPEND_RE) *)

Definition is_opening (c : ascii) : bool :=
  chr_eqb c "{" || chr_eqb c "[" || chr_eqb c "|".

(** The length of [\s*N\d] at the head of [s]. *)
Fixpoint spaces_ending (s : str) : option nat :=
  match s with
  | [] => None
  | c :: t =>
      if is_space c then
        match spaces_ending t with
        | Some n => Some (S n)
        | None => None
        end
      else if chr_eqb c "N" then
        match t with
        | d :: _ => if is_digit d then Some 2 else None
        | [] => None
        end
      else None
  end.

(** The pattern at the head of [s]: its first group and its length. *)
Definition repend_at (s : str) : option (str * nat) :=
  match s with
  | [] => None
  | c :: t =>
      if is_opening c then
        match spaces_ending t with
        | Some n => Some ([c], S n)
        | None => None
        end
      else
        match spaces_ending s with
        | Some n => Some ([], n)
        | None => None
        end
  end.

(** Where a scan stands with respect to the last match it met. *)
Inductive scan_state : Type :=
| Outside
| Kept (k : nat)      (* [k] more characters of a match left as it was *)
| Dropped (k : nat).  (* [k] more characters of a replaced match *)

(** [re.sub(IREAL_REPEND_RE, mrep, s)] where [mrep] answers
    [x.group(1) + repeat] for a match that starts before [bnd] and
    [x.group(0)] for the others. *)
Fixpoint sub_repend (repeat : str) (bnd : nat) (pos : nat) (st : scan_state)
    (s : str) : str :=
  match s with
  | [] => []
  | c :: t =>
      match st with
      | Kept (S k) => c :: sub_repend repeat bnd (S pos) (Kept k) t
      | Dropped (S k) => sub_repend repeat bnd (S pos) (Dropped k) t
      | _ =>
          match repend_at s with
          | Some (g1, n) =>
              if pos <? bnd
              then g1 ++ repeat ++ sub_repend repeat bnd (S pos) (Dropped (n - 1)) t
              else c :: sub_repend repeat bnd (S pos) (Kept (n - 1)) t
          | None => c :: sub_repend repeat bnd (S pos) Outside t
          end
      end
  end.

(** *** [<(\d+)x>] *)

Fixpoint span_digits (s : str) : str * str :=
  match s with
  | [] => ([], [])
  | c :: t =>
      if is_digit c then let (ds, r) := span_digits t in (c :: ds, r)
      else ([], s)
  end.

Definition count_at (s : str) : option (str * nat) :=
  match s with
  | [] => None
  | c :: t =>
      if chr_eqb c "<" then
        match span_digits t with
        | (d :: ds, x :: g :: _) =>
            if chr_eqb x "x" && chr_eqb g ">"
            then Some (d :: ds, length (d :: ds) + 3)
            else None
        | _ => None
        end
      else None
  end.

(** [int(ds)] for a string of decimal digits. *)
Definition int_of_digits (ds : str) : Z :=
  fold_left (fun acc c => (10 * acc + (Z.of_nat (nat_of_ascii c) - 48))%Z)
            ds 0%Z.

End Re.

(** ** The metrical join *)

(** [s[-1]] and [s[0]]. *)
Definition index_last (s : str) : result ascii :=
  match rev s with
  | c :: _ => Ok c
  | [] => Raise IndexError
  end.

Definition index_first (s : str) : result ascii :=
  match s with
  | c :: _ => Ok c
  | [] => Raise IndexError
  end.

(** The separator [mjoin] puts between the last string merged so far and
    the next one; the second test is not evaluated when the first fails. *)
Definition separator (merged_last next_cstring : str) : result str :=
  a <- index_last (rstrip merged_last) ;;
  if chr_eqb a "|" then Ok []
  else
    b <- index_first (lstrip next_cstring) ;;
    Ok (if chr_eqb b "|" then [] else py "|").

(** The loop of [mjoin], answering what it appends to [merged_chords]. *)
Fixpoint mjoin_loop (merged_last : str) (rest : list str)
    : result (list str) :=
  match rest with
  | [] => Ok []
  | next_cstring :: rest' =>
      sep <- separator merged_last next_cstring ;;
      more <- mjoin_loop (sep ++ next_cstring) rest' ;;
      Ok ((sep ++ next_cstring) :: more)
  end.

(** [mjoin(chord_string, *others)], on the list of its arguments. *)
Definition mjoin (strings : list str) : result str :=
  let pre_chords := filter (fun cs => negb (is_blank cs)) strings in
  match pre_chords with
  | [] => Raise IndexError
  | first :: rest =>
      more <- mjoin_loop first rest ;;
      Ok (concat (first :: more))
  end.

(** ** The repeat expansion engine *)

(** [s.replace("  ", " ")]. *)
Fixpoint replace_double_space (s : str) : str :=
  match s with
  | [] => []
  | c :: t =>
      match t with
      | d :: u =>
          if chr_eqb c " " && chr_eqb d " " then " " :: replace_double_space u
          else c :: replace_double_space t
      | [] => [c]
      end
  end.

(** [x * n] for a string [x] and an integer [n]; empty when [n <= 0]. *)
Definition str_mul (x : str) (n : Z) : str := concat (repeat x (Z.to_nat n)).

Section Expansion.

(** [Tune._remove_markers] is inherited from the base class of the package
    [pyRealParser]; the parser only calls it. *)
Variable remove_markers : str -> str.

(** The branch of [_fill_long_repeats] for a group with a numbered ending:
    the string it hands to the recursive call. *)
Definition expand_numbered (chord_string pre full_repeat post : str)
    : result str :=
  let macro_repeats := Re.finditer Re.nrep_at 0 0 chord_string in
  match macro_repeats with
  | [] => Raise IndexError
  | (current_mrstart, _, _) :: others =>
      let current_bnd :=
        match others with
        | (start, _, _) :: _ => start
        | [] => length chord_string
        end in
      if negb (current_mrstart <? current_bnd) then Raise AssertionError
      else
        let first_repeat := Re.remove_endings full_repeat in
        new_chord_string <- mjoin [pre; first_repeat; post] ;;
        match Re.search_first_ending [] full_repeat with
        | None => Raise AttributeError
        | Some group1 =>
            let repeat := remove_markers group1 in
            let rounds :=
              length (Re.finditer Re.repend_at 0 0 new_chord_string) in
            Ok (Nat.iter rounds
                  (Re.sub_repend repeat current_bnd 0 Re.Outside)
                  new_chord_string)
        end
  end.

(** The repeat count and the content to repeat of a bracket repeat: the
    last [<Nx>] annotation gives the count and is cut out; 2 and the whole
    content without one. *)
Definition count_and_content (full_repeat : str) : Z * str :=
  let no_repeats_match := Re.finditer Re.count_at 0 0 full_repeat in
  match rev no_repeats_match with
  | (s, e, digits) :: _ =>
      let to_repeat := slice_to s full_repeat ++ slice_from e full_repeat in
      (Re.int_of_digits digits, replace_double_space to_repeat)
  | [] => (2%Z, full_repeat)
  end.

(** The branch of [_fill_long_repeats] for a bracket repeat. *)
Definition expand_bracket (pre full_repeat post : str) : result str :=
  let (times, to_repeat) := count_and_content full_repeat in
  let repetitions :=
    str_mul (py " |" ++ remove_markers to_repeat) (times - 1) in
  mjoin [pre; to_repeat; repetitions; post].

(** One invocation of [_fill_long_repeats] up to its recursive call:
    [None] when there is no repeat group left, and otherwise the string
    handed to the recursive call, or the exception raised. *)
Definition expand_once (chord_string : str) : option (result str) :=
  match Re.search_repeat chord_string with
  | None => None
  | Some (pre, full_repeat, post) =>
      Some (if Re.has_ending full_repeat
            then expand_numbered chord_string pre full_repeat post
            else expand_bracket pre full_repeat post)
  end.

(** [ChoCoTune._fill_long_repeats], with [fuel] bounding the depth of the
    recursion: [None] when [fuel] invocations were not enough. *)
Fixpoint fill_long_repeats (fuel : nat) (chord_string : str)
    : option (result str) :=
  match fuel with
  | O => None
  | S fuel' =>
      match expand_once chord_string with
      | None => Some (Ok chord_string)
      | Some (Raise e) => Some (Raise e)
      | Some (Ok new_chord_string) => fill_long_repeats fuel' new_chord_string
      end
  end.

End Expansion.

(** Modelled from the spec: [_remove_markers], a method of the base class
    [Tune] of the package [pyRealParser] that the sources import and do not
    contain.  The specification says it strips markers; the comment at its
    call site in [_fill_long_repeats] says it removes "segnos and codas", so
    this instance deletes the coda and segno marks [Q] and [S] and nothing
    else.  It is used to run the functions on examples; the theorems hold
    for any [remove_markers] with the properties they assume. *)
Definition strip_coda_segno (s : str) : str := Codas.remove_QS s.

(** ** Lists of measures *)

Fixpoint str_eqb (a b : str) : bool :=
  match a, b with
  | [], [] => true
  | c :: a', d :: b' => chr_eqb c d && str_eqb a' b'
  | _, _ => false
  end.

(** [l[i]] for a Python integer [i]: a negative index counts from the end,
    and an index outside the list raises [IndexError]. *)
Definition py_index {A : Type} (l : list A) (i : Z) : result nat :=
  let n := Z.of_nat (length l) in
  let j := if (i <? 0)%Z then (i + n)%Z else i in
  if ((0 <=? j) && (j <? n))%Z then Ok (Z.to_nat j) else Raise IndexError.

Definition py_get (l : list str) (i : Z) : result str :=
  j <- py_index l i ;; Ok (nth j l []).

(** [l[j] = v] on a list, for [j] inside it. *)
Fixpoint update (l : list str) (j : nat) (v : str) : list str :=
  match l, j with
  | [], _ => []
  | _ :: t, O => v :: t
  | x :: t, S k => x :: update t k v
  end.

(** [l[i] = v] for a Python integer [i]. *)
Definition py_set (l : list str) (i : Z) (v : str) : result (list str) :=
  j <- py_index l i ;; Ok (update l j v).

(** ** Single and double measure repeats *)

Definition is_rx (c : ascii) : bool := chr_eqb c "r" || chr_eqb c "x".

(** [re.split(r"[rx]", s)]: [cur] is the piece being read. *)
Fixpoint split_rx (cur : str) (s : str) : list str :=
  match s with
  | [] => [cur]
  | c :: t => if is_rx c then cur :: split_rx [] t
              else split_rx (cur ++ [c]) t
  end.

(** [re.findall(r"[rx]", s)]. *)
Definition findall_rx (s : str) : list str :=
  map (fun c => [c]) (filter is_rx s).

(** The first loop of [_fill_single_double_repeats], for one measure:
    [[val.strip() for pair in zip(splits, markers + [""]) for val in pair
      if val.strip() != ""]]. *)
Definition measures_xt (measure : str) : list str :=
  let splits := split_rx [] measure in
  let markers := findall_rx measure in
  map strip
      (filter (fun val => negb (is_blank val))
              (flat_map (fun pair => [fst pair; snd pair])
                        (combine splits (markers ++ [[]])))).

Definition pre_measures (measures : list str) : list str :=
  flat_map measures_xt measures.

(** The second loop: an empty slot is appended after a double-repeat marker
    that ends the list or that a non-blank measure follows. *)
Fixpoint add_slots (pre : list str) : list str :=
  match pre with
  | [] => []
  | measure :: rest =>
      if str_eqb measure (py "r") then
        measure ::
        (match rest with
         | [] => [py " "]
         | next :: _ => if negb (is_blank next) then [py " "] else []
         end) ++ add_slots rest
      else measure :: add_slots rest
  end.

Section MeasureRepeats.

Variable remove_markers : str -> str.

(** The body of the third loop at index [i]. *)
Definition infill_at (new_measures : list str) (i : Z)
    : result (list str) :=
  cur <- py_get new_measures i ;;
  if str_eqb cur (py "x") then
    prev <- py_get new_measures (i - 1) ;;
    py_set new_measures i (remove_markers prev)
  else if str_eqb cur (py "r") then
    back2 <- py_get new_measures (i - 2) ;;
    new_measures <- py_set new_measures i (remove_markers back2) ;;
    ahead <- py_get new_measures (i + 1) ;;
    if is_blank ahead then
      back1 <- py_get new_measures (i - 1) ;;
      py_set new_measures (i + 1) (remove_markers back1)
    else Raise AssertionError
  else Ok new_measures.

(** The third loop, [for i in range(1, len(new_measures))]: [n] indices
    are left, starting at [i]. *)
Fixpoint infill_loop (n : nat) (i : Z) (new_measures : list str)
    : result (list str) :=
  match n with
  | O => Ok new_measures
  | S n' =>
      new_measures <- infill_at new_measures i ;;
      infill_loop n' (i + 1)%Z new_measures
  end.

(** [ChoCoTune._fill_single_double_repeats]. *)
Definition fill_single_double_repeats (measures : list str)
    : result (list str) :=
  let new_measures := add_slots (pre_measures measures) in
  infill_loop (length new_measures - 1) 1%Z new_measures.

End MeasureRepeats.

(** ** Slashes *)

Module Chord.

(** The classes [[A-G]] and [[A-Gn]]. *)
Definition is_note (c : ascii) : bool :=
  let n := nat_of_ascii c in (65 <=? n) && (n <=? 71).

Definition is_root (c : ascii) : bool := is_note c || chr_eqb c "n".

(** The greedy [[^A-G/]*]: what it takes and what it leaves. *)
Fixpoint quality (s : str) : str * str :=
  match s with
  | [] => ([], [])
  | c :: t =>
      if is_note c || chr_eqb c "/" then ([], s)
      else let (q, r) := quality t in (c :: q, r)
  end.

(** The optional [(?:/[A-G][#b]?)?]. *)
Definition bass (s : str) : str :=
  match s with
  | c :: r :: t =>
      if chr_eqb c "/" && is_note r then
        match t with
        | a :: _ => if chr_eqb a "#" || chr_eqb a "b" then [c; r; a]
                    else [c; r]
        | [] => [c; r]
        end
      else []
  | _ => []
  end.

(** [[A-Gn][^A-G/]*(?:/[A-G][#b]?)?] at the head of [s]. *)
Definition chord_at (s : str) : option str :=
  match s with
  | c :: t =>
      if is_root c then
        let (q, r) := quality t in Some (c :: q ++ bass r)
      else None
  | [] => None
  end.

(** [re.findall(IREAL_CHORD_RE, s)]: [prev] is the character before the
    head of [s], which the lookbehind [(?<!/)] inspects, and [skip] counts
    the characters that still belong to the previous match. *)
Fixpoint findall (prev : option ascii) (skip : nat) (s : str) : list str :=
  match s with
  | [] => []
  | c :: t =>
      match skip with
      | S k => findall (Some c) k t
      | O =>
          let behind :=
            match prev with
            | Some p => chr_eqb p "/"
            | None => false
            end in
          match (if behind then None else chord_at s) with
          | Some chord => chord :: findall (Some c) (length chord - 1) t
          | None => findall (Some c) 0 t
          end
      end
  end.

(** [chord_regex.findall(s)[-1]]. *)
Definition last_chord (s : str) : result str :=
  match rev (findall None 0 s) with
  | chord :: _ => Ok chord
  | [] => Raise IndexError
  end.

End Chord.

(** [re.sub(r'^(p+)', repl, s)] for a replacement taken literally: the
    leading run of slashes is replaced. *)
Fixpoint drop_slashes (s : str) : str :=
  match s with
  | c :: t => if chr_eqb c "p" then drop_slashes t else s
  | [] => []
  end.

Definition sub_leading_slashes (repl s : str) : str :=
  match s with
  | c :: t => if chr_eqb c "p" then repl ++ drop_slashes t else s
  | [] => []
  end.

Section Slashes.

(** Whether the module [re] accepts a string as a replacement template: it
    raises [re.error] on an unknown escape or group reference after a
    backslash, before looking for any match. *)
Variable template_ok : str -> bool.

(** One round of the [while] loop of [_fill_slashes] at index [i], entered
    when [measures[i]] holds a slash at index [slash]. *)
Definition fill_slash (measures : list str) (i : Z) (slash : Z)
    : result (list str) :=
  cur <- py_get measures i ;;
  if (slash =? 0)%Z then
    behind <- py_get measures (i - 1) ;;
    chord <- Chord.last_chord behind ;;
    let prev_chord := chord ++ py " " in
    measures <- py_set measures i (prev_chord ++ slice_from 1 cur) ;;
    cur <- py_get measures i ;;
    if template_ok prev_chord
    then py_set measures i (sub_leading_slashes prev_chord cur)
    else Raise ReError
  else
    chord <- Chord.last_chord (slice_to (Z.to_nat slash) cur) ;;
    py_set measures i
      (slice_to (Z.to_nat slash) cur ++ chord ++ py " "
       ++ slice_from (Z.to_nat slash + 1) cur).

(** The [while] loop at index [i]; [None] when [fuel] rounds were not
    enough. *)
Fixpoint fill_slashes_at (fuel : nat) (measures : list str) (i : Z)
    : option (result (list str)) :=
  match fuel with
  | O => None
  | S fuel' =>
      match py_get measures i with
      | Raise e => Some (Raise e)
      | Ok cur =>
          let slash := find "p" cur in
          if (slash =? -1)%Z then Some (Ok measures)
          else match fill_slash measures i slash with
               | Raise e => Some (Raise e)
               | Ok measures' => fill_slashes_at fuel' measures' i
               end
      end
  end.

(** The [for] loop over [n] indices from [i] on. *)
Fixpoint fill_slashes_from (fuel : nat) (n : nat) (measures : list str)
    (i : Z) : option (result (list str)) :=
  match n with
  | O => Some (Ok measures)
  | S n' =>
      match fill_slashes_at fuel measures i with
      | Some (Ok measures') => fill_slashes_from fuel n' measures' (i + 1)%Z
      | other => other
      end
  end.

(** [ChoCoTune._fill_slashes]; [fuel] bounds the rounds of each [while]
    loop. *)
Definition fill_slashes (fuel : nat) (measures : list str)
    : option (result (list str)) :=
  fill_slashes_from fuel (length measures) measures 0%Z.

End Slashes.

(** What [re] refuses in a replacement template is a backslash followed by
    a letter it does not know or by a group number the pattern has not; a
    template without a backslash is always accepted, which is all this
    instance claims. *)
Definition no_backslash (s : str) : bool :=
  negb (existsb (fun c => chr_eqb c "\") s).

(** ** Timed annotations *)

(** [s.split()]: the maximal runs of characters that are not white space;
    [cur] is the run being read. *)
Fixpoint split_ws (cur : str) (s : str) : list str :=
  match s with
  | [] => match cur with
          | [] => []
          | _ :: _ => [cur]
          end
  | c :: t =>
      if is_space c then
        match cur with
        | [] => split_ws [] t
        | _ :: _ => cur :: split_ws [] t
        end
      else split_ws (cur ++ [c]) t
  end.

Definition split (s : str) : list str := split_ws [] s.

(** [str(n)] for an integer. *)
Definition str_of_int (n : Z) : str :=
  list_ascii_of_string (NilEmpty.string_of_int (Z.to_int n)).

(** What [extract_annotations_from_tune] reads of a tune. *)
Record tune : Type := {
  measures_as_strings : list str;
  time_signature : Z * Z;
  key : str
}.

Section Annotations.

(** The numbers of the onsets and durations: Python floats, with the
    operations the function uses on them.  [true_div] is [/] between two
    integers (the divisor is not zero), [zero] the integer 0 once in an
    array of floats and [add] the addition [numpy.cumsum] accumulates with. *)
Variable num : Type.
Variable true_div : Z -> Z -> num.
Variable zero : num.
Variable add : num -> num -> num.

(** [numpy.cumsum(first :: rest)]. *)
Fixpoint cumsum_from (acc : num) (rest : list num) : list num :=
  match rest with
  | [] => []
  | x :: rest' => let acc' := add acc x in acc' :: cumsum_from acc' rest'
  end.

Definition cumsum (l : list num) : list num :=
  match l with
  | [] => []
  | first :: rest => first :: cumsum_from first rest
  end.

(** A chord annotation [[m, o, chord_dur, c]]. *)
Definition chord_event : Type := Z * num * num * str.

(** A key or time signature annotation [[1, 1, beat_duration, value]]. *)
Definition span_event : Type := Z * Z * Z * str.

(** The body of the loop over the measures, for measure number [m]. *)
Definition measure_events (measure_beats : Z) (m : Z) (measure : str)
    : result (list chord_event) :=
  let measure_chords := split measure in
  let k := length measure_chords in
  if k =? 0 then Raise ZeroDivisionError
  else
    let chord_dur := true_div measure_beats (Z.of_nat k) in
    let onsets := cumsum (zero :: repeat chord_dur (k - 1)) in
    Ok (map (fun oc => (m, fst oc, chord_dur, snd oc))
            (combine onsets measure_chords)).

(** [for m, measure in enumerate(measures, m)]. *)
Fixpoint chords_from (measure_beats : Z) (m : Z) (measures : list str)
    : result (list chord_event) :=
  match measures with
  | [] => Ok []
  | measure :: rest =>
      evs <- measure_events measure_beats m measure ;;
      more <- chords_from measure_beats (m + 1)%Z rest ;;
      Ok (evs ++ more)
  end.

(** [extract_annotations_from_tune]. *)
Definition extract_annotations_from_tune (t : tune)
    : result (list chord_event * list span_event * list span_event) :=
  let measures := measures_as_strings t in
  let measure_beats := fst (time_signature t) in
  let beat_duration := (measure_beats * Z.of_nat (length measures))%Z in
  chords <- chords_from measure_beats 1%Z measures ;;
  if negb (length (split (key t)) =? 1) then Raise AssertionError
  else
    let keys := [(1, 1, beat_duration, key t)%Z] in
    let time_signatures :=
      str_of_int (fst (time_signature t)) ++ py "/"
      ++ str_of_int (snd (time_signature t)) in
    let time_signatures := [(1, 1, beat_duration, time_signatures)%Z] in
    Ok (chords, keys, time_signatures).

(** The sum of [i] copies of [d], accumulated from [zero] as [cumsum]
    does: [i * d] when the arithmetic is exact. *)
Fixpoint times (i : nat) (d : num) : num :=
  match i with
  | O => zero
  | S j => add (times j d) d
  end.

End Annotations.

(** Python's floats are the binary64 numbers.  An integer, whatever its
    size, as the exact operand of a division: sign, magnitude, exponent 0. *)
Definition spec_of_int (n : Z) : spec_float :=
  match n with
  | Z0 => S754_zero false
  | Zpos p => S754_finite false p 0
  | Zneg p => S754_finite true p 0
  end.

(** [a / b] between two Python integers: the binary64 number nearest to the
    exact quotient, ties to even, computed from the integers themselves, so
    that nothing is rounded before the division.  This for a divisor
    that is not zero, as where the function divides, and for a quotient
    below 2^1024 in absolute value, beyond which Python raises
    [OverflowError]. *)
Definition float_div (a b : Z) : float :=
  SF2Prim (SFdiv prec emax (spec_of_int a) (spec_of_int b)).

Definition float_annotations (t : tune) :=
  extract_annotations_from_tune float float_div PrimFloat.zero PrimFloat.add t.

(** ** Vocabulary of the properties *)

(** [subseq a b]: [a] is [b] with some characters deleted. *)
Inductive subseq : str -> str -> Prop :=
| subseq_nil : subseq [] []
| subseq_skip (c : ascii) (a b : str) : subseq a b -> subseq a (c :: b)
| subseq_keep (c : ascii) (a b : str) : subseq a b -> subseq (c :: a) (c :: b).

(** What the parser relies on when it calls [_remove_markers]: the result is
    the argument with some characters deleted. *)
Definition only_deletes (remove_markers : str -> str) : Prop :=
  forall y, subseq (remove_markers y) y.

(** A measure with neither repeat marker in it. *)
Definition marker_free (y : str) : Prop := ~ In "r" y /\ ~ In "x" y.

(** What the first loop of [_fill_single_double_repeats] produces: a repeat
    marker alone, or text without one. *)
Definition piece (y : str) : Prop :=
  y = py "r" \/ y = py "x" \/ marker_free y.

(** Every double-repeat marker of the list has a blank measure after it. *)
Definition slotted (nm : list str) : Prop :=
  forall j, nth j nm [] = py "r" ->
            S j < length nm /\ is_blank (nth (S j) nm []) = true.

(** The state of the third loop of [_fill_single_double_repeats] when it
    reaches index [k], for the list [nm] it started from. *)
Record infill_inv (nm : list str) (k : nat) (cur : list str) : Prop := {
  inv_length : length cur = length nm;
  inv_ahead : forall j, k < j -> nth j cur [] = nth j nm [];
  inv_here : nth k cur [] <> nth k nm [] -> nth (k - 1) nm [] = py "r";
  inv_double : forall j, nth j cur [] = py "r" -> nth j nm [] = py "r";
  inv_pair : forall j, nth j cur [] = py "r" -> nth (S j) cur [] <> py "x";
  inv_pieces : forall y, In y cur -> piece y;
  inv_single : forall j, 1 <= j -> j < k -> nth j cur [] = py "x" ->
               nth (j - 1) cur [] = py "x" \/ nth j nm [] = py "r"
}.

(** The index [i - 2] of [new_measures[i - 2]] in a list of [n] measures:
    at [i = 1] the Python index is [-1], the last measure. *)
Definition back2 (i n : nat) : nat := if i =? 1 then n - 1 else i - 2.

Section AnnotationsSpec.

Variable num : Type.
Variable true_div : Z -> Z -> num.
Variable zero : num.
Variable add : num -> num -> num.

(** What the specification says of the chords of measure number [m] with
    [measure_beats] beats: one event per chord token, the token of index [i]
    at beat offset [i * (b / k)] in the measure and with duration [b / k],
    where [k] counts the tokens. *)
Definition evenly_spaced (measure_beats : Z) (m : Z) (measure : str)
    : list (chord_event num) :=
  let tokens := split measure in
  let k := length tokens in
  let d := true_div measure_beats (Z.of_nat k) in
  map (fun i => (m, times num zero add i d, d, nth i tokens [])) (seq 0 k).

(** The chords of the measures numbered from [m] on. *)
Fixpoint evenly_spaced_from (measure_beats : Z) (m : Z) (measures : list str)
    : list (chord_event num) :=
  match measures with
  | [] => []
  | measure :: rest =>
      evenly_spaced measure_beats m measure
      ++ evenly_spaced_from measure_beats (m + 1)%Z rest
  end.

End AnnotationsSpec.

(** The number of opening brackets that a closing bracket follows
    immediately; such a pair is no repeat group, but its closing bracket
    becomes the first character of a group when a later closing bracket
    ends one. *)
Fixpoint adjacent (s : str) : nat :=
  match s with
  | [] => 0
  | c :: t =>
      (match t with
       | d :: _ => if chr_eqb c "{" && chr_eqb d "}" then 1 else 0
       | [] => 0
       end) + adjacent t
  end.

Definition ends_open (s : str) : bool :=
  match rev s with
  | c :: _ => chr_eqb c "{"
  | [] => false
  end.

Definition starts_close (s : str) : bool :=
  match s with
  | c :: _ => chr_eqb c "}"
  | [] => false
  end.

(** A counted-repeat annotation: [<], the decimal digits [ds], [x>]. *)
Definition annotation (ds : str) : str := "<" :: ds ++ py "x>".

Definition digits (ds : str) : Prop := ds <> [] /\ forallb is_digit ds = true.

Definition annotated (s : str) : Prop :=
  exists a ds b, digits ds /\ s = a ++ annotation ds ++ b.

(** What the specification says of the count and of the content of a bracket
    repeat: 2 and the content of the group, or the number of the last
    annotation of the group and its content without that annotation (where
    the parser also replaces each double space by one). *)
Inductive counted : str -> Z -> str -> Prop :=
| counted_default (g : str) :
    ~ annotated g ->
    counted g 2%Z g
| counted_explicit (a ds b : str) :
    digits ds -> ~ annotated b ->
    counted (a ++ annotation ds ++ b) (Re.int_of_digits ds)
            (replace_double_space (a ++ b)).

(** No numbered-ending marker: no [N] with a digit after it. *)
Definition no_ending (g : str) : Prop :=
  forall a d b, g = a ++ "N" :: d :: b -> is_digit d = false.

(** ** Charts of an iReal URL *)

(** The double quote, at which [IREAL_RE] stops. *)
Definition dquote : ascii := "034".

(** The rest of [s] after the literal [p], when [s] begins with it. *)
Fixpoint strip_prefix (p s : str) : option str :=
  match p, s with
  | [], _ => Some s
  | c :: p', d :: s' => if chr_eqb c d then strip_prefix p' s' else None
  | _ :: _, [] => None
  end.

(** The greedy negated class of [IREAL_RE]: the longest prefix without a
    double quote. *)
Fixpoint unquoted_run (s : str) : str :=
  match s with
  | [] => []
  | c :: t => if chr_eqb c dquote then [] else c :: unquoted_run t
  end.

(** [re.match(IREAL_RE, s)]: the literal [irealb://] and then the group, one
    character or more that are not double quotes, as many as there are. *)
Definition match_ireal (s : str) : option str :=
  match strip_prefix (py "irealb://") s with
  | Some rest =>
      match unquoted_run rest with
      | [] => None
      | c :: g => Some (c :: g)
      end
  | None => None
  end.

(** Putting a character in front of the first piece of a split. *)
Definition cons_head (c : ascii) (pieces : list str) : list str :=
  match pieces with
  | p :: ps => (c :: p) :: ps
  | [] => [[c]]
  end.

(** [re.split("===", s)]: the pieces between the occurrences of the
    separator, found from left to right, each search resuming after the
    previous occurrence. *)
Fixpoint split_charts (s : str) : list str :=
  match s with
  | [] => [[]]
  | c :: t =>
      match t with
      | d :: e :: u =>
          if chr_eqb c "=" && chr_eqb d "=" && chr_eqb e "="
          then [] :: split_charts u
          else cons_head c (split_charts t)
      | _ => cons_head c (split_charts t)
      end
  end.


Section Charts.

(** [urllib.parse.unquote], of Python's standard library. *)
Variable unquote : str -> str.

(** [split_ireal_charts]. *)
Definition split_ireal_charts (ireal_url : str) : result (list str) :=
  let ireal_string := unquote ireal_url in
  match match_ireal ireal_string with
  | None => Raise RuntimeError
  | Some group1 =>
      let charts := split_charts group1 in
      Ok (filter (fun c => negb (str_eqb c [])) charts)
  end.

(** The tunes, and the constructor [ChoCoTune(chart)] inherited from the
    class [Tune] of [pyRealParser], which raises on a chart it cannot read. *)
Variable Tune : Type.
Variable ChoCoTune : str -> result Tune.

(** The loop of [parse_ireal_url] from index [i] on, over the charts that
    are left, [n] being [len(charts)]. *)
Fixpoint parse_charts (n : nat) (i : nat) (charts : list str)
    (tunes : list Tune) : list Tune * option str :=
  match charts with
  | [] => (tunes, None)
  | chart :: rest =>
      if (Z.of_nat i =? Z.of_nat n - 1)%Z
         && negb (existsb (fun c => chr_eqb c "=") chart)
      then (tunes, Some (strip chart))
      else
        let tunes :=
          match ChoCoTune chart with
          | Ok tune => tunes ++ [tune]
          | Raise _ => tunes
          end in
        parse_charts n (S i) rest tunes
  end.

(** [ChoCoTune.parse_ireal_url]. *)
Definition parse_ireal_url (url : str)
    : result (list Tune * option str) :=
  charts <- split_ireal_charts url ;;
  Ok (parse_charts (length charts) 0 charts []).

(** The tunes of the charts that the constructor reads, in order. *)
Definition readable (charts : list str) : list Tune :=
  flat_map (fun chart => match ChoCoTune chart with
                         | Ok tune => [tune]
                         | Raise _ => []
                         end) charts.

End Charts.


(** ** The cleaning passes

    [_cleanup_chord_string] and [_remove_unsupported_annotations] are chains
    of [re.sub] calls.  Every pattern of theirs matches at least one
    character, and no replacement holds an escape. *)

Module Sub.

(** [re.sub(pattern, repl, s)]: [at_] is the matcher of the pattern, which
    answers the length of the match at the head of its argument; [skip]
    counts the characters of [s] that still belong to the previous match. *)
Fixpoint sub (at_ : str -> option nat) (repl : str) (skip : nat) (s : str)
    : str :=
  match s with
  | [] => []
  | c :: t =>
      match skip with
      | S k => sub at_ repl k t
      | O =>
          match at_ s with
          | Some n => repl ++ sub at_ repl (n - 1) t
          | None => c :: sub at_ repl 0 t
          end
      end
  end.

(** The length of the longest prefix made of characters of a class: what a
    greedy [*] or [+] on the class takes. *)
Fixpoint run (Q : ascii -> bool) (s : str) : nat :=
  match s with
  | c :: t => if Q c then S (run Q t) else 0
  | [] => 0
  end.

(** A pattern [Q+] for a class [Q]. *)
Definition run_at (Q : ascii -> bool) (s : str) : option nat :=
  if 0 <? run Q s then Some (run Q s) else None.

(** A pattern [pQ+]: one character of the class [P], then [Q+]. *)
Definition lead_run_at (P Q : ascii -> bool) (s : str) : option nat :=
  match s with
  | c :: t => if P c && (0 <? run Q t) then Some (S (run Q t)) else None
  | [] => None
  end.

(** A pattern [pQ*p]: a character [p], then [Q*], then [p] again.  The
    greedy star takes the whole run, and giving characters of it back cannot
    help, since [p] is not in [Q] where the parser uses this. *)
Definition enclosed_run_at (p : ascii) (Q : ascii -> bool) (s : str)
    : option nat :=
  match s with
  | c :: t =>
      if chr_eqb c p then
        match skipn (run Q t) t with
        | d :: _ => if chr_eqb d p then Some (run Q t + 2) else None
        | [] => None
        end
      else None
  | [] => None
  end.

(** A literal. *)
Definition literal_at (lit : str) (s : str) : option nat :=
  match strip_prefix lit s with
  | Some _ => Some (length lit)
  | None => None
  end.

(** An alternation: the first alternative that matches wins. *)
Definition either_at (a b : str -> option nat) (s : str) : option nat :=
  match a s with
  | Some n => Some n
  | None => b s
  end.

(** One character of a class. *)
Definition class_at (P : ascii -> bool) (s : str) : option nat :=
  match s with
  | c :: _ => if P c then Some 1 else None
  | [] => None
  end.

(** [\|\s*\|], an empty measure. *)
Definition empty_measure_at : str -> option nat :=
  enclosed_run_at "|" is_space.

(** The lazy [.*?>]: up to the first closing angle, which no line feed may
    precede; the length includes the angle. *)
Fixpoint until_angle (s : str) : option nat :=
  match s with
  | [] => None
  | c :: t =>
      if chr_eqb c ">" then Some 1
      else if chr_eqb c newline then None
      else match until_angle t with
           | Some n => Some (S n)
           | None => None
           end
  end.

(** [(?!<\d+x>)<.*?>], a comment that is no explicit repeat count. *)
Definition comment_at (s : str) : option nat :=
  match Re.count_at s with
  | Some _ => None
  | None =>
      match s with
      | c :: t =>
          if chr_eqb c "<" then
            match until_angle t with
            | Some n => Some (S n)
            | None => None
            end
          else None
      | [] => None
      end
  end.

(** [[^)]*\)]: up to the first closing parenthesis, included. *)
Fixpoint until_paren (s : str) : option nat :=
  match s with
  | [] => None
  | c :: t =>
      if chr_eqb c ")" then Some 1
      else match until_paren t with
           | Some n => Some (S n)
           | None => None
           end
  end.

(** [\([^)]*\)], an alternative chord. *)
Definition alternative_at (s : str) : option nat :=
  match s with
  | c :: t =>
      if chr_eqb c "(" then
        match until_paren t with
        | Some n => Some (S n)
        | None => None
        end
      else None
  | [] => None
  end.

(** [re.sub(r'(?<!su)s(?!us)', '', s)]: [p2] and [p1] are the two
    characters before the head of [s], which the lookbehind inspects. *)
Fixpoint sub_small (p2 p1 : option ascii) (s : str) : str :=
  match s with
  | [] => []
  | c :: t =>
      let behind :=
        match p2, p1 with
        | Some a, Some b => chr_eqb a "s" && chr_eqb b "u"
        | _, _ => false
        end in
      let ahead :=
        match t with
        | a :: b :: _ => chr_eqb a "u" && chr_eqb b "s"
        | _ => false
        end in
      if chr_eqb c "s" && negb behind && negb ahead
      then sub_small p1 (Some c) t
      else c :: sub_small p1 (Some c) t
  end.

(** The class [\w] on code points below 256: the digits, the letters and
    the underscore of ASCII, and in the upper half the letters, the
    superscript digits and the fractions. *)
Definition is_word (c : ascii) : bool :=
  let n := nat_of_ascii c in
  ((48 <=? n) && (n <=? 57)) || ((65 <=? n) && (n <=? 90)) || (n =? 95)
  || ((97 <=? n) && (n <=? 122)) || (n =? 170) || (n =? 178) || (n =? 179)
  || (n =? 181) || (n =? 185) || (n =? 186) || ((188 <=? n) && (n <=? 190))
  || ((192 <=? n) && (n <=? 214)) || ((216 <=? n) && (n <=? 246))
  || ((248 <=? n) && (n <=? 255)).

(** [\*\w], a section marker. *)
Definition section_at (s : str) : option nat :=
  match s with
  | c :: d :: _ => if chr_eqb c "*" && is_word d then Some 2 else None
  | _ => None
  end.

End Sub.

(** [ChoCoTune._remove_unsupported_annotations]. *)
Definition remove_unsupported_annotations (chord_string : str) : str :=
  let chord_string :=
    Sub.sub (Sub.class_at (fun c => chr_eqb c "[" || chr_eqb c "]"))
            (py "|") 0 chord_string in
  let chord_string := Sub.sub Sub.empty_measure_at (py "|") 0 chord_string in
  let chord_string := Sub.sub Sub.comment_at [] 0 chord_string in
  let chord_string := Sub.sub Sub.alternative_at (py " ") 0 chord_string in
  let chord_string :=
    Sub.sub (Sub.class_at (fun c => chr_eqb c "l" || chr_eqb c "f"))
            [] 0 chord_string in
  let chord_string := Sub.sub_small None None chord_string in
  let chord_string := Sub.sub Sub.section_at [] 0 chord_string in
  Sub.sub (Sub.lead_run_at (fun c => chr_eqb c "T") is_digit) [] 0
          chord_string.

Section Cleanup.

(** [pad_substring(chord_string, r"W(?:/[A-G][#b]?)?", recursive=True)],
    where [pad_substring] comes from the module [utils], which the sources
    import and do not contain. *)
Variable pad_ovals : str -> str.

(** [ChoCoTune._cleanup_chord_string]. *)
Definition cleanup_chord_string (chord_string : str) : str :=
  let chord_string :=
    Sub.sub (Sub.either_at (Sub.literal_at (py "LZ")) (Sub.literal_at (py "K")))
            (py "|") 0 chord_string in
  let chord_string :=
    Sub.sub (Sub.literal_at (py "cl")) (py "x") 0 chord_string in
  let chord_string :=
    Sub.sub (Sub.enclosed_run_at "*" is_space) [] 0 chord_string in
  let chord_string :=
    Sub.sub (Sub.run_at (fun c => chr_eqb c "Y")) [] 0 chord_string in
  let chord_string :=
    Sub.sub (Sub.either_at (Sub.literal_at (py "XyQ")) (Sub.literal_at (py ",")))
            (py " ") 0 chord_string in
  let chord_string := Sub.sub Sub.empty_measure_at (py "|") 0 chord_string in
  let chord_string :=
    Sub.sub (Sub.literal_at (py "Z")) [] 0 chord_string in
  let chord_string := pad_ovals chord_string in
  let chord_string :=
    Sub.sub (Sub.lead_run_at (fun c => chr_eqb c "|") is_space) (py "|") 0
            chord_string in
  let chord_string := Sub.sub (Sub.run_at is_space) (py " ") 0 chord_string in
  rstrip chord_string.

End Cleanup.

(** [starts Q s]: [s] begins with a character of the class [Q]. *)
Definition starts (Q : ascii -> bool) (s : str) : bool :=
  match s with
  | c :: _ => Q c
  | [] => false
  end.

(** [pair_free P Q s]: nowhere in [s] does a character of [Q] follow
    immediately a character of [P]. *)
Fixpoint pair_free (P Q : ascii -> bool) (s : str) : bool :=
  match s with
  | c :: t => negb (P c && starts Q t) && pair_free P Q t
  | [] => true
  end.

(** ** Cutting the chord string into measures *)

(** [re.split(pattern, s)] for a pattern without groups that matches at
    least one character; [at_] and [skip] are as in [Sub.sub]. *)
Fixpoint re_split (at_ : str -> option nat) (skip : nat) (s : str)
    : list str :=
  match s with
  | [] => [[]]
  | c :: t =>
      match skip with
      | S k => re_split at_ k t
      | O =>
          match at_ s with
          | Some n => [] :: re_split at_ (n - 1) t
          | None => cons_head c (re_split at_ 0 t)
          end
      end
  end.

(** The bar markers of [_get_measures], in the order of its pattern. *)
Definition bar_markers : list str :=
  [py "|"; py "LZ"; py "K"; py "Z"; py "{"; py "}"; py "["; py "]"].

(** The pattern that joins the bar markers with the alternation. *)
Definition bar_at : str -> option nat :=
  fold_right Sub.either_at (fun _ => None) (map Sub.literal_at bar_markers).

(** The first comprehension of [_get_measures], over the pieces [rest] that
    begin at index [i] of [measures]: a blank piece is kept when the piece
    before it, which for the first piece is the last one, holds only the
    double-repeat marker. *)
Fixpoint keep_measures (measures : list str) (i : nat) (rest : list str)
    : result (list str) :=
  match rest with
  | [] => Ok []
  | m :: rest' =>
      kept <- (if negb (is_blank m) then Ok true
               else
                 before <- py_get measures (Z.of_nat i - 1) ;;
                 Ok (str_eqb (strip before) (py "r"))) ;;
      more <- keep_measures measures (S i) rest' ;;
      Ok (if (kept : bool) then strip m :: more else more)
  end.

(** The statements of [_get_measures] that cut the chord string, once the
    repeats and the codas are filled, into the measures it hands to
    [_fill_single_double_repeats]. *)
Definition cut_measures (chord_string : str) : result (list str) :=
  let measures := re_split bar_at 0 chord_string in
  measures <- keep_measures measures 0 measures ;;
  Ok (map (fun m => strip (remove_char "U" m)) measures).

(** ** The last cleaning of the measures *)

(** What [_clean_measures] can raise. *)
Inductive clean_exn : Type :=
| UnboundLocalError   (* [last_root] is read before any chord was met *)
| TemplateError.      (* [re.error]: the root is no replacement template *)

Inductive cleaned (A : Type) : Type :=
| Done (a : A)
| Failed (e : clean_exn).

Arguments Done {A} a.
Arguments Failed {A} e.

(** [chord.split("/")[0]]: the text before the first slash. *)
Fixpoint before_slash (chord : str) : str :=
  match chord with
  | [] => []
  | c :: t => if chr_eqb c "/" then [] else c :: before_slash t
  end.

(** [re.sub(r"W", repl, s, count=1)] for a replacement [repl] already
    expanded: the first [W] of [s] is replaced. *)
Fixpoint replace_first_oval (repl s : str) : str :=
  match s with
  | [] => []
  | c :: t => if chr_eqb c "W" then repl ++ t
              else c :: replace_first_oval repl t
  end.

(** The last pass of [_clean_measures] on one measure. *)
Definition clean_measure (measure : str) : str :=
  let measure_tmp :=
    Sub.sub (Sub.class_at (fun c => chr_eqb c "U" || chr_eqb c "S")) [] 0
            measure in
  let measure_tmp :=
    strip (Sub.sub (Sub.lead_run_at is_space is_space) (py " ") 0
                   measure_tmp) in
  if Re.has_ending measure_tmp then Re.remove_endings measure_tmp
  else measure_tmp.

Section CleanMeasures.

(** [pad_substring(measure, "n", "N")], where [pad_substring] comes from the
    module [utils], which the sources import and do not contain. *)
Variable pad_no_chord : str -> str.

(** How the module [re] reads a string as a replacement template: the text
    it stands for, or nothing when it raises [re.error]. *)
Variable expand_template : str -> option str.

(** The [while] loop of the first pass on one measure; [None] when [fuel]
    rounds were not enough. *)
Fixpoint pad_measure (fuel : nat) (measure : str) : option str :=
  match fuel with
  | O => None
  | S fuel' =>
      if (find "n" measure =? -1)%Z then Some measure
      else pad_measure fuel' (pad_no_chord measure)
  end.

(** The first pass. *)
Fixpoint pad_measures (fuel : nat) (measures : list str)
    : option (list str) :=
  match measures with
  | [] => Some []
  | measure :: rest =>
      match pad_measure fuel measure, pad_measures fuel rest with
      | Some measure', Some rest' => Some (measure' :: rest')
      | _, _ => None
      end
  end.

(** The second pass on one measure, over the observations that are left:
    [last_root] is [None] as long as the variable is not bound. *)
Fixpoint infill_ovals (observations : list str) (last_root : option str)
    (measure : str) : cleaned (option str * str) :=
  match observations with
  | [] => Done (last_root, measure)
  | observation :: rest =>
      match Chord.chord_at observation with
      | Some chord => infill_ovals rest (Some (before_slash chord)) measure
      | None =>
          if existsb (fun c => chr_eqb c "W") observation then
            match last_root with
            | None => Failed UnboundLocalError
            | Some root =>
                match expand_template root with
                | None => Failed TemplateError
                | Some repl =>
                    infill_ovals rest last_root
                                 (replace_first_oval repl measure)
                end
            end
          else infill_ovals rest last_root measure
      end
  end.

(** The second pass. *)
Fixpoint infill_measures (measures : list str) (last_root : option str)
    : cleaned (list str) :=
  match measures with
  | [] => Done []
  | measure :: rest =>
      match infill_ovals (split measure) last_root measure with
      | Failed e => Failed e
      | Done (last_root', measure') =>
          match infill_measures rest last_root' with
          | Failed e => Failed e
          | Done rest' => Done (measure' :: rest')
          end
      end
  end.

(** [ChoCoTune._clean_measures]; [fuel] bounds the rounds of each [while]
    loop of the first pass. *)
Definition clean_measures (fuel : nat) (measures : list str)
    : option (cleaned (list str)) :=
  match pad_measures fuel measures with
  | None => None
  | Some new_measures =>
      Some (match infill_measures new_measures None with
            | Failed e => Failed e
            | Done new_measures => Done (map clean_measure new_measures)
            end)
  end.

End CleanMeasures.

(** * Properties *)

(** ** Characters and string methods *)

Lemma chr_eqb_eq (a b : ascii) : chr_eqb a b = true <-> a = b.
Proof. unfold chr_eqb. apply Ascii.eqb_eq. Qed.

Lemma chr_eqb_neq (a b : ascii) : chr_eqb a b = false <-> a <> b.
Proof. unfold chr_eqb. apply Ascii.eqb_neq. Qed.

Lemma chr_eqb_refl (a : ascii) : chr_eqb a a = true.
Proof. apply chr_eqb_eq. reflexivity. Qed.

Ltac chr_cases :=
  repeat match goal with
  | H : chr_eqb _ _ = true |- _ => apply chr_eqb_eq in H
  | H : chr_eqb _ _ = false |- _ => apply chr_eqb_neq in H
  end.

Lemma count_app (c : ascii) (a b : str) :
  count c (a ++ b) = count c a + count c b.
Proof. induction a as [|d a IH]; simpl; [reflexivity | rewrite IH; lia]. Qed.

Lemma count_zero (c : ascii) (s : str) : count c s = 0 <-> ~ In c s.
Proof.
  induction s as [|d s IH]; simpl.
  - tauto.
  - destruct (chr_eqb d c) eqn:E; chr_cases.
    + split; [lia | intros H; exfalso; apply H; left; exact E].
    + simpl. rewrite IH. split.
      * intros H [H1 | H1]; [congruence | exact (H H1)].
      * intros H H1. apply H. right. exact H1.
Qed.

Lemma find_lower (c : ascii) (s : str) : (-1 <= find c s)%Z.
Proof.
  induction s as [|d s IH]; simpl; [lia|].
  destruct (chr_eqb d c); [lia|].
  destruct (find c s =? -1)%Z; lia.
Qed.

Lemma find_none (c : ascii) (s : str) : find c s = (-1)%Z <-> ~ In c s.
Proof.
  induction s as [|d s IH]; simpl.
  - tauto.
  - destruct (chr_eqb d c) eqn:E; chr_cases.
    + split; [lia | intros H; exfalso; apply H; left; exact E].
    + pose proof (find_lower c s) as L.
      destruct (find c s =? -1)%Z eqn:F.
      * apply Z.eqb_eq in F. split; [|reflexivity].
        intros _ [H | H]; [congruence | apply IH in F; exact (F H)].
      * apply Z.eqb_neq in F. split; [lia|].
        intros H. exfalso. apply F, IH. intros H1. apply H. right. exact H1.
Qed.

(** [find] answers the length of the longest prefix without the character. *)
Lemma find_split (c : ascii) (a b : str) :
  ~ In c a -> find c (a ++ c :: b) = Z.of_nat (length a).
Proof.
  induction a as [|d a IH]; intros H; simpl.
  - rewrite chr_eqb_refl. reflexivity.
  - destruct (chr_eqb d c) eqn:E; chr_cases.
    + exfalso. apply H. left. exact E.
    + rewrite IH by (intros H1; apply H; right; exact H1).
      destruct (Z.of_nat (length a) =? -1)%Z eqn:F; [apply Z.eqb_eq in F|]; lia.
Qed.

Lemma in_split_first (c : ascii) (s : str) :
  In c s -> exists a b, s = a ++ c :: b /\ ~ In c a.
Proof.
  induction s as [|d s IH]; simpl; [tauto|].
  intros H. destruct (chr_eqb d c) eqn:E; chr_cases.
  - subst d. exists [], s. split; [reflexivity | simpl; tauto].
  - destruct H as [H | H]; [congruence|].
    destruct (IH H) as (a & b & -> & Ha).
    exists (d :: a), b. split; [reflexivity|].
    intros [H1 | H1]; [congruence | exact (Ha H1)].
Qed.

(** ** The repeat-bracket reconciler *)

Lemma reconciler_condition (s : str) :
  ((find "}" s >? -1) && ((find "{" s =? -1) || (find "{" s >? find "}" s)))%Z
  = true
  <-> exists a b, s = a ++ "}" :: b /\ ~ In "{" a.
Proof.
  induction s as [|d s IH].
  - simpl. split; [discriminate|].
    intros (a & b & H & _). destruct a; discriminate.
  - simpl find.
    pose proof (find_lower "}" s) as L1. pose proof (find_lower "{" s) as L2.
    destruct (chr_eqb d "}") eqn:E1; chr_cases.
    + subst d. simpl.
      split; [intros _; exists [], s; split; [reflexivity | simpl; tauto]|].
      intros _. destruct (find "{" s =? -1)%Z eqn:F; simpl; [reflexivity|].
      apply Z.eqb_neq in F. destruct (find "{" s + 1 =? -1)%Z eqn:G.
      * reflexivity.
      * simpl. apply Z.gtb_lt. lia.
    + destruct (chr_eqb d "{") eqn:E2; chr_cases.
      * subst d. split.
        -- intros H. exfalso. apply andb_true_iff in H. destruct H as [H1 H2].
           apply orb_true_iff in H2. destruct H2 as [H2 | H2]; [discriminate|].
           apply Z.gtb_lt in H2. apply Z.gtb_lt in H1.
           destruct (find "}" s =? -1)%Z; lia.
        -- intros (a & b & H & Ha). exfalso. destruct a as [|x a].
           ++ simpl in H. congruence.
           ++ simpl in H. injection H as Hx _. apply Ha. left. symmetry. exact Hx.
      * assert (Hs : (exists a b, d :: s = a ++ "}" :: b /\ ~ In "{" a)
                     <-> (exists a b, s = a ++ "}" :: b /\ ~ In "{" a)).
        { split.
          - intros (a & b & H & Ha). destruct a as [|x a].
            + simpl in H. congruence.
            + simpl in H. injection H as Hx Hs. subst x s. exists a, b.
              split; [reflexivity|]. intros H1. apply Ha. right. exact H1.
          - intros (a & b & -> & Ha). exists (d :: a), b.
            split; [reflexivity|]. intros [H1 | H1]; [congruence | exact (Ha H1)]. }
        rewrite Hs, <- IH. clear IH Hs.
        destruct (Z.eqb_spec (find "}" s) (-1)) as [F1 | F1];
          destruct (Z.eqb_spec (find "{" s) (-1)) as [F2 | F2].
        -- rewrite F1. simpl. tauto.
        -- rewrite F1. simpl. tauto.
        -- simpl. rewrite !andb_true_r.
           split; intros H; apply Z.gtb_lt in H; apply Z.gtb_lt; lia.
        -- replace (find "{" s + 1 =? -1)%Z with false
             by (symmetry; apply Z.eqb_neq; lia).
           simpl. rewrite !andb_true_iff.
           split; intros [H1 H2]; apply Z.gtb_lt in H1; apply Z.gtb_lt in H2;
             split; apply Z.gtb_lt; lia.
Qed.

(** C4, as amended.  The reconciler returns its input or its input behind
    one opening bracket, and never adds a closing bracket; it inserts
    exactly when some closing bracket has no opening bracket before it,
    whatever the two counts are; so the counts agree afterwards exactly when
    the input was balanced and left alone, or lacked one opening bracket and
    received it. *)
Theorem reconciler_inserts_leading_bracket (s : str) :
  let r := Reconciler.insert_missing_repeat_brackets s in
  (r = s \/ r = "{" :: s)
  /\ (r = "{" :: s <-> exists a b, s = a ++ "}" :: b /\ ~ In "{" a)
  /\ count "}" r = count "}" s
  /\ (count "{" r = count "}" r <->
      (r = s /\ count "{" s = count "}" s)
      \/ (r = "{" :: s /\ count "}" s = S (count "{" s))).
Proof.
  unfold Reconciler.insert_missing_repeat_brackets.
  pose proof (reconciler_condition s) as C.
  assert (L : forall x : str, "{" :: x <> x).
  { intros x H. apply (f_equal (@length ascii)) in H. simpl in H. lia. }
  destruct ((find "}" s >? -1) && ((find "{" s =? -1) || (find "{" s >? find "}" s)))%Z;
    cbv zeta.
  - split; [right; reflexivity|].
    split; [split; [intros _; apply C; reflexivity | reflexivity]|].
    split; [reflexivity|].
    simpl. split.
    + intros H. right. split; [reflexivity | lia].
    + intros [[H _] | [_ H]]; [exfalso; exact (L s H) | lia].
  - split; [left; reflexivity|].
    split; [split; [intros H; exfalso; exact (L s (eq_sym H)) |
                    intros H; apply C in H; discriminate]|].
    split; [reflexivity|].
    split.
    + intros H. left. split; [reflexivity | exact H].
    + intros [[_ H] | [H _]]; [exact H | exfalso; exact (L s (eq_sym H))].
Qed.

(** C4, as stated, fails on the string "}{": its two counts are equal, the
    reconciler alters it all the same, and the counts differ afterwards. *)
Lemma reconciler_unbalances_balanced_input :
  count "{" (py "}{") = count "}" (py "}{")
  /\ Reconciler.insert_missing_repeat_brackets (py "}{") = py "{}{"
  /\ count "{" (Reconciler.insert_missing_repeat_brackets (py "}{"))
     <> count "}" (Reconciler.insert_missing_repeat_brackets (py "}{")).
Proof. repeat split. vm_compute. discriminate. Qed.

(** ** The coda and segno resolver *)

Lemma not_in_app (c : ascii) (a b : str) :
  ~ In c (a ++ b) <-> ~ In c a /\ ~ In c b.
Proof. rewrite in_app_iff. tauto. Qed.

Lemma not_in_cons (c d : ascii) (s : str) :
  ~ In c (d :: s) <-> d <> c /\ ~ In c s.
Proof. simpl. tauto. Qed.

Lemma positions_from_none (i : nat) (c : ascii) (s : str) :
  ~ In c s -> positions_from i c s = [].
Proof.
  revert i. induction s as [|d s IH]; intros i H; simpl; [reflexivity|].
  apply not_in_cons in H. destruct H as [H1 H2].
  apply chr_eqb_neq in H1. rewrite H1. apply IH. exact H2.
Qed.

Lemma positions_from_split (i : nat) (c : ascii) (a b : str) :
  ~ In c a ->
  positions_from i c (a ++ c :: b)
  = (i + length a) :: positions_from (S (i + length a)) c b.
Proof.
  revert i. induction a as [|d a IH]; intros i H; simpl.
  - rewrite chr_eqb_refl, Nat.add_0_r. reflexivity.
  - apply not_in_cons in H. destruct H as [H1 H2].
    apply chr_eqb_neq in H1. rewrite H1, IH by exact H2.
    rewrite !Nat.add_succ_r. reflexivity.
Qed.

Lemma remove_char_absent (c : ascii) (s : str) :
  ~ In c s -> remove_char c s = s.
Proof.
  induction s as [|d s IH]; intros H; simpl; [reflexivity|].
  apply not_in_cons in H. destruct H as [H1 H2].
  apply chr_eqb_neq in H1. rewrite H1. simpl. f_equal. apply IH. exact H2.
Qed.

Lemma remove_char_app (c : ascii) (a b : str) :
  remove_char c (a ++ b) = remove_char c a ++ remove_char c b.
Proof. apply filter_app. Qed.

Lemma slice_to_app (a b : str) : slice_to (length a) (a ++ b) = a.
Proof.
  unfold slice_to. rewrite firstn_app, Nat.sub_diag, firstn_all.
  simpl. apply app_nil_r.
Qed.

Lemma slice_from_app (a b : str) : slice_from (length a) (a ++ b) = b.
Proof.
  unfold slice_from. rewrite skipn_app, Nat.sub_diag, skipn_all.
  reflexivity.
Qed.

Lemma slice_app (u v w : str) :
  slice (length u) (length u + length v) (u ++ v ++ w) = v.
Proof.
  unfold slice. replace (length u + length v - length u) with (length v) by lia.
  change (skipn (length u) (u ++ v ++ w)) with (slice_from (length u) (u ++ v ++ w)).
  rewrite slice_from_app. apply slice_to_app.
Qed.

Lemma slice_empty (a b : nat) (s : str) : b <= a -> slice a b s = [].
Proof.
  intros H. unfold slice. replace (b - a) with 0 by lia. reflexivity.
Qed.

Section CodaFacts.

Import Codas.

(** The span the resolver repeats, for a string [a ++ rest] whose first coda
    mark stands right after [a]. *)
Lemma segno_span_slice_gen (a s rep : str) :
  segno_span a s rep ->
  forall rest, s = a ++ rest ->
  (let segno := find "S" s in
   let segno := if (segno =? -1)%Z then 0 else Z.to_nat (segno + 1) in
   slice segno (length a) s) = rep.
Proof.
  intros H. destruct H as [a s Hn | u v s Hu | a s Hn Hi];
    intros rest ->; cbv zeta.
  - assert (F : find "S" (a ++ rest) = (-1)%Z) by (apply find_none; assumption).
    rewrite F. simpl.
    unfold slice. rewrite Nat.sub_0_r. simpl. apply slice_to_app.
  - rewrite <- app_assoc. simpl.
    rewrite find_split by assumption.
    destruct (Z.of_nat (length u) =? -1)%Z eqn:E; [apply Z.eqb_eq in E; lia|].
    replace (Z.to_nat (Z.of_nat (length u) + 1)) with (length (u ++ ["S"]))
      by (rewrite length_app; simpl; lia).
    replace (length (u ++ "S" :: v)) with (length (u ++ ["S"]) + length v)
      by (rewrite !length_app; simpl; lia).
    replace (u ++ "S" :: v ++ rest) with ((u ++ ["S"]) ++ v ++ rest)
      by (rewrite <- app_assoc; reflexivity).
    apply slice_app.
  - apply in_app_iff in Hi. destruct Hi as [Hi | Hi]; [contradiction|].
    apply in_split_first in Hi. destruct Hi as (u & v & -> & Hu).
    replace (a ++ u ++ "S" :: v) with ((a ++ u) ++ "S" :: v)
      by (rewrite <- app_assoc; reflexivity).
    rewrite find_split by (apply not_in_app; split; assumption).
    destruct (Z.of_nat (length (a ++ u)) =? -1)%Z eqn:E;
      [apply Z.eqb_eq in E; lia|].
    apply slice_empty. rewrite length_app. lia.
Qed.

Lemma segno_span_slice (a rest rep : str) :
  segno_span a (a ++ rest) rep ->
  (let segno := find "S" (a ++ rest) in
   let segno := if (segno =? -1)%Z then 0 else Z.to_nat (segno + 1) in
   slice segno (length a) (a ++ rest)) = rep.
Proof. intros H. exact (segno_span_slice_gen _ _ _ H rest eq_refl). Qed.

Lemma segno_span_total (a rest : str) :
  exists rep, segno_span a (a ++ rest) rep.
Proof.
  destruct (in_dec ascii_dec "S" (a ++ rest)) as [H | H].
  - destruct (in_dec ascii_dec "S" a) as [Ha | Ha].
    + apply in_split_first in Ha. destruct Ha as (u & v & -> & Hu).
      exists v. apply span_segno. exact Hu.
    + exists []. apply span_late; assumption.
  - exists a. apply span_head. exact H.
Qed.

Lemma count_absent (c : ascii) (s : str) : ~ In c s -> count c s = 0.
Proof. apply count_zero. Qed.

Lemma count_positive_split (c : ascii) (s : str) :
  0 < count c s -> exists a b, s = a ++ c :: b /\ ~ In c a.
Proof.
  intros H. apply in_split_first.
  destruct (in_dec ascii_dec c s) as [Hi | Hi]; [exact Hi|].
  apply count_zero in Hi. lia.
Qed.

Lemma count_split (c : ascii) (a b : str) :
  count c (a ++ c :: b) = S (count c a + count c b).
Proof. rewrite count_app. simpl. rewrite chr_eqb_refl. lia. Qed.

(** The resolver does what the specification says. *)
Lemma unmarked_remove_QS (s : str) : unmarked s (remove_QS s).
Proof.
  induction s as [|c s IH]; [constructor|]. unfold remove_QS. cbn [filter].
  destruct (chr_eqb c "Q") eqn:Q.
  - apply chr_eqb_eq in Q. subst c. apply unmarked_coda. exact IH.
  - destruct (chr_eqb c "S") eqn:S.
    + apply chr_eqb_eq in S. subst c. apply unmarked_segno. exact IH.
    + apply chr_eqb_neq in Q. apply chr_eqb_neq in S.
      apply unmarked_keep; assumption.
Qed.

(** Removing the marks has one result. *)
Lemma unmarked_unique (s t : str) : unmarked s t -> t = remove_QS s.
Proof.
  induction 1 as [|s t H IH|s t H IH|c s t Q S H IH]; [reflexivity| | |].
  - exact IH.
  - exact IH.
  - unfold remove_QS. cbn [filter].
    apply chr_eqb_neq in Q. apply chr_eqb_neq in S. rewrite Q, S.
    cbn [orb negb]. f_equal. exact IH.
Qed.

Lemma fill_codas_sound (s : str) (r : result str) :
  coda_spec s r -> fill_codas s = r.
Proof.
  intros H. unfold fill_codas. inversion H; subst; clear H;
    try match goal with
        | U : unmarked _ _ |- _ => apply unmarked_unique in U; subst
        end.
  - rewrite (count_absent _ _ H0). reflexivity.
  - rewrite count_split, (count_absent _ _ H0), (count_absent _ _ H1).
    simpl. rewrite remove_char_app.
    change (remove_char "Q" ("Q" :: b)) with (remove_char "Q" b).
    rewrite !remove_char_absent by assumption. reflexivity.
  - rewrite count_split, count_split, (count_absent _ _ H0),
      (count_absent _ _ H1), (count_absent _ _ H2).
    simpl. unfold positions.
    rewrite positions_from_split by assumption.
    rewrite positions_from_split by assumption.
    rewrite positions_from_none by assumption.
    cbv zeta. f_equal. f_equal.
    pose proof (segno_span_slice a ("Q" :: b ++ "Q" :: c) rep H3) as Hs.
    cbv zeta in Hs. simpl Nat.add. rewrite Hs. clear Hs.
    replace (S (length a + length b)) with (length (a ++ "Q" :: b))
      by (rewrite length_app; simpl; lia).
    replace (a ++ "Q" :: b ++ "Q" :: c) with ((a ++ "Q" :: b) ++ "Q" :: c)
      by (rewrite <- app_assoc; reflexivity).
    rewrite slice_to_app.
    replace ((a ++ "Q" :: b) ++ "Q" :: c) with (((a ++ "Q" :: b) ++ ["Q"]) ++ c)
      by (rewrite <- (app_assoc _ ["Q"]); reflexivity).
    replace (S (length a + length b + 1))
      with (length ((a ++ "Q" :: b) ++ ["Q"]))
      by (rewrite !length_app; simpl; lia).
    rewrite slice_from_app. reflexivity.
  - apply Nat.ltb_lt in H0. rewrite H0. reflexivity.
Qed.

(** The specification covers every string. *)
Lemma coda_spec_total (s : str) : exists r, coda_spec s r.
Proof.
  destruct (Nat.eq_dec (count "Q" s) 0) as [E0 | E0].
  { exists (Ok s). apply coda_none, count_zero, E0. }
  destruct (count_positive_split "Q" s) as (a & s1 & -> & Ha); [lia|].
  destruct (Nat.eq_dec (count "Q" s1) 0) as [E1 | E1].
  { exists (Ok (a ++ s1)). apply coda_outro; [exact Ha | apply count_zero, E1]. }
  destruct (count_positive_split "Q" s1) as (b & s2 & -> & Hb); [lia|].
  destruct (Nat.eq_dec (count "Q" s2) 0) as [E2 | E2].
  { destruct (segno_span_total a ("Q" :: b ++ "Q" :: s2)) as (rep & Hr).
    eexists. apply (coda_jump a b s2 rep); eauto;
      [apply count_zero, E2 | apply unmarked_remove_QS]. }
  exists (Raise RuntimeError). apply coda_many.
  rewrite !count_split. lia.
Qed.

End CodaFacts.

(** C3.  [_fill_codas] does exactly what the case analysis on the number of
    coda marks says: without a mark the string comes back as it is; with one
    mark, without that mark; with two marks, as the text up to the second
    mark, then the text from just after the first segno mark (from the start
    without one) up to the first coda mark, then a bar separator, then the
    text after the second mark, all of it without coda and segno marks; with
    more than two marks it raises.  What "without coda and segno marks"
    means is said by [unmarked], apart from the code. *)
Theorem fill_codas_cases (s : str) (r : result str) :
  Codas.fill_codas s = r <-> Codas.coda_spec s r.
Proof.
  split.
  - intros <-. destruct (coda_spec_total s) as (r & H).
    rewrite (fill_codas_sound s r H). exact H.
  - apply fill_codas_sound.
Qed.

(** ** Deleting characters *)

Lemma subseq_refl (a : str) : subseq a a.
Proof. induction a; constructor; assumption. Qed.

Lemma subseq_nil_l (a : str) : subseq [] a.
Proof. induction a; constructor; assumption. Qed.

Lemma subseq_in (a b : str) (c : ascii) : subseq a b -> In c a -> In c b.
Proof.
  induction 1 as [|d a b H IH|d a b H IH]; simpl; intros Hi.
  - exact Hi.
  - right. exact (IH Hi).
  - destruct Hi as [Hi | Hi]; [left; exact Hi | right; exact (IH Hi)].
Qed.

Lemma subseq_length (a b : str) : subseq a b -> length a <= length b.
Proof. induction 1; simpl; lia. Qed.

Lemma subseq_filter (f : ascii -> bool) (s : str) : subseq (filter f s) s.
Proof.
  induction s as [|c s IH]; simpl; [constructor|].
  destruct (f c); constructor; exact IH.
Qed.

Lemma strip_coda_segno_deletes : only_deletes strip_coda_segno.
Proof. intros y. apply subseq_filter. Qed.

Lemma subseq_single (a : str) (c : ascii) : subseq a [c] -> a = [] \/ a = [c].
Proof.
  intros H. inversion H as [|d a' b' H1|d a' b' H1]; subst.
  - inversion H1; subst. left. reflexivity.
  - inversion H1; subst. right. reflexivity.
Qed.

(** ** Lists indexed the Python way *)

Lemma py_index_nat {A : Type} (l : list A) (j : nat) :
  j < length l -> py_index l (Z.of_nat j) = Ok j.
Proof.
  intros H. unfold py_index.
  destruct (Z.of_nat j <? 0)%Z eqn:E; [apply Z.ltb_lt in E; lia|].
  replace ((0 <=? Z.of_nat j) && (Z.of_nat j <? Z.of_nat (length l)))%Z with true.
  - rewrite Nat2Z.id. reflexivity.
  - symmetry. apply andb_true_iff. split; [apply Z.leb_le | apply Z.ltb_lt]; lia.
Qed.

Lemma py_index_last {A : Type} (l : list A) :
  0 < length l -> py_index l (-1) = Ok (length l - 1).
Proof.
  intros H. unfold py_index.
  change (-1 <? 0)%Z with true. cbv iota.
  assert (E : ((0 <=? -1 + Z.of_nat (length l))
               && (-1 + Z.of_nat (length l) <? Z.of_nat (length l)))%Z = true).
  { apply andb_true_iff. split; [apply Z.leb_le | apply Z.ltb_lt]; lia. }
  rewrite E. f_equal. lia.
Qed.

Lemma py_get_nat (l : list str) (j : nat) :
  j < length l -> py_get l (Z.of_nat j) = Ok (nth j l []).
Proof. intros H. unfold py_get. rewrite py_index_nat by exact H. reflexivity. Qed.

Lemma py_set_nat (l : list str) (j : nat) (v : str) :
  j < length l -> py_set l (Z.of_nat j) v = Ok (update l j v).
Proof. intros H. unfold py_set. rewrite py_index_nat by exact H. reflexivity. Qed.

Lemma update_length (l : list str) (j : nat) (v : str) :
  length (update l j v) = length l.
Proof.
  revert j. induction l as [|x l IH]; intros [|j]; simpl; try reflexivity.
  rewrite IH. reflexivity.
Qed.

Lemma nth_update_same (l : list str) (j : nat) (v : str) :
  j < length l -> nth j (update l j v) [] = v.
Proof.
  revert j. induction l as [|x l IH]; intros [|j]; simpl; try lia.
  - reflexivity.
  - intros H. apply IH. lia.
Qed.

Lemma nth_update_other (l : list str) (i j : nat) (v : str) :
  i <> j -> nth j (update l i v) [] = nth j l [].
Proof.
  revert i j. induction l as [|x l IH]; intros [|i] [|j] H; simpl;
    try reflexivity; try lia.
  apply IH. lia.
Qed.

Lemma in_update (l : list str) (j : nat) (v y : str) :
  In y (update l j v) -> y = v \/ In y l.
Proof.
  revert j. induction l as [|x l IH]; intros [|j]; simpl; try tauto.
  - intros [H | H]; [left; symmetry; exact H | right; right; exact H].
  - intros [H | H]; [right; left; exact H|].
    destruct (IH j H) as [H1 | H1]; [left; exact H1 | right; right; exact H1].
Qed.

Lemma str_eqb_eq (a b : str) : str_eqb a b = true <-> a = b.
Proof.
  revert b. induction a as [|c a IH]; intros [|d b]; simpl;
    try (split; [discriminate | discriminate]); try tauto.
  rewrite andb_true_iff, chr_eqb_eq, IH.
  split; [intros [-> ->]; reflexivity | intros H; inversion H; tauto].
Qed.

Lemma str_eqb_neq (a b : str) : str_eqb a b = false <-> a <> b.
Proof.
  rewrite <- str_eqb_eq. destruct (str_eqb a b); split; congruence.
Qed.

(** ** Single and double measure repeats *)

Lemma py_get_pred (l : list str) (k : nat) :
  1 <= k -> k <= length l -> py_get l (Z.of_nat k - 1) = Ok (nth (k - 1) l []).
Proof.
  intros H1 H2. replace (Z.of_nat k - 1)%Z with (Z.of_nat (k - 1)) by lia.
  apply py_get_nat. lia.
Qed.

Lemma py_get_back2 (l : list str) (k : nat) :
  1 <= k -> k < length l ->
  py_get l (Z.of_nat k - 2) = Ok (nth (back2 k (length l)) l []).
Proof.
  intros H1 H2. unfold back2. destruct (Nat.eqb_spec k 1) as [-> | N].
  - unfold py_get. change (Z.of_nat 1 - 2)%Z with (-1)%Z.
    rewrite py_index_last by lia. reflexivity.
  - replace (Z.of_nat k - 2)%Z with (Z.of_nat (k - 2)) by lia.
    apply py_get_nat. lia.
Qed.

Lemma py_get_succ (l : list str) (k : nat) :
  S k < length l -> py_get l (Z.of_nat k + 1) = Ok (nth (S k) l []).
Proof.
  intros H. replace (Z.of_nat k + 1)%Z with (Z.of_nat (S k)) by lia.
  apply py_get_nat. exact H.
Qed.

Lemma py_set_succ (l : list str) (k : nat) (v : str) :
  S k < length l -> py_set l (Z.of_nat k + 1) v = Ok (update l (S k) v).
Proof.
  intros H. replace (Z.of_nat k + 1)%Z with (Z.of_nat (S k)) by lia.
  apply py_set_nat. exact H.
Qed.

Lemma back2_lt (k n : nat) : 1 <= k -> k < n -> back2 k n < n.
Proof. intros H1 H2. unfold back2. destruct (k =? 1); lia. Qed.

Ltac nth_upd :=
  repeat first
    [ rewrite nth_update_same by (rewrite ?update_length; lia)
    | rewrite nth_update_other by lia ].

Section MeasureRepeatFacts.

Variable remove_markers : str -> str.
Hypothesis deletes : only_deletes remove_markers.

Lemma piece_remove_markers (y : str) : piece y -> piece (remove_markers y).
Proof.
  pose proof (deletes y) as D.
  intros [-> | [-> | [Hr Hx]]].
  - destruct (subseq_single _ _ D) as [-> | ->].
    + right. right. split; simpl; tauto.
    + left. reflexivity.
  - destruct (subseq_single _ _ D) as [-> | ->].
    + right. right. split; simpl; tauto.
    + right. left. reflexivity.
  - right. right. split; intros H; [apply Hr | apply Hx];
      exact (subseq_in _ _ _ D H).
Qed.

Lemma remove_markers_double (y : str) :
  piece y -> remove_markers y = py "r" -> y = py "r".
Proof.
  intros P E. assert (H : In "r" y).
  { apply (subseq_in _ _ _ (deletes y)). rewrite E. left. reflexivity. }
  destruct P as [-> | [-> | [Hr _]]]; [reflexivity | | contradiction].
  simpl in H. destruct H as [H | []]. discriminate.
Qed.

Lemma remove_markers_single (y : str) :
  piece y -> remove_markers y = py "x" -> y = py "x".
Proof.
  intros P E. assert (H : In "x" y).
  { apply (subseq_in _ _ _ (deletes y)). rewrite E. left. reflexivity. }
  destruct P as [-> | [-> | [_ Hx]]]; [ | reflexivity | contradiction].
  simpl in H. destruct H as [H | []]. discriminate.
Qed.

Lemma piece_nth (l : list str) (j : nat) :
  (forall y, In y l -> piece y) -> piece (nth j l []).
Proof.
  intros H. destruct (Nat.lt_ge_cases j (length l)) as [L | L].
  - apply H, nth_In, L.
  - rewrite nth_overflow by exact L. right. right. split; simpl; tauto.
Qed.

Lemma slotted_not_blank (nm : list str) (j : nat) :
  slotted nm -> nth j nm [] = py "r" -> nth (S j) nm [] <> py "r"
  /\ nth (S j) nm [] <> py "x".
Proof.
  intros S H. destruct (S j H) as [_ B].
  split; intros E; rewrite E in B; discriminate.
Qed.

(** One round of the third loop keeps its invariant and raises nothing. *)
Lemma infill_step (nm : list str) (k : nat) (cur : list str) :
  slotted nm -> infill_inv nm k cur -> 1 <= k -> k < length nm ->
  exists cur',
    infill_at remove_markers cur (Z.of_nat k) = Ok cur'
    /\ infill_inv nm (S k) cur'
    /\ (nth k cur [] = py "x" ->
        cur' = update cur k (remove_markers (nth (k - 1) cur [])))
    /\ (nth k cur [] = py "r" ->
        cur' = update
                 (update cur k
                    (remove_markers (nth (back2 k (length nm)) cur [])))
                 (S k) (remove_markers (nth (k - 1) cur [])))
    /\ (nth k cur [] <> py "x" -> nth k cur [] <> py "r" -> cur' = cur).
Proof.
  intros Sl [Ilen Iahead Ihere Idouble Ipair Ipieces Isingle] K1 K2.
  unfold infill_at. rewrite py_get_nat by lia. cbn [bind].
  destruct (str_eqb (nth k cur []) (py "x")) eqn:Ex.
  - (* single repeat *)
    apply str_eqb_eq in Ex.
    rewrite py_get_pred by lia. cbn [bind]. rewrite py_set_nat by lia.
    set (v := remove_markers (nth (k - 1) cur [])).
    assert (Pv : piece (nth (k - 1) cur [])) by (apply piece_nth; exact Ipieces).
    assert (Vr : v <> py "r").
    { intros E. apply remove_markers_double in E; [|exact Pv].
      apply (Ipair (k - 1) E). replace (S (k - 1)) with k by lia. exact Ex. }
    eexists. split; [reflexivity|]. split; [|split; [|split]].
    + constructor.
      * rewrite update_length. exact Ilen.
      * intros j Hj. nth_upd. apply Iahead. lia.
      * intros H. exfalso. apply H. nth_upd. apply Iahead. lia.
      * intros j H. destruct (Nat.eq_dec j k) as [-> | N].
        -- revert H. nth_upd. intros H. contradiction.
        -- revert H. nth_upd. apply Idouble.
      * intros j H. destruct (Nat.eq_dec j k) as [-> | N].
        -- revert H. nth_upd. intros H. contradiction.
        -- revert H. nth_upd. intros H.
           destruct (Nat.eq_dec (S j) k) as [E | N'].
           ++ rewrite E. nth_upd. fold v. intros Hx.
              apply remove_markers_single in Hx; [|exact Pv].
              replace (k - 1) with j in Hx by lia. rewrite H in Hx. discriminate.
           ++ nth_upd. apply Ipair. exact H.
      * intros y H. apply in_update in H. destruct H as [-> | H].
        -- apply piece_remove_markers. exact Pv.
        -- apply Ipieces. exact H.
      * intros j J1 J2. destruct (Nat.eq_dec j k) as [-> | N].
        -- nth_upd. fold v. intros Hx. left.
           apply remove_markers_single; assumption.
        -- nth_upd. apply Isingle; lia.
    + intros _. reflexivity.
    + intros H. rewrite H in Ex. discriminate.
    + intros H. contradiction.
  - apply str_eqb_neq in Ex.
    destruct (str_eqb (nth k cur []) (py "r")) eqn:Er.
    + (* double repeat *)
      apply str_eqb_eq in Er.
      pose proof (Idouble k Er) as Nk.
      destruct (Sl k Nk) as [K3 Bk].
      destruct (slotted_not_blank nm k Sl Nk) as [_ _].
      rewrite py_get_back2 by lia. cbn [bind]. rewrite py_set_nat by lia.
      cbn [bind]. rewrite py_get_succ by (rewrite update_length; lia).
      cbn [bind]. nth_upd. rewrite (Iahead (S k)) by lia. rewrite Bk.
      rewrite py_get_pred by (rewrite ?update_length; lia). cbn [bind].
      nth_upd. rewrite py_set_succ by (rewrite update_length; lia).
      rewrite Ilen.
      set (v2 := remove_markers (nth (back2 k (length nm)) cur [])).
      set (v1 := remove_markers (nth (k - 1) cur [])).
      assert (P1 : piece (nth (k - 1) cur [])) by (apply piece_nth; exact Ipieces).
      assert (P2 : piece (nth (back2 k (length nm)) cur []))
        by (apply piece_nth; exact Ipieces).
      assert (V1 : v1 <> py "r").
      { intros E. apply remove_markers_double in E; [|exact P1].
        apply Idouble in E.
        destruct (slotted_not_blank nm (k - 1) Sl E) as [H _].
        apply H. replace (S (k - 1)) with k by lia. exact Nk. }
      assert (V21 : v2 = py "r" -> v1 <> py "x").
      { intros E2 E1.
        apply remove_markers_double in E2; [|exact P2].
        apply remove_markers_single in E1; [|exact P1].
        unfold back2 in E2. destruct (Nat.eqb_spec k 1) as [-> | N].
        - apply Idouble in E2. destruct (Sl _ E2) as [H _]. lia.
        - apply (Ipair (k - 2) E2). replace (S (k - 2)) with (k - 1) by lia.
          exact E1. }
      eexists. split; [reflexivity|]. split; [|split; [|split]].
      * constructor.
        -- rewrite !update_length. exact Ilen.
        -- intros j Hj. nth_upd. apply Iahead. lia.
        -- intros _. replace (S k - 1) with k by lia. exact Nk.
        -- intros j H. destruct (Nat.eq_dec j (S k)) as [-> | N1].
           ++ revert H. nth_upd. fold v1. intros H. contradiction.
           ++ destruct (Nat.eq_dec j k) as [-> | N2]; [exact Nk|].
              revert H. nth_upd. apply Idouble.
        -- intros j H. destruct (Nat.eq_dec j (S k)) as [-> | N1].
           ++ revert H. nth_upd. fold v1. intros H. contradiction.
           ++ destruct (Nat.eq_dec j k) as [-> | N2].
              ** revert H. nth_upd. fold v1 v2. exact V21.
              ** revert H. nth_upd. intros H.
                 destruct (Nat.eq_dec (S j) k) as [E | N3].
                 --- exfalso. apply Idouble in H.
                     destruct (slotted_not_blank nm j Sl H) as [H' _].
                     apply H'. rewrite E. exact Nk.
                 --- nth_upd. apply Ipair. exact H.
        -- intros y H. apply in_update in H. destruct H as [-> | H].
           ++ apply piece_remove_markers. exact P1.
           ++ apply in_update in H. destruct H as [-> | H].
              ** apply piece_remove_markers. exact P2.
              ** apply Ipieces. exact H.
        -- intros j J1 J2. destruct (Nat.eq_dec j k) as [-> | N].
           ++ intros _. right. exact Nk.
           ++ nth_upd. apply Isingle; lia.
      * intros H. contradiction.
      * intros _. reflexivity.
      * intros _ H. contradiction.
    + (* any other measure *)
      apply str_eqb_neq in Er.
      eexists. split; [reflexivity|]. split; [|split; [|split]].
      * constructor.
        -- exact Ilen.
        -- intros j Hj. apply Iahead. lia.
        -- intros H. exfalso. apply H. apply Iahead. lia.
        -- exact Idouble.
        -- exact Ipair.
        -- exact Ipieces.
        -- intros j J1 J2 H. destruct (Nat.eq_dec j k) as [-> | N].
           ++ contradiction.
           ++ apply Isingle; [lia | lia | exact H].
      * intros H. contradiction.
      * intros H. contradiction.
      * intros _ _. reflexivity.
Qed.

End MeasureRepeatFacts.

(** What the first two loops produce. *)

Lemma lstrip_in (s : str) (c : ascii) : In c (lstrip s) -> In c s.
Proof.
  induction s as [|d s IH]; simpl; [tauto|].
  destruct (is_space d); [intros H; right; exact (IH H) | tauto].
Qed.

Lemma strip_in (s : str) (c : ascii) : In c (strip s) -> In c s.
Proof.
  unfold strip, rstrip. intros H.
  apply in_rev, lstrip_in, in_rev in H. apply lstrip_in. exact H.
Qed.

Lemma split_rx_free (cur s y : str) (c : ascii) :
  (forall d, In d cur -> is_rx d = false) ->
  In y (split_rx cur s) -> In c y -> is_rx c = false.
Proof.
  revert cur. induction s as [|d s IH]; intros cur Hc; simpl.
  - intros [<- | []]. apply Hc.
  - destruct (is_rx d) eqn:E.
    + intros [<- | H]; [apply Hc|]. apply (IH []); [|exact H].
      intros ? [].
    + apply IH. intros e He. apply in_app_iff in He.
      destruct He as [He | [<- | []]]; [apply Hc; exact He | exact E].
Qed.

Lemma is_rx_cases (c : ascii) : is_rx c = true -> c = "r" \/ c = "x".
Proof.
  unfold is_rx. intros H. apply orb_true_iff in H.
  destruct H as [H | H]; apply chr_eqb_eq in H; tauto.
Qed.

Lemma not_rx_free (y : str) :
  (forall c, In c y -> is_rx c = false) -> marker_free y.
Proof. intros H. split; intros Hi; apply H in Hi; discriminate. Qed.

Lemma marker_free_strip (y : str) : marker_free y -> marker_free (strip y).
Proof.
  intros [Hr Hx]. split; intros H; [apply Hr | apply Hx];
    apply strip_in; exact H.
Qed.

Lemma measures_xt_pieces (measure y : str) :
  In y (measures_xt measure) -> piece y.
Proof.
  unfold measures_xt. intros H.
  apply in_map_iff in H. destruct H as (v & <- & H).
  apply filter_In in H. destruct H as [H _].
  apply in_flat_map in H. destruct H as ([a b] & Hab & Hv).
  simpl in Hv. destruct Hv as [<- | [<- | []]].
  - apply in_combine_l in Hab. right. right.
    apply marker_free_strip, not_rx_free. intros c.
    apply (split_rx_free [] measure a c); [intros ? [] | exact Hab].
  - apply in_combine_r in Hab. apply in_app_iff in Hab.
    destruct Hab as [Hb | [<- | []]].
    + unfold findall_rx in Hb. apply in_map_iff in Hb.
      destruct Hb as (c & <- & Hc). apply filter_In in Hc.
      destruct Hc as [_ Hc]. apply is_rx_cases in Hc.
      destruct Hc as [-> | ->]; [left | right; left]; reflexivity.
    + right. right. split; simpl; tauto.
Qed.

Lemma add_slots_pieces (pre : list str) (y : str) :
  (forall z, In z pre -> piece z) -> In y (add_slots pre) -> piece y.
Proof.
  assert (Sp : piece (py " ")).
  { right. right. split; simpl; intuition discriminate. }
  induction pre as [|m rest IH]; [simpl; tauto|].
  cbn [add_slots]. intros Hp.
  assert (Hr : forall z, In z rest -> piece z)
    by (intros z Hz; apply Hp; right; exact Hz).
  destruct (str_eqb m (py "r")); intros H; apply in_inv in H;
    (destruct H as [<- | H]; [apply Hp; left; reflexivity|]).
  - apply in_app_iff in H. destruct H as [H | H]; [|exact (IH Hr H)].
    destruct rest as [|next rest'].
    + apply in_inv in H. destruct H as [<- | []]. exact Sp.
    + destruct (is_blank next); cbn [negb] in H; [destruct H|].
      apply in_inv in H. destruct H as [<- | []]. exact Sp.
  - exact (IH Hr H).
Qed.

Lemma new_measures_pieces (measures : list str) (y : str) :
  In y (add_slots (pre_measures measures)) -> piece y.
Proof.
  apply add_slots_pieces. intros z Hz. unfold pre_measures in Hz.
  apply in_flat_map in Hz. destruct Hz as (m & _ & Hz).
  exact (measures_xt_pieces m z Hz).
Qed.

Lemma add_slots_slotted (pre : list str) : slotted (add_slots pre).
Proof.
  unfold slotted. induction pre as [|m rest IH]; intros j.
  - destruct j; simpl; discriminate.
  - cbn [add_slots]. destruct (str_eqb m (py "r")) eqn:E.
    + apply str_eqb_eq in E. subst m. destruct rest as [|next rest'].
      * destruct j as [|[|[|j]]]; cbn; intros H; try discriminate.
        split; [lia | reflexivity].
      * destruct (is_blank next) eqn:B; cbn [negb app].
        -- destruct j as [|j]; cbn [nth].
           ++ intros _. cbn [add_slots length nth].
              destruct (str_eqb next (py "r")); cbn [length nth];
                (split; [lia | exact B]).
           ++ intros H. destruct (IH j H) as [L Bl].
              split; [cbn [length]; lia | exact Bl].
        -- destruct j as [|[|j]]; cbn [nth].
           ++ intros _. split; [cbn [length]; lia | reflexivity].
           ++ discriminate.
           ++ intros H. destruct (IH j H) as [L Bl].
              split; [cbn [length]; lia | exact Bl].
    + destruct j as [|j]; cbn [nth].
      * intros H. apply str_eqb_neq in E. contradiction.
      * intros H. destruct (IH j H) as [L Bl].
        split; [cbn [length]; lia | exact Bl].
Qed.

Lemma infill_inv_start (nm : list str) :
  slotted nm -> (forall y, In y nm -> piece y) -> infill_inv nm 1 nm.
Proof.
  intros Sl Hp. constructor.
  - reflexivity.
  - reflexivity.
  - intros H. contradiction.
  - tauto.
  - intros j H. destruct (Sl j H) as [_ B]. intros E. rewrite E in B.
    discriminate.
  - exact Hp.
  - intros j J1 J2. lia.
Qed.

(** The loop, round by round. *)

Lemma infill_loop_split (rm : str -> str) (a b : nat) (i : Z) (l : list str) :
  infill_loop rm (a + b) i l
  = (l' <- infill_loop rm a i l ;; infill_loop rm b (i + Z.of_nat a)%Z l').
Proof.
  revert i l. induction a as [|a IH]; intros i l.
  - simpl. rewrite Z.add_0_r. reflexivity.
  - cbn [Nat.add infill_loop]. destruct (infill_at rm l i) as [l1 | e]; cbn [bind].
    + rewrite IH. replace (i + 1 + Z.of_nat a)%Z with (i + Z.of_nat (S a))%Z by lia.
      reflexivity.
    + reflexivity.
Qed.

Lemma py_set_inv (l l' : list str) (i : Z) (v : str) :
  py_set l i v = Ok l' -> (0 <= i)%Z -> l' = update l (Z.to_nat i) v.
Proof.
  unfold py_set, py_index. intros H Hi.
  destruct (i <? 0)%Z eqn:E; [apply Z.ltb_lt in E; lia|].
  destruct ((0 <=? i) && (i <? Z.of_nat (length l)))%Z; cbn [bind] in H;
    [|discriminate].
  injection H as <-. reflexivity.
Qed.

Lemma infill_at_stable (rm : str -> str) (cur cur' : list str) (k : nat) :
  infill_at rm cur (Z.of_nat k) = Ok cur' ->
  length cur' = length cur /\ forall j, j < k -> nth j cur' [] = nth j cur [].
Proof.
  unfold infill_at. intros H.
  destruct (py_get cur (Z.of_nat k)) as [c | e]; cbn [bind] in H; [|discriminate].
  destruct (str_eqb c (py "x")).
  - destruct (py_get cur (Z.of_nat k - 1)) as [p | e]; cbn [bind] in H;
      [|discriminate].
    apply py_set_inv in H; [|lia]. subst cur'. rewrite Nat2Z.id.
    split; [apply update_length|]. intros j Hj. nth_upd. reflexivity.
  - destruct (str_eqb c (py "r")).
    + destruct (py_get cur (Z.of_nat k - 2)) as [p | e]; cbn [bind] in H;
        [|discriminate].
      destruct (py_set cur (Z.of_nat k) (rm p)) as [c1 | e] eqn:E1;
        cbn [bind] in H; [|discriminate].
      apply py_set_inv in E1; [|lia]. rewrite Nat2Z.id in E1.
      destruct (py_get c1 (Z.of_nat k + 1)) as [a | e]; cbn [bind] in H;
        [|discriminate].
      destruct (is_blank a); [|discriminate].
      destruct (py_get c1 (Z.of_nat k - 1)) as [q | e]; cbn [bind] in H;
        [|discriminate].
      apply py_set_inv in H; [|lia].
      replace (Z.to_nat (Z.of_nat k + 1)) with (S k) in H by lia.
      subst cur' c1. split; [rewrite !update_length; reflexivity|].
      intros j Hj. nth_upd. reflexivity.
    + injection H as <-. split; reflexivity.
Qed.

Lemma infill_loop_stable (rm : str -> str) (n k : nat) (cur out : list str) :
  infill_loop rm n (Z.of_nat k) cur = Ok out ->
  length out = length cur /\ forall j, j < k -> nth j out [] = nth j cur [].
Proof.
  revert k cur. induction n as [|n IH]; intros k cur; cbn [infill_loop].
  - intros H. injection H as <-. split; reflexivity.
  - destruct (infill_at rm cur (Z.of_nat k)) as [c1 | e] eqn:E; cbn [bind];
      [|discriminate].
    replace (Z.of_nat k + 1)%Z with (Z.of_nat (S k)) by lia. intros H.
    apply IH in H. destruct H as [L H].
    apply infill_at_stable in E. destruct E as [L1 H1].
    split; [congruence|]. intros j Hj. rewrite H by lia. apply H1. exact Hj.
Qed.

Section MeasureRepeatLoop.

Variable remove_markers : str -> str.
Hypothesis deletes : only_deletes remove_markers.

Variable nm : list str.
Hypothesis nm_slotted : slotted nm.
Hypothesis nm_pieces : forall y, In y nm -> piece y.

(** The state in which the loop reaches index [k]. *)
Lemma infill_reach (k : nat) :
  1 <= k -> k <= length nm ->
  exists cur, infill_loop remove_markers (k - 1) 1%Z nm = Ok cur
              /\ infill_inv nm k cur.
Proof.
  induction k as [|k IH]; [lia|]. intros _ K.
  destruct (Nat.eq_dec k 0) as [-> | N].
  - exists nm. split; [reflexivity|]. apply infill_inv_start; assumption.
  - destruct IH as (cur & Hl & Hi); [lia | lia|].
    destruct (infill_step remove_markers deletes nm k cur nm_slotted Hi)
      as (cur' & Hs & Hi' & _); [lia | lia|].
    exists cur'. split; [|exact Hi'].
    replace (S k - 1) with ((k - 1) + 1) by lia.
    rewrite infill_loop_split, Hl. cbn [bind infill_loop].
    replace (1 + Z.of_nat (k - 1))%Z with (Z.of_nat k) by lia.
    rewrite Hs. reflexivity.
Qed.

(** The loop runs to its end without raising. *)
Lemma infill_total :
  exists out, infill_loop remove_markers (length nm - 1) 1%Z nm = Ok out
              /\ length out = length nm.
Proof.
  destruct (Nat.eq_dec (length nm) 0) as [E | N].
  - rewrite E. exists nm. split; [reflexivity | exact E].
  - destruct (infill_reach (length nm)) as (cur & Hl & Hi); [lia | lia|].
    exists cur. split; [exact Hl | apply (inv_length _ _ _ Hi)].
Qed.

(** What the loop has done at index [i] when it ends. *)
Lemma infill_from (i : nat) (out : list str) :
  infill_loop remove_markers (length nm - 1) 1%Z nm = Ok out ->
  1 <= i -> i < length nm ->
  exists cur cur',
    infill_loop remove_markers (i - 1) 1%Z nm = Ok cur
    /\ infill_inv nm i cur
    /\ infill_at remove_markers cur (Z.of_nat i) = Ok cur'
    /\ infill_inv nm (S i) cur'
    /\ infill_loop remove_markers (length nm - S i) (Z.of_nat (S i)) cur' = Ok out
    /\ (forall j, j < i -> nth j out [] = nth j cur [])
    /\ (forall j, j <= i -> nth j out [] = nth j cur' []).
Proof.
  intros Hout I1 I2.
  destruct (infill_reach i) as (cur & Hl & Hi); [lia | lia|].
  destruct (infill_step remove_markers deletes nm i cur nm_slotted Hi)
    as (cur' & Hs & Hi' & _); [lia | lia|].
  exists cur, cur'.
  replace (length nm - 1) with ((i - 1) + S (length nm - S i)) in Hout by lia.
  rewrite infill_loop_split, Hl in Hout. cbn [bind infill_loop] in Hout.
  replace (1 + Z.of_nat (i - 1))%Z with (Z.of_nat i) in Hout by lia.
  rewrite Hs in Hout. cbn [bind] in Hout.
  replace (Z.of_nat i + 1)%Z with (Z.of_nat (S i)) in Hout by lia.
  pose proof (infill_loop_stable _ _ _ _ _ Hout) as [_ St].
  pose proof (infill_at_stable _ _ _ _ Hs) as [_ St1].
  split; [exact Hl|].
  split; [exact Hi|]. split; [exact Hs|]. split; [exact Hi'|].
  split; [exact Hout|]. split.
  - intros j Hj. rewrite St by lia. apply St1. exact Hj.
  - intros j Hj. apply St. lia.
Qed.

End MeasureRepeatLoop.

Lemma str_eq_dec (a b : str) : {a = b} + {a <> b}.
Proof. apply list_eq_dec, ascii_dec. Qed.

Section MeasureRepeatResults.

Variable remove_markers : str -> str.
Hypothesis deletes : only_deletes remove_markers.

Variable nm : list str.
Hypothesis nm_slotted : slotted nm.
Hypothesis nm_pieces : forall y, In y nm -> piece y.

Variable out : list str.
Hypothesis loop_out :
  infill_loop remove_markers (length nm - 1) 1%Z nm = Ok out.

(** A marker of the list the loop starts from is still there when the loop
    reaches it. *)
Lemma infill_marker_kept (i : nat) (cur : list str) (m : str) :
  infill_inv nm i cur -> 1 <= i -> nth i nm [] = m -> is_blank m = false ->
  nth i cur [] = m.
Proof.
  intros Hi I1 Hm Hb. destruct (str_eq_dec (nth i cur []) (nth i nm [])) as [E | N].
  - rewrite E. exact Hm.
  - apply (inv_here _ _ _ Hi) in N. destruct (nm_slotted _ N) as [_ B].
    replace (S (i - 1)) with i in B by lia. rewrite Hm in B. congruence.
Qed.

Lemma infill_single (i : nat) :
  1 <= i -> nth i nm [] = py "x" ->
  nth i out [] = remove_markers (nth (i - 1) out []).
Proof.
  intros I1 Hx.
  assert (I2 : i < length nm).
  { destruct (Nat.lt_ge_cases i (length nm)) as [L | L]; [exact L|].
    rewrite nth_overflow in Hx by exact L. discriminate. }
  destruct (infill_from remove_markers deletes nm nm_slotted nm_pieces i out
              loop_out I1 I2) as (cur & cur' & _ & Hi & Hs & _ & _ & St & St').
  destruct (infill_step remove_markers deletes nm i cur nm_slotted Hi I1 I2)
    as (c2 & Hs2 & _ & Fx & _).
  rewrite Hs in Hs2. injection Hs2 as <-.
  pose proof (infill_marker_kept i cur (py "x") Hi I1 Hx eq_refl) as Hc.
  rewrite St' by lia. rewrite (Fx Hc). rewrite St by lia.
  apply nth_update_same. rewrite (inv_length _ _ _ Hi). exact I2.
Qed.

Lemma infill_double (i : nat) :
  2 <= i -> nth i nm [] = py "r" ->
  nth i out [] = remove_markers (nth (i - 2) out [])
  /\ nth (S i) out [] = remove_markers (nth (i - 1) out []).
Proof.
  intros I1 Hr.
  destruct (nm_slotted i Hr) as [I3 Bl].
  assert (I2 : i < length nm) by lia.
  destruct (infill_from remove_markers deletes nm nm_slotted nm_pieces i out
              loop_out) as (cur & cur' & Hl & Hi & Hs & Hi' & _ & St & St');
    [lia | lia|].
  destruct (infill_step remove_markers deletes nm i cur nm_slotted Hi)
    as (c2 & Hs2 & _ & _ & Fr & _); [lia | lia|].
  rewrite Hs in Hs2. injection Hs2 as <-.
  pose proof (infill_marker_kept i cur (py "r") Hi) as Hc.
  specialize (Hc ltac:(lia) Hr eq_refl). specialize (Fr Hc).
  assert (B2 : back2 i (length nm) = i - 2).
  { unfold back2. destruct (Nat.eqb_spec i 1); [lia | reflexivity]. }
  rewrite B2 in Fr.
  pose proof (inv_length _ _ _ Hi) as Lc.
  set (v2 := remove_markers (nth (i - 2) cur [])) in *.
  set (v1 := remove_markers (nth (i - 1) cur [])) in *.
  assert (E2 : nth i cur' [] = v2) by (rewrite Fr; nth_upd; reflexivity).
  assert (E1 : nth (S i) cur' [] = v1) by (rewrite Fr; nth_upd; reflexivity).
  split.
  - rewrite St' by lia. rewrite E2. unfold v2. rewrite St by lia. reflexivity.
  - rewrite (St (i - 1)) by lia. fold v1.
    (* the round at the slot *)
    destruct (infill_from remove_markers deletes nm nm_slotted nm_pieces (S i)
                out loop_out) as (d & d' & Hl2 & _ & Hs3 & _ & _ & _ & St2);
      [lia | lia|].
    assert (Ed : d = cur').
    { replace (S i - 1) with ((i - 1) + 1) in Hl2 by lia.
      rewrite infill_loop_split, Hl in Hl2. cbn [bind infill_loop] in Hl2.
      replace (1 + Z.of_nat (i - 1))%Z with (Z.of_nat i) in Hl2 by lia.
      rewrite Hs in Hl2. cbn [bind] in Hl2. congruence. }
    subst d.
    destruct (infill_step remove_markers deletes nm (S i) cur' nm_slotted Hi')
      as (c3 & Hs4 & _ & Gx & Gr & Go); [lia | lia|].
    rewrite Hs3 in Hs4. injection Hs4 as <-.
    rewrite St2 by lia.
    destruct (str_eq_dec (nth (S i) cur' []) (py "x")) as [X | NX].
    + pose proof (inv_length _ _ _ Hi') as Lc'.
      rewrite (Gx X). nth_upd. replace (S i - 1) with i by lia.
      rewrite E2. rewrite E1 in X.
      assert (P1 : piece (nth (i - 1) cur []))
        by (apply piece_nth, (inv_pieces _ _ _ Hi)).
      pose proof (remove_markers_single _ deletes _ P1 X) as C1.
      assert (RX : remove_markers (py "x") = py "x").
      { unfold v1 in X. rewrite C1 in X. exact X. }
      destruct (inv_single _ _ _ Hi (i - 1)) as [C2 | C2]; [lia | lia | exact C1 | |].
      * replace (i - 1 - 1) with (i - 2) in C2 by lia.
        unfold v2, v1. rewrite C2, C1, !RX. reflexivity.
      * exfalso. destruct (nm_slotted _ C2) as [_ B].
        replace (S (i - 1)) with i in B by lia. rewrite Hr in B. discriminate.
    + destruct (str_eq_dec (nth (S i) cur' []) (py "r")) as [R | NR].
      * exfalso. apply (inv_double _ _ _ Hi') in R. rewrite R in Bl.
        discriminate.
      * rewrite (Go NX NR). exact E1.
Qed.

End MeasureRepeatResults.

(** C5, as amended.  In the list [_fill_single_double_repeats] returns, a
    measure past the first one that was the single-repeat marker holds the
    marker-stripped content of the measure before it, and a measure past
    the second one that was the double-repeat marker holds the
    marker-stripped content two measures back, while the slot after it
    holds the marker-stripped content one measure back; the measures are
    those of the list once the markers stand alone and the slots are in
    place.  The example of the specification follows. *)
Theorem single_double_repeats_filled
    (remove_markers : str -> str) (measures out : list str) :
  only_deletes remove_markers ->
  fill_single_double_repeats remove_markers measures = Ok out ->
  let nm := add_slots (pre_measures measures) in
  length out = length nm
  /\ (forall i, 1 <= i -> nth i nm [] = py "x" ->
      nth i out [] = remove_markers (nth (i - 1) out []))
  /\ (forall i, 2 <= i -> nth i nm [] = py "r" ->
      nth i out [] = remove_markers (nth (i - 2) out [])
      /\ nth (S i) out [] = remove_markers (nth (i - 1) out []))
  /\ (measures = [py "Cmaj7"; py "x"; py "Dm7 G7"; py "r"; py ""] ->
      remove_markers (py "Cmaj7") = py "Cmaj7" ->
      remove_markers (py "Dm7 G7") = py "Dm7 G7" ->
      out = [py "Cmaj7"; py "Cmaj7"; py "Dm7 G7"; py "Cmaj7"; py "Dm7 G7"]).
Proof.
  intros D H nm. unfold fill_single_double_repeats in H. fold nm in H.
  assert (Sl : slotted nm) by apply add_slots_slotted.
  assert (Pc : forall y, In y nm -> piece y) by apply new_measures_pieces.
  split; [|split; [|split]].
  - apply (infill_loop_stable _ _ 1 _ _ H).
  - intros i. apply (infill_single remove_markers D nm Sl Pc out H).
  - intros i. apply (infill_double remove_markers D nm Sl Pc out H).
  - intros -> E1 E2. subst nm.
    cbv in E1, E2. cbv in H. rewrite ?E1, ?E2 in H.
    cbv in H. rewrite ?E1, ?E2 in H. cbv in H. rewrite ?E1, ?E2 in H.
    cbv in H. injection H as <-. reflexivity.
Qed.

(** The example of C5 with the coda and segno marks as the markers. *)
Lemma single_double_repeats_filled_example :
  fill_single_double_repeats strip_coda_segno
    [py "Cmaj7"; py "x"; py "Dm7 G7"; py "r"; py ""]
  = Ok [py "Cmaj7"; py "Cmaj7"; py "Dm7 G7"; py "Cmaj7"; py "Dm7 G7"].
Proof.
  set (ms := [py "Cmaj7"; py "x"; py "Dm7 G7"; py "r"; py ""]).
  destruct (fill_single_double_repeats strip_coda_segno ms) as [out | e] eqn:E.
  - f_equal.
    apply (single_double_repeats_filled strip_coda_segno ms out
             strip_coda_segno_deletes E); reflexivity.
  - vm_compute in E. discriminate.
Defined.

(** C5, as stated, fails at the start of the list, which the loop reaches
    with the indices 1 and up: a single-repeat marker in the first place is
    returned as it is, and a double-repeat marker in the second place has no
    measure two places back and takes the last measure of the list. *)
Lemma repeat_markers_at_the_start_are_not_filled :
  (forall remove_markers : str -> str,
      fill_single_double_repeats remove_markers [py "x"; py "C7"]
      = Ok [py "x"; py "C7"])
  /\ fill_single_double_repeats strip_coda_segno
       [py "Am"; py "r"; py ""; py "Dm"; py "G7"]
     = Ok [py "Am"; py "G7"; py "Am"; py "Dm"; py "G7"].
Proof. split; [intros remove_markers|]; vm_compute; reflexivity. Qed.


(** C6, as amended.  [_fill_single_double_repeats] always returns a list:
    the slot it inserts after every double-repeat marker that a non-blank
    measure follows keeps the assertion from failing, and no index leaves
    the list. *)
Theorem single_double_repeats_never_raises
    (remove_markers : str -> str) (measures : list str) :
  only_deletes remove_markers ->
  exists out,
    fill_single_double_repeats remove_markers measures = Ok out
    /\ length out = length (add_slots (pre_measures measures)).
Proof.
  intros D. unfold fill_single_double_repeats.
  apply (infill_total remove_markers D).
  - apply add_slots_slotted.
  - apply new_measures_pieces.
Qed.

Lemma single_double_repeats_never_raises_example :
  exists out,
    fill_single_double_repeats strip_coda_segno [py "a"; py "b"; py "r"; py "c"]
    = Ok out
    /\ length out = 5.
Proof.
  exact (single_double_repeats_never_raises strip_coda_segno
           [py "a"; py "b"; py "r"; py "c"] strip_coda_segno_deletes).
Defined.

(** C6, as stated, fails on the measures a, b, r, c: the double-repeat
    marker is followed by the non-empty measure c, and the function returns
    a list instead of raising. *)
Lemma double_repeat_before_measure_returns :
  nth 2 [py "a"; py "b"; py "r"; py "c"] [] = py "r"
  /\ is_blank (nth 3 [py "a"; py "b"; py "r"; py "c"] []) = false
  /\ fill_single_double_repeats strip_coda_segno
       [py "a"; py "b"; py "r"; py "c"]
     = Ok [py "a"; py "b"; py "a"; py "b"; py "c"].
Proof. repeat split. Qed.

(** ** Lookbacks at the start of the list *)

Lemma nth_last (l : list str) : nth (length l - 1) l [] = last l [].
Proof.
  induction l as [|x l IH]; [reflexivity|].
  destruct l as [|y l]; [reflexivity|].
  change (last (x :: y :: l) []) with (last (y :: l) []). rewrite <- IH.
  cbn [length]. replace (S (S (length l)) - 1) with (S (S (length l) - 1)) by lia.
  reflexivity.
Qed.

Lemma py_get_last (l : list str) :
  0 < length l -> py_get l (-1) = Ok (last l []).
Proof.
  intros H. unfold py_get. rewrite py_index_last by exact H. cbn [bind].
  rewrite nth_last. reflexivity.
Qed.



Module ChordFacts.

Import Chord.

Lemma findall_roots (prev : option ascii) (skip : nat) (s chord : str) :
  In chord (findall prev skip s) ->
  exists c rest, chord = c :: rest /\ is_root c = true.
Proof.
  revert prev skip. induction s as [|c s IH]; intros prev skip; [intros []|].
  cbn [findall]. destruct skip as [|k]; [|apply IH].
  destruct (if match prev with Some p => chr_eqb p "/" | None => false end
            then None else chord_at (c :: s)) as [ch |] eqn:E; [|apply IH].
  intros H. apply in_inv in H. destruct H as [<- | H]; [|exact (IH _ _ H)].
  destruct (match prev with Some p => chr_eqb p "/" | None => false end);
    [discriminate|].
  unfold chord_at in E. destruct (is_root c) eqn:R; [|discriminate].
  destruct (quality s) as [q r]. injection E as <-.
  exists c, (q ++ bass r). split; [reflexivity | exact R].
Qed.

Lemma last_chord_root (s chord : str) :
  last_chord s = Ok chord ->
  exists c rest, chord = c :: rest /\ is_root c = true.
Proof.
  unfold last_chord. destruct (rev (findall None 0 s)) as [|ch l] eqn:E;
    [discriminate|].
  intros H. injection H as <-.
  apply (findall_roots None 0 s). apply in_rev. rewrite E. left. reflexivity.
Qed.

Lemma root_not_slash (c : ascii) : is_root c = true -> chr_eqb c "p" = false.
Proof.
  intros H. destruct (chr_eqb c "p") eqn:E; [|reflexivity].
  apply chr_eqb_eq in E. subst c. discriminate.
Qed.

End ChordFacts.

Section SlashFacts.

Variable template_ok : str -> bool.

(** More fuel does not change an answer. *)
Lemma fill_slashes_at_more (fuel : nat) (measures : list str) (i : Z)
    (r : result (list str)) :
  fill_slashes_at template_ok fuel measures i = Some r ->
  fill_slashes_at template_ok (S fuel) measures i = Some r.
Proof.
  revert measures. induction fuel as [|fuel IH]; intros measures; [discriminate|].
  intros H. cbn [fill_slashes_at] in H |- *.
  destruct (py_get measures i) as [cur | e]; [|exact H].
  destruct (find "p" cur =? -1)%Z; [exact H|].
  destruct (fill_slash template_ok measures i (find "p" cur)) as [m' | e];
    [|exact H].
  apply IH. exact H.
Qed.

Lemma fill_slashes_from_more (fuel n : nat) (measures : list str) (i : Z)
    (r : result (list str)) :
  fill_slashes_from template_ok fuel n measures i = Some r ->
  fill_slashes_from template_ok (S fuel) n measures i = Some r.
Proof.
  revert measures i. induction n as [|n IH]; intros measures i; [tauto|].
  cbn [fill_slashes_from].
  destruct (fill_slashes_at template_ok fuel measures i) as [[m' | e] |] eqn:E;
    [| |discriminate].
  - rewrite (fill_slashes_at_more _ _ _ _ E). apply IH.
  - rewrite (fill_slashes_at_more _ _ _ _ E). tauto.
Qed.



End SlashFacts.



(** ** Timed annotations *)

Section AnnotationFacts.

Variable num : Type.
Variable true_div : Z -> Z -> num.
Variable zero : num.
Variable add : num -> num -> num.

Lemma cumsum_from_times (d : num) (j n : nat) :
  cumsum_from num add (times num zero add j d) (repeat d n)
  = map (fun i => times num zero add i d) (seq (S j) n).
Proof.
  revert j. induction n as [|n IH]; intros j; [reflexivity|].
  cbn [repeat cumsum_from seq map].
  change (add (times num zero add j d) d) with (times num zero add (S j) d).
  rewrite IH. reflexivity.
Qed.

Lemma cumsum_times (d : num) (n : nat) :
  cumsum num add (zero :: repeat d n)
  = map (fun i => times num zero add i d) (seq 0 (S n)).
Proof.
  cbn [cumsum seq map].
  change zero with (times num zero add 0 d) at 2.
  rewrite cumsum_from_times. reflexivity.
Qed.

Lemma combine_seq {A : Type} (g : nat -> A) (l : list str) (a : nat) :
  combine (map g (seq a (length l))) l
  = map (fun i => (g i, nth (i - a) l [])) (seq a (length l)).
Proof.
  revert a. induction l as [|x l IH]; intros a; [reflexivity|].
  cbn [length seq map combine]. rewrite Nat.sub_diag. cbn [nth].
  rewrite IH. f_equal. apply map_ext_in. intros i Hi. apply in_seq in Hi.
  replace (i - a) with (S (i - S a)) by lia. reflexivity.
Qed.

Lemma measure_events_spaced (b m : Z) (measure : str) :
  split measure <> [] ->
  measure_events num true_div zero add b m measure
  = Ok (evenly_spaced num true_div zero add b m measure).
Proof.
  intros H. unfold measure_events, evenly_spaced.
  destruct (split measure) as [|tok toks] eqn:E; [contradiction|].
  set (tokens := tok :: toks).
  assert (K : length tokens = S (length toks)) by reflexivity.
  rewrite K. cbn [Nat.eqb]. replace (S (length toks) - 1) with (length toks) by lia.
  rewrite cumsum_times. rewrite <- K.
  rewrite (combine_seq _ tokens 0). rewrite map_map. f_equal.
  apply map_ext. intros i. rewrite Nat.sub_0_r. reflexivity.
Qed.

Lemma chords_from_spaced (b m : Z) (measures : list str) :
  (forall measure, In measure measures -> split measure <> []) ->
  chords_from num true_div zero add b m measures
  = Ok (evenly_spaced_from num true_div zero add b m measures).
Proof.
  revert m. induction measures as [|measure rest IH]; intros m H; [reflexivity|].
  cbn [chords_from evenly_spaced_from].
  rewrite measure_events_spaced by (apply H; left; reflexivity).
  cbn [bind]. rewrite IH by (intros x Hx; apply H; right; exact Hx).
  reflexivity.
Qed.

Lemma evenly_spaced_length (b m : Z) (measure : str) :
  length (evenly_spaced num true_div zero add b m measure)
  = length (split measure).
Proof. unfold evenly_spaced. rewrite length_map, length_seq. reflexivity. Qed.

End AnnotationFacts.

(** C7, as amended.  When every measure holds a chord token and the key is
    one token, so that the function returns, the chord annotations are,
    measure by
    measure from number 1, one event per token: the token of index [i] of a
    measure with [k] tokens stands at the sum of [i] durations [b / k],
    added one after the other from 0 as [numpy.cumsum] does, from
    the start of the measure and lasts [b / k], for [b] beats per measure.
    With Python's floats, a measure of two tokens in 4 beats gives onsets 0
    and 2 and durations 2. *)
Theorem chord_events_evenly_spaced :
  (forall (num : Type) (true_div : Z -> Z -> num) (zero : num)
          (add : num -> num -> num) (t : tune),
      (forall measure, In measure (measures_as_strings t) ->
                       split measure <> []) ->
      length (split (key t)) = 1 ->
      exists keys time_signatures,
        extract_annotations_from_tune num true_div zero add t
        = Ok (evenly_spaced_from num true_div zero add (fst (time_signature t))
                1%Z (measures_as_strings t),
              keys, time_signatures))
  /\ (forall (num : Type) (true_div : Z -> Z -> num) (zero : num)
             (add : num -> num -> num) (b m : Z) (measure : str) (i : nat),
      i < length (split measure) ->
      length (evenly_spaced num true_div zero add b m measure)
      = length (split measure)
      /\ nth_error (evenly_spaced num true_div zero add b m measure) i
         = Some (m,
                 times num zero add i
                   (true_div b (Z.of_nat (length (split measure)))),
                 true_div b (Z.of_nat (length (split measure))),
                 nth i (split measure) []))
  /\ evenly_spaced float float_div PrimFloat.zero PrimFloat.add 4 1 (py "C G7")
     = [(1%Z, 0%float, 2%float, py "C"); (1%Z, 2%float, 2%float, py "G7")].
Proof.
  split; [|split].
  - intros num true_div zero add t Hm Hk.
    unfold extract_annotations_from_tune.
    rewrite chords_from_spaced by exact Hm. cbn [bind].
    rewrite Hk. cbn [Nat.eqb negb]. eexists. eexists. reflexivity.
  - intros num true_div zero add b m measure i Hi.
    split; [apply evenly_spaced_length|].
    unfold evenly_spaced.
    rewrite nth_error_map, nth_error_nth' with (d := 0)
      by (rewrite length_seq; exact Hi).
    rewrite seq_nth by exact Hi. reflexivity.
  - vm_compute. reflexivity.
Qed.

Lemma chord_events_evenly_spaced_example :
  exists keys time_signatures,
    float_annotations
      {| measures_as_strings := [py "C G7"; py "Am"];
         time_signature := (4, 4)%Z;
         key := py "C" |}
    = Ok ([(1%Z, 0%float, 2%float, py "C"); (1%Z, 2%float, 2%float, py "G7");
           (2%Z, 0%float, 4%float, py "Am")],
          keys, time_signatures).
Proof.
  destruct (proj1 chord_events_evenly_spaced float float_div PrimFloat.zero
              PrimFloat.add
              {| measures_as_strings := [py "C G7"; py "Am"];
                 time_signature := (4, 4)%Z;
                 key := py "C" |}) as (keys & tss & E).
  - intros measure [<- | [<- | []]]; vm_compute; discriminate.
  - reflexivity.
  - exists keys, tss. exact E.
Defined.

(** C7, as stated, fails on Python's floats: the onsets are sums, not
    products.  In a measure of seven tokens in 4 beats the last token
    stands at 3.4285714285714279, the sum of six durations 4 / 7, which is
    below the product 6 * (4 / 7) = 3.4285714285714284. *)
Lemma onsets_are_sums_not_products :
  exists chords keys time_signatures,
    float_annotations
      {| measures_as_strings := [py "A B C D E F G"];
         time_signature := (4, 4)%Z;
         key := py "C" |}
    = Ok (chords, keys, time_signatures)
    /\ exists onset,
         nth_error chords 6 = Some (1%Z, onset, float_div 4 7, py "G")
         /\ PrimFloat.ltb onset (PrimFloat.mul 6 (float_div 4 7)) = true.
Proof.
  match eval vm_compute in
        (float_annotations
           {| measures_as_strings := [py "A B C D E F G"];
              time_signature := (4, 4)%Z;
              key := py "C" |}) with
  | Ok (?c, ?k, ?t) => exists c, k, t
  end.
  split; [vm_compute; reflexivity|].
  eexists. split; [vm_compute; reflexivity | vm_compute; reflexivity].
Qed.


(** The division is exact on integers that no machine integer and no
    float holds: the quotient of 2^63 + 12345 by 1000 is rounded once, to
    4611686018427394 * 2. *)
Lemma float_div_of_large_integers :
  Prim2SF (float_div (2 ^ 63 + 12345) 1000)
  = S754_finite false 4611686018427394 1.
Proof. vm_compute. reflexivity. Qed.

(** C8: what the function returns for the key and the time signature.
    There is one event of each kind, lasting the beats of a measure times the
    number of measures; its beat field is 1, whereas the chord events of the
    same function count the beats of a measure from 0. *)
Theorem span_events_start_at_beat_one
    (num : Type) (true_div : Z -> Z -> num) (zero : num)
    (add : num -> num -> num) (t : tune)
    (chords : list (chord_event num)) (keys time_signatures : list span_event) :
  extract_annotations_from_tune num true_div zero add t
  = Ok (chords, keys, time_signatures) ->
  let duration :=
    (fst (time_signature t) * Z.of_nat (length (measures_as_strings t)))%Z in
  keys = [(1, 1, duration, key t)%Z]
  /\ time_signatures
     = [(1, 1, duration,
         str_of_int (fst (time_signature t)) ++ py "/"
         ++ str_of_int (snd (time_signature t)))%Z].
Proof.
  unfold extract_annotations_from_tune. intros H.
  destruct (chords_from num true_div zero add (fst (time_signature t)) 1
              (measures_as_strings t)) as [c | e]; cbn [bind] in H;
    [|discriminate].
  destruct (negb (length (split (key t)) =? 1)); [discriminate|].
  injection H as _ <- <-. split; reflexivity.
Qed.

(** C8 at a tune of one measure in 4/4 and in C: the key and the time
    signature events carry beat 1 where the claim says offset 0, next to a
    chord event at beat 0. *)
Lemma span_events_of_one_measure :
  float_annotations
    {| measures_as_strings := [py "C"];
       time_signature := (4, 4)%Z;
       key := py "C" |}
  = Ok ([(1%Z, 0%float, 4%float, py "C")],
        [(1, 1, 4, py "C")%Z],
        [(1, 1, 4, py "4/4")%Z]).
Proof. vm_compute. reflexivity. Qed.

(** ** The repeat expansion engine: what a repeat group is *)

Module ReFacts.

Import Re.

Lemma until_close_split (s g post : str) :
  until_close s = Some (g, post) ->
  s = g ++ "}" :: post /\ ~ In "}" g /\ ~ In newline g.
Proof.
  revert g post. induction s as [|c s IH]; intros g post; [discriminate|].
  cbn [until_close]. destruct (chr_eqb c "}") eqn:E1.
  - apply chr_eqb_eq in E1. subst c. intros H. injection H as <- <-.
    split; [reflexivity | split; simpl; tauto].
  - destruct (chr_eqb c newline) eqn:E2; [discriminate|].
    destruct (until_close s) as [[g' post']|]; [|discriminate].
    intros H. injection H as <- <-.
    destruct (IH g' post' eq_refl) as (-> & H1 & H2).
    apply chr_eqb_neq in E1. apply chr_eqb_neq in E2.
    split; [reflexivity|]. split; intros [H | H]; auto.
Qed.

Lemma until_close_found (g post : str) :
  ~ In newline g -> exists g' post', until_close (g ++ "}" :: post) = Some (g', post').
Proof.
  induction g as [|c g IH]; intros H.
  - exists [], post. reflexivity.
  - cbn [app until_close]. destruct (chr_eqb c "}"); [eauto|].
    apply not_in_cons in H. destruct H as [H1 H2].
    apply chr_eqb_neq in H1. rewrite H1.
    destruct (IH H2) as (g' & post' & ->). eauto.
Qed.

Lemma group_close_split (s g post : str) :
  group_close s = Some (g, post) ->
  s = g ++ "}" :: post /\ g <> [] /\ ~ In "}" (tl g) /\ ~ In newline g.
Proof.
  destruct s as [|c s]; [discriminate|]. cbn [group_close].
  destruct (chr_eqb c newline) eqn:E; [discriminate|].
  destruct (until_close s) as [[g' post']|] eqn:U; [|discriminate].
  intros H. injection H as <- <-.
  destruct (until_close_split _ _ _ U) as (-> & H1 & H2).
  apply chr_eqb_neq in E.
  split; [reflexivity|]. split; [discriminate|]. split; [exact H1|].
  intros [H | H]; auto.
Qed.

Lemma group_close_found (g post : str) :
  g <> [] -> ~ In newline g ->
  exists g' post', group_close (g ++ "}" :: post) = Some (g', post').
Proof.
  destruct g as [|c g]; [contradiction|]. intros _ H.
  apply not_in_cons in H. destruct H as [H1 H2].
  cbn [app group_close]. apply chr_eqb_neq in H1. rewrite H1.
  destruct (until_close_found g post H2) as (g' & post' & ->). eauto.
Qed.

(** The match of [{(.+?)}] splits the string around a group that is not
    empty, holds no line feed and no closing bracket after its first
    character. *)
Lemma search_repeat_split (s pre g post : str) :
  search_repeat s = Some (pre, g, post) ->
  s = pre ++ "{" :: g ++ "}" :: post
  /\ g <> [] /\ ~ In "}" (tl g) /\ ~ In newline g.
Proof.
  revert pre. induction s as [|c s IH]; intros pre; [discriminate|].
  cbn [search_repeat].
  destruct (if chr_eqb c "{" then group_close s else None) as [[g' post']|] eqn:E.
  - intros H. injection H as <- <- <-.
    destruct (chr_eqb c "{") eqn:C; [|discriminate].
    apply chr_eqb_eq in C. subst c.
    destruct (group_close_split _ _ _ E) as (-> & H). split; [reflexivity | exact H].
  - destruct (search_repeat s) as [[[pre' g'] post']|]; [|discriminate].
    intros H. injection H as <- <- <-.
    destruct (IH pre' eq_refl) as (-> & H). split; [reflexivity | exact H].
Qed.

(** No match of [{(.+?)}]: every opening bracket that a closing bracket
    follows is next to it or has a line feed in between. *)
Lemma search_repeat_none (s : str) :
  search_repeat s = None <->
  (forall a g b, s = a ++ "{" :: g ++ "}" :: b -> g = [] \/ In newline g).
Proof.
  split.
  - intros H a. revert s H. induction a as [|c a IH]; intros s H g b ->.
    + cbn [app search_repeat] in H. rewrite chr_eqb_refl in H.
      destruct g as [|x g]; [left; reflexivity|]. right.
      destruct (in_dec ascii_dec newline (x :: g)) as [I | I]; [exact I|].
      destruct (group_close_found (x :: g) b) as (g' & post' & E);
        [discriminate | exact I|].
      rewrite E in H. discriminate.
    + cbn [app search_repeat] in H.
      destruct (if chr_eqb c "{" then group_close (a ++ "{" :: g ++ "}" :: b)
                else None) as [[g' post']|]; [discriminate|].
      destruct (search_repeat (a ++ "{" :: g ++ "}" :: b)) as [[[p g'] q]|] eqn:E;
        [discriminate|].
      exact (IH _ E g b eq_refl).
  - intros H. destruct (search_repeat s) as [[[pre g] post]|] eqn:E; [|reflexivity].
    destruct (search_repeat_split _ _ _ _ E) as (Es & Hg & _ & Hn).
    destruct (H pre g post Es); contradiction.
Qed.

End ReFacts.

Section ExpansionResult.

Variable remove_markers : str -> str.

Lemma fill_long_repeats_fixed (fuel : nat) (s out : str) :
  fill_long_repeats remove_markers fuel s = Some (Ok out) ->
  Re.search_repeat out = None.
Proof.
  revert s. induction fuel as [|fuel IH]; intros s; [discriminate|].
  cbn [fill_long_repeats]. unfold expand_once.
  destruct (Re.search_repeat s) as [[[pre g] post]|] eqn:E.
  - destruct (if Re.has_ending g
              then expand_numbered remove_markers s pre g post
              else expand_bracket remove_markers pre g post) as [s' | e];
      [apply IH | discriminate].
  - intros H. injection H as <-. exact E.
Qed.

Lemma fill_long_repeats_more (fuel : nat) (s : str) (r : result str) :
  fill_long_repeats remove_markers fuel s = Some r ->
  fill_long_repeats remove_markers (S fuel) s = Some r.
Proof.
  revert s. induction fuel as [|fuel IH]; intros s; [discriminate|].
  intros H. cbn [fill_long_repeats] in H |- *.
  destruct (expand_once remove_markers s) as [[s' | e]|]; try exact H.
  apply IH. exact H.
Qed.

End ExpansionResult.

Lemma fill_long_repeats_ext (rm rm' : str -> str) :
  (forall y, rm y = rm' y) ->
  forall fuel s, fill_long_repeats rm fuel s = fill_long_repeats rm' fuel s.
Proof.
  intros H. induction fuel as [|fuel IH]; intros s; [reflexivity|].
  cbn [fill_long_repeats].
  assert (E : expand_once rm s = expand_once rm' s).
  { unfold expand_once.
    destruct (Re.search_repeat s) as [[[pre g] post]|]; [|reflexivity].
    f_equal. destruct (Re.has_ending g).
    - unfold expand_numbered.
      destruct (Re.finditer Re.nrep_at 0 0 s) as [|[[start stop] u] others];
        [reflexivity|].
      match goal with
      | |- (if ?b then _ else _) = _ => destruct b; [reflexivity|]
      end.
      destruct (mjoin [pre; Re.remove_endings g; post]); cbn [bind];
        [|reflexivity].
      destruct (Re.search_first_ending [] g); [|reflexivity].
      rewrite H. reflexivity.
    - unfold expand_bracket.
      destruct (count_and_content g) as [times to_repeat].
      rewrite H. reflexivity. }
  rewrite E. destruct (expand_once rm' s) as [[s' | e]|]; try reflexivity.
  apply IH.
Qed.

(** C1, a defect of the code.  The chart "A {B N1 C} N2 D | {E N1 F} N2 G"
    has two opening and two closing brackets, and two well-formed repeats
    with numbered endings.  [_fill_long_repeats] returns it with the marker
    N2 of the second repeat still there, and with the chord of the first
    repeat inside the second one.  The bound [current_bnd] is the place of
    the second repeat in [chord_string], whereas the places it is compared
    with are those of the matches in [new_chord_string], which the first
    substitution has shortened: at the second substitution the first ending
    of the second repeat stands before the bound and receives the chords of
    the first repeat.  The second repeat alone is expanded as it should,
    and so is the chart with a longer second repeat. *)
Theorem numbered_ending_survives_second_repeat
    (remove_markers : str -> str) :
  remove_markers (py "B ") = py "B " ->
  remove_markers (py "E ") = py "E " ->
  remove_markers (py "EB  F") = py "EB  F" ->
  remove_markers (py "E E7 Em ") = py "E E7 Em " ->
  count "{" (py "A {B N1 C} N2 D | {E N1 F} N2 G")
  = count "}" (py "A {B N1 C} N2 D | {E N1 F} N2 G")
  /\ fill_long_repeats remove_markers 3
       (py "A {B N1 C} N2 D | {E N1 F} N2 G")
     = Some (Ok (py "A |B  C|B  D | EB  F |EB  F| N2 G"))
  /\ Re.has_ending (py "A |B  C|B  D | EB  F |EB  F| N2 G") = true
  /\ fill_long_repeats remove_markers 2 (py "{E N1 F} N2 G")
     = Some (Ok (py "E  F|E  G"))
  /\ fill_long_repeats remove_markers 3
       (py "A {B N1 C} N2 D | {E E7 Em N1 F} N2 G")
     = Some (Ok (py "A |B  C|B  D | E E7 Em  F|E E7 Em  G"))
  /\ Re.has_ending (py "A |B  C|B  D | E E7 Em  F|E E7 Em  G") = false.
Proof.
  intros R1 R2 R3 R4.
  set (rm' := fun y : str =>
                if str_eqb y (py "B ") then py "B "
                else if str_eqb y (py "E ") then py "E "
                else if str_eqb y (py "EB  F") then py "EB  F"
                else if str_eqb y (py "E E7 Em ") then py "E E7 Em "
                else remove_markers y).
  assert (X : forall y, remove_markers y = rm' y).
  { intros y. unfold rm'.
    destruct (str_eqb y (py "B ")) eqn:E1;
      [apply str_eqb_eq in E1; subst y; exact R1|].
    destruct (str_eqb y (py "E ")) eqn:E2;
      [apply str_eqb_eq in E2; subst y; exact R2|].
    destruct (str_eqb y (py "EB  F")) eqn:E3;
      [apply str_eqb_eq in E3; subst y; exact R3|].
    destruct (str_eqb y (py "E E7 Em ")) eqn:E4;
      [apply str_eqb_eq in E4; subst y; exact R4|].
    reflexivity. }
  rewrite !(fill_long_repeats_ext remove_markers rm' X).
  split; [reflexivity|]. split; [vm_compute; reflexivity|].
  split; [reflexivity|]. split; [vm_compute; reflexivity|].
  split; [vm_compute; reflexivity | reflexivity].
Qed.

Lemma numbered_ending_survives_second_repeat_example :
  count "{" (py "A {B N1 C} N2 D | {E N1 F} N2 G")
  = count "}" (py "A {B N1 C} N2 D | {E N1 F} N2 G")
  /\ fill_long_repeats strip_coda_segno 3
       (py "A {B N1 C} N2 D | {E N1 F} N2 G")
     = Some (Ok (py "A |B  C|B  D | EB  F |EB  F| N2 G"))
  /\ Re.has_ending (py "A |B  C|B  D | EB  F |EB  F| N2 G") = true
  /\ fill_long_repeats strip_coda_segno 2 (py "{E N1 F} N2 G")
     = Some (Ok (py "E  F|E  G"))
  /\ fill_long_repeats strip_coda_segno 3
       (py "A {B N1 C} N2 D | {E E7 Em N1 F} N2 G")
     = Some (Ok (py "A |B  C|B  D | E E7 Em  F|E E7 Em  G"))
  /\ Re.has_ending (py "A |B  C|B  D | E E7 Em  F|E E7 Em  G") = false.
Proof.
  exact (numbered_ending_survives_second_repeat strip_coda_segno
           eq_refl eq_refl eq_refl eq_refl).
Defined.

(** ** The metrical join *)

Lemma ends_open_cons (c d : ascii) (s : str) :
  ends_open (c :: d :: s) = ends_open (d :: s).
Proof.
  unfold ends_open. cbn [rev].
  destruct (rev s ++ [d]) as [|x l] eqn:E.
  - destruct (rev s); discriminate.
  - reflexivity.
Qed.

Lemma adjacent_app (x y : str) :
  adjacent (x ++ y)
  = adjacent x + adjacent y + (if ends_open x && starts_close y then 1 else 0).
Proof.
  induction x as [|c x IH].
  - unfold ends_open. cbn [rev app adjacent andb]. lia.
  - destruct x as [|d x].
    + cbn [app adjacent]. unfold ends_open, starts_close. cbn [rev app].
      destruct y as [|e y]; [rewrite andb_false_r; lia|].
      destruct (chr_eqb c "{" && chr_eqb e "}"); lia.
    + rewrite ends_open_cons.
      change ((c :: d :: x) ++ y) with (c :: (d :: x) ++ y).
      cbn [adjacent] in IH |- *. cbn [app] in IH |- *. lia.
Qed.

Lemma space_not_close (c : ascii) : is_space c = true -> chr_eqb c "}" = false.
Proof.
  intros H. destruct (chr_eqb c "}") eqn:E; [|reflexivity].
  apply chr_eqb_eq in E. subst c. discriminate.
Qed.

Lemma space_not_open (c : ascii) : is_space c = true -> chr_eqb c "{" = false.
Proof.
  intros H. destruct (chr_eqb c "{") eqn:E; [|reflexivity].
  apply chr_eqb_eq in E. subst c. discriminate.
Qed.

Lemma lstrip_bar_starts (next t z : str) :
  lstrip next = "|" :: t -> starts_close (next ++ z) = false.
Proof.
  destruct next as [|c n]; [discriminate|]. cbn [lstrip app starts_close].
  destruct (is_space c) eqn:E.
  - intros _. apply space_not_close. exact E.
  - intros H. injection H as -> _. reflexivity.
Qed.

Lemma ends_open_rstrip (last : str) :
  ends_open last = true -> index_last (rstrip last) = Ok "{".
Proof.
  unfold ends_open, index_last, rstrip. rewrite rev_involutive.
  destruct (rev last) as [|c l]; [discriminate|].
  intros H. apply chr_eqb_eq in H. subst c. reflexivity.
Qed.

(** The separator is a bar or nothing, and it is a bar between an opening
    bracket and a closing bracket. *)
Lemma separator_cases (last next sep : str) :
  separator last next = Ok sep ->
  (sep = py "|" \/ sep = [])
  /\ (forall z, ends_open last && starts_close ((sep ++ next) ++ z) = false)
  /\ adjacent (sep ++ next) = adjacent next.
Proof.
  unfold separator.
  destruct (index_last (rstrip last)) as [a | e] eqn:A; cbn [bind]; [|discriminate].
  destruct (chr_eqb a "|") eqn:Ea.
  - intros H. injection H as <-. split; [right; reflexivity|].
    split; [|reflexivity]. intros z.
    destruct (ends_open last) eqn:O; [|reflexivity].
    apply ends_open_rstrip in O. rewrite O in A. injection A as <-.
    discriminate.
  - destruct (index_first (lstrip next)) as [b | e] eqn:B; cbn [bind];
      [|discriminate].
    intros H. injection H as <-.
    destruct (chr_eqb b "|") eqn:Eb.
    + split; [right; reflexivity|]. split; [|reflexivity]. intros z.
      apply chr_eqb_eq in Eb. subst b.
      unfold index_first in B. destruct (lstrip next) as [|c t] eqn:L;
        [discriminate|]. injection B as ->.
      cbn [app]. rewrite (lstrip_bar_starts next t z L). apply andb_false_r.
    + split; [left; reflexivity|]. split.
      * intros z. apply andb_false_r.
      * cbn [py list_ascii_of_string app adjacent].
        destruct next; reflexivity.
Qed.

Lemma count_bar_free (c : ascii) (sep next : str) :
  c <> "|" -> sep = py "|" \/ sep = [] ->
  count c (sep ++ next) = count c next.
Proof.
  intros N [-> | ->]; [|reflexivity].
  cbn [py list_ascii_of_string app count].
  apply not_eq_sym, chr_eqb_neq in N. rewrite N. reflexivity.
Qed.

Lemma list_sum_cons (a : nat) (l : list nat) :
  list_sum (a :: l) = a + list_sum l.
Proof. reflexivity. Qed.

Lemma mjoin_loop_facts (rest : list str) :
  forall (last : str) (more : list str),
    mjoin_loop last rest = Ok more ->
    (forall c, c <> "|" -> count c (concat more) = count c (concat rest))
    /\ adjacent (last ++ concat more)
       <= adjacent last + list_sum (map adjacent rest).
Proof.
  induction rest as [|next rest IH]; intros last more.
  - intros H. injection H as <-. split; [reflexivity|].
    cbn [concat map list_sum]. rewrite app_nil_r. lia.
  - cbn [mjoin_loop].
    destruct (separator last next) as [sep | e] eqn:S; cbn [bind]; [|discriminate].
    destruct (mjoin_loop (sep ++ next) rest) as [more' | e] eqn:M; cbn [bind];
      [|discriminate].
    intros H. injection H as <-.
    destruct (separator_cases _ _ _ S) as (Hs & Hj & Ha).
    destruct (IH _ _ M) as (Hc & Hadj).
    split.
    + intros c N. cbn [concat].
      rewrite (count_app c (sep ++ next)), (count_app c next).
      rewrite (count_bar_free c sep next N Hs). rewrite (Hc c N). reflexivity.
    + cbn [concat map list_sum]. rewrite adjacent_app.
      rewrite (Hj (concat more')). rewrite Ha in Hadj.
      change (list_sum (adjacent next :: map adjacent rest))
        with (adjacent next + list_sum (map adjacent rest)). lia.
Qed.

Lemma blank_count (c : ascii) (x : str) :
  is_blank x = true -> is_space c = false -> count c x = 0.
Proof.
  intros B N. induction x as [|d x IH]; [reflexivity|].
  cbn [is_blank forallb] in B. apply andb_true_iff in B. destruct B as [B1 B2].
  cbn [count]. destruct (chr_eqb d c) eqn:E.
  - apply chr_eqb_eq in E. subst d. congruence.
  - apply IH. exact B2.
Qed.

Lemma filter_blank_count (c : ascii) (strings : list str) :
  is_space c = false ->
  count c (concat (filter (fun cs => negb (is_blank cs)) strings))
  = count c (concat strings).
Proof.
  intros N. induction strings as [|x l IH]; [reflexivity|].
  cbn [filter concat]. destruct (is_blank x) eqn:B; cbn [negb].
  - rewrite count_app, (blank_count c x B N). exact IH.
  - cbn [concat]. rewrite !count_app, IH. reflexivity.
Qed.

Lemma filter_blank_adjacent (strings : list str) :
  list_sum (map adjacent (filter (fun cs => negb (is_blank cs)) strings))
  <= list_sum (map adjacent strings).
Proof.
  induction strings as [|x l IH]; [reflexivity|].
  cbn [filter]. destruct (negb (is_blank x)); cbn [map];
    rewrite ?list_sum_cons; lia.
Qed.

(** What [mjoin] keeps of its arguments: their characters, bars and white
    space apart, and no more adjacent bracket pairs than they hold. *)
Lemma mjoin_facts (strings : list str) (out : str) :
  mjoin strings = Ok out ->
  (forall c, c <> "|" -> is_space c = false ->
             count c out = count c (concat strings))
  /\ adjacent out <= list_sum (map adjacent strings).
Proof.
  unfold mjoin.
  pose proof (filter_blank_adjacent strings) as Fa.
  pose proof (fun c => filter_blank_count c strings) as Fc.
  destruct (filter (fun cs => negb (is_blank cs)) strings) as [|first rest];
    [discriminate|].
  destruct (mjoin_loop first rest) as [more | e] eqn:M; cbn [bind]; [|discriminate].
  intros H. injection H as <-.
  destruct (mjoin_loop_facts _ _ _ M) as (Hc & Ha).
  split.
  - intros c N1 N2. rewrite <- (Fc c N2). cbn [concat]. rewrite !count_app.
    rewrite (Hc c N1). reflexivity.
  - cbn [concat]. cbn [map] in Fa. rewrite list_sum_cons in Fa. lia.
Qed.

(** ** The content of a bracket repeat *)

Lemma subseq_trans (a b c : str) : subseq a b -> subseq b c -> subseq a c.
Proof.
  intros H1 H2. revert a H1. induction H2 as [|d b c H IH|d b c H IH]; intros a H1.
  - exact H1.
  - constructor. apply IH. exact H1.
  - inversion H1; subst.
    + apply subseq_skip. apply IH. assumption.
    + apply subseq_keep. apply IH. assumption.
Qed.

Lemma subseq_count (c : ascii) (a b : str) :
  subseq a b -> count c a <= count c b.
Proof. induction 1; cbn [count]; try destruct (chr_eqb _ _); lia. Qed.

Lemma subseq_app (a b c d : str) :
  subseq a b -> subseq c d -> subseq (a ++ c) (b ++ d).
Proof.
  induction 1; intros Hcd; cbn [app].
  - exact Hcd.
  - apply subseq_skip. auto.
  - apply subseq_keep. auto.
Qed.

Lemma subseq_firstn (n : nat) (s : str) : subseq (firstn n s) s.
Proof.
  revert n. induction s as [|c s IH]; intros [|n]; cbn [firstn].
  - constructor.
  - constructor.
  - apply subseq_nil_l.
  - apply subseq_keep, IH.
Qed.

Lemma subseq_skipn (n : nat) (s : str) : subseq (skipn n s) s.
Proof.
  revert n. induction s as [|c s IH]; intros [|n]; cbn [skipn].
  - constructor.
  - constructor.
  - apply subseq_refl.
  - apply subseq_skip, IH.
Qed.

Lemma subseq_cut (a b : nat) (s : str) :
  a <= b -> subseq (firstn a s ++ skipn b s) s.
Proof.
  intros H. rewrite <- (firstn_skipn a s) at 3.
  apply subseq_app; [apply subseq_refl|].
  replace b with ((b - a) + a) by lia. rewrite <- skipn_skipn.
  apply subseq_skipn.
Qed.

Lemma replace_double_space_cons (c d : ascii) (u : str) :
  replace_double_space (c :: d :: u)
  = if chr_eqb c " " && chr_eqb d " " then " " :: replace_double_space u
    else c :: replace_double_space (d :: u).
Proof. reflexivity. Qed.

Lemma subseq_replace_double_space (s : str) : subseq (replace_double_space s) s.
Proof.
  assert (H : forall n s, length s <= n -> subseq (replace_double_space s) s).
  { clear s. induction n as [|n IH]; intros s L.
    - destruct s; [constructor | simpl in L; lia].
    - destruct s as [|c [|d u]].
      + constructor.
      + apply subseq_refl.
      + rewrite replace_double_space_cons. cbn [length] in L.
        destruct (chr_eqb c " " && chr_eqb d " ") eqn:E.
        * apply andb_true_iff in E. destruct E as [E1 E2].
          apply chr_eqb_eq in E1. apply chr_eqb_eq in E2. subst c d.
          apply subseq_keep, subseq_skip, IH. lia.
        * apply subseq_keep, IH. cbn [length]. lia. }
  apply (H (length s)). lia.
Qed.

Lemma subseq_closers_at_head (a b : str) :
  subseq a b -> ~ In "}" (tl b) -> ~ In "}" (tl a).
Proof.
  intros H. destruct H as [|c a b H|c a b H]; cbn [tl]; intros Hb.
  - exact Hb.
  - intros Hi. apply Hb. apply (subseq_in _ _ _ H).
    destruct a; [destruct Hi | right; exact Hi].
  - intros Hi. apply Hb. exact (subseq_in _ _ _ H Hi).
Qed.

Lemma adjacent_none (s : str) : ~ In "}" (tl s) -> adjacent s = 0.
Proof.
  induction s as [|c s IH]; [reflexivity|]. cbn [tl adjacent]. intros H.
  destruct s as [|d s]; [reflexivity|].
  apply not_in_cons in H. destruct H as [H1 H2].
  apply chr_eqb_neq in H1. rewrite H1, andb_false_r.
  rewrite IH; [reflexivity | exact H2].
Qed.

Lemma finditer_ordered {A : Type} (at_ : str -> option (A * nat))
    (s : str) (pos skip : nat) (m : nat * nat * A) :
  In m (Re.finditer at_ pos skip s) -> fst (fst m) <= snd (fst m).
Proof.
  revert pos skip. induction s as [|c s IH]; intros pos skip; [intros []|].
  cbn [Re.finditer]. destruct skip as [|k]; [|apply IH].
  destruct (at_ (c :: s)) as [[a n]|]; [|apply IH].
  intros [<- | H]; [cbn [fst snd]; lia | exact (IH _ _ H)].
Qed.

Section ContentFacts.

Variable remove_markers : str -> str.

(** The content to repeat is the content of the group with some characters
    deleted. *)
Lemma content_subseq (full_repeat : str) :
  subseq (snd (count_and_content full_repeat)) full_repeat.
Proof.
  unfold count_and_content.
  destruct (rev (Re.finditer Re.count_at 0 0 full_repeat)) as [|[[s e] ds] l] eqn:E.
  - apply subseq_refl.
  - cbn [snd]. eapply subseq_trans; [apply subseq_replace_double_space|].
    apply subseq_cut.
    apply (finditer_ordered Re.count_at full_repeat 0 0 (s, e, ds)).
    apply in_rev. rewrite E. left. reflexivity.
Qed.

End ContentFacts.

(** ** What one invocation does to the brackets *)

Lemma count_concat_repeat (c : ascii) (u : str) (n : nat) :
  count c (concat (repeat u n)) = n * count c u.
Proof.
  induction n as [|n IH]; [reflexivity|].
  cbn [repeat concat]. rewrite count_app, IH. lia.
Qed.

Lemma adjacent_repetitions (r : str) (n : nat) :
  ~ In "}" (tl r) -> adjacent (concat (repeat (py " |" ++ r) n)) = 0.
Proof.
  intros H. induction n as [|n IH]; [reflexivity|].
  cbn [repeat concat]. rewrite adjacent_app, IH.
  assert (A : adjacent (py " |" ++ r) = 0).
  { rewrite adjacent_app, (adjacent_none r H). reflexivity. }
  rewrite A.
  assert (S : starts_close (concat (repeat (py " |" ++ r) n)) = false).
  { destruct n; reflexivity. }
  rewrite S, andb_false_r. reflexivity.
Qed.

Lemma starts_close_count (g : str) :
  starts_close g = false -> ~ In "}" (tl g) -> count "}" g = 0.
Proof.
  destruct g as [|c g]; [reflexivity|]. cbn [starts_close tl count].
  intros -> H. apply count_zero in H. rewrite H. reflexivity.
Qed.

(** The brackets of a string around its first repeat group. *)
Lemma group_brackets (pre g post : str) :
  g <> [] ->
  count "}" (pre ++ "{" :: g ++ "}" :: post)
  = count "}" pre + count "}" g + 1 + count "}" post
  /\ adjacent pre + (if starts_close g then 1 else 0) + adjacent post
     <= adjacent (pre ++ "{" :: g ++ "}" :: post).
Proof.
  intros Hg. split.
  - rewrite count_app. cbn [count]. rewrite count_app. cbn [count].
    change (chr_eqb "{" "}") with false. change (chr_eqb "}" "}") with true.
    cbv iota. lia.
  - rewrite adjacent_app.
    change ("{" :: g ++ "}" :: post) with (["{"] ++ g ++ "}" :: post).
    rewrite (adjacent_app ["{"]), (adjacent_app g).
    change (ends_open ["{"]) with true. cbn [andb].
    assert (S : starts_close (g ++ "}" :: post) = starts_close g).
    { destruct g; [contradiction | reflexivity]. }
    rewrite S. cbn [adjacent].
    destruct post as [|d post]; cbn [adjacent];
      change (chr_eqb "}" "{") with false; cbn [andb]; cbv iota;
      destruct (starts_close g); lia.
Qed.

Section StepFacts.

Variable remove_markers : str -> str.
Hypothesis deletes : only_deletes remove_markers.

(** The step of a bracket repeat. *)
Lemma bracket_step (pre g post out : str) :
  g <> [] -> ~ In "}" (tl g) ->
  expand_bracket remove_markers pre g post = Ok out ->
  (forall c, c <> "|" -> is_space c = false ->
             count c pre = 0 -> count c g = 0 -> count c post = 0 ->
             count c out = 0)
  /\ adjacent out + (if starts_close g then 1 else 0)
     <= adjacent (pre ++ "{" :: g ++ "}" :: post)
  /\ (starts_close g = false ->
      count "}" out + 1 = count "}" (pre ++ "{" :: g ++ "}" :: post)).
Proof.
  intros Hg Hc. unfold expand_bracket.
  pose proof (content_subseq g) as Sc.
  destruct (count_and_content g) as [times to_repeat]. cbn [snd] in Sc.
  pose proof (deletes to_repeat) as Sr.
  set (r := remove_markers to_repeat) in *.
  intros H. apply mjoin_facts in H. destruct H as (Hcount & Hadj).
  assert (Cr : ~ In "}" (tl r)).
  { apply (subseq_closers_at_head _ _ Sr), (subseq_closers_at_head _ _ Sc), Hc. }
  assert (Ct : ~ In "}" (tl to_repeat))
    by apply (subseq_closers_at_head _ _ Sc), Hc.
  destruct (group_brackets pre g post Hg) as (Gc & Ga).
  unfold str_mul in *.
  cbn [concat map] in Hcount, Hadj. rewrite !list_sum_cons in Hadj.
  cbn [list_sum] in Hadj. rewrite app_nil_r in Hcount.
  rewrite (adjacent_none _ Ct), (adjacent_repetitions r _ Cr) in Hadj.
  split; [|split].
  - intros c N1 N2 P G Q. rewrite (Hcount c N1 N2), !count_app.
    rewrite count_concat_repeat, count_app.
    pose proof (subseq_count c _ _ Sc). pose proof (subseq_count c _ _ Sr).
    assert (B : count c (py " |") = 0).
    { cbn [py list_ascii_of_string count].
      apply not_eq_sym, chr_eqb_neq in N1. rewrite N1.
      destruct (chr_eqb " " c) eqn:E; [|reflexivity].
      apply chr_eqb_eq in E. subst c. discriminate. }
    fold r. nia.
  - change (list_sum []) with 0 in Hadj. destruct (starts_close g); lia.
  - intros S. rewrite Gc. rewrite (Hcount "}"); [|discriminate | reflexivity].
    rewrite !count_app, count_concat_repeat, count_app.
    pose proof (starts_close_count g S Hc) as G0.
    pose proof (subseq_count "}" _ _ Sc). pose proof (subseq_count "}" _ _ Sr).
    change (count "}" (py " |")) with 0. fold r. nia.
Qed.

End StepFacts.

Lemma has_ending_letter (g : str) : Re.has_ending g = true -> In "N" g.
Proof.
  induction g as [|c g IH]; [discriminate|]. cbn [Re.has_ending].
  destruct g as [|d g]; [discriminate|].
  intros H. apply orb_true_iff in H. destruct H as [H | H].
  - apply andb_true_iff in H. destruct H as [H _]. apply chr_eqb_eq in H.
    left. exact H.
  - right. apply IH. exact H.
Qed.

Lemma remove_endings_cons (c d : ascii) (u : str) :
  Re.remove_endings (c :: d :: u)
  = if chr_eqb c "N" && is_digit d then Re.remove_endings u
    else c :: Re.remove_endings (d :: u).
Proof. reflexivity. Qed.

Lemma remove_endings_count (c : ascii) (s : str) :
  c <> "N" -> is_digit c = false ->
  count c (Re.remove_endings s) = count c s.
Proof.
  intros N D.
  assert (H : forall n s, length s <= n ->
                          count c (Re.remove_endings s) = count c s).
  { clear s. induction n as [|n IH]; intros s L.
    - destruct s; [reflexivity | simpl in L; lia].
    - destruct s as [|x [|y u]]; [reflexivity | reflexivity|].
      rewrite remove_endings_cons. cbn [length] in L.
      destruct (chr_eqb x "N" && is_digit y) eqn:E.
      + apply andb_true_iff in E. destruct E as [E1 E2].
        apply chr_eqb_eq in E1. subst x. rewrite IH by lia. cbn [count].
        apply not_eq_sym, chr_eqb_neq in N. rewrite N.
        destruct (chr_eqb y c) eqn:Y; [|reflexivity].
        apply chr_eqb_eq in Y. subst y. congruence.
      + cbn [count]. rewrite IH by (cbn [length]; lia). reflexivity. }
  apply (H (length s)). lia.
Qed.

Lemma search_first_ending_chars (s run r : str) (c : ascii) :
  Re.search_first_ending run s = Some r -> In c r -> In c run \/ In c s.
Proof.
  revert run. induction s as [|x s IH]; intros run; [discriminate|].
  cbn [Re.search_first_ending]. destruct (chr_eqb x "N").
  - destruct s as [|d s']; [discriminate|].
    destruct run as [|y run'].
    + intros H Hi. destruct (IH [] H Hi) as [[] | Hs]. right. right. exact Hs.
    + destruct (is_digit d).
      * intros H. injection H as <-. tauto.
      * intros H Hi. destruct (IH [] H Hi) as [[] | Hs]. right. right. exact Hs.
  - intros H Hi. destruct (IH _ H Hi) as [Hr | Hs].
    + apply in_app_iff in Hr. destruct Hr as [Hr | [<- | []]].
      * left. exact Hr.
      * right. left. reflexivity.
    + right. right. exact Hs.
Qed.

Lemma spaces_ending_free (s : str) (n : nat) :
  Re.spaces_ending s = Some n -> 1 <= n /\ count "}" (firstn n s) = 0.
Proof.
  revert n. induction s as [|c s IH]; intros n; [discriminate|].
  cbn [Re.spaces_ending]. destruct (is_space c) eqn:Sp.
  - destruct (Re.spaces_ending s) as [m|]; [|discriminate].
    intros H. injection H as <-. destruct (IH m eq_refl) as [_ Hm].
    split; [lia|]. cbn [firstn count]. rewrite (space_not_close c Sp). exact Hm.
  - destruct (chr_eqb c "N") eqn:E; [|discriminate].
    apply chr_eqb_eq in E. subst c.
    destruct s as [|d s]; [discriminate|].
    destruct (is_digit d) eqn:D; [|discriminate].
    intros H. injection H as <-. split; [lia|]. cbn [firstn count].
    destruct (chr_eqb d "}") eqn:E; [|reflexivity].
    apply chr_eqb_eq in E. subst d. discriminate.
Qed.

Lemma count_firstn_tail (c x : ascii) (n : nat) (t : str) :
  count c (firstn (S n) (x :: t)) = 0 ->
  chr_eqb x c = false /\ count c (firstn n t) = 0.
Proof.
  cbn [firstn count]. destruct (chr_eqb x c); [lia | tauto].
Qed.

(** Replacing ending markers by a text without closing bracket keeps the
    closing brackets of the string. *)
Lemma sub_repend_count (repeat : str) (bnd : nat) (s : str) :
  count "}" repeat = 0 ->
  forall (pos : nat) (st : Re.scan_state),
    match st with
    | Re.Dropped k => count "}" (firstn k s) = 0
    | _ => True
    end ->
    count "}" (Re.sub_repend repeat bnd pos st s) = count "}" s.
Proof.
  intros R. induction s as [|c t IH]; intros pos st Hst; [reflexivity|].
  assert (Scan :
    count "}" match Re.repend_at (c :: t) with
              | Some (g1, n) =>
                  if pos <? bnd
                  then g1 ++ repeat
                       ++ Re.sub_repend repeat bnd (S pos) (Re.Dropped (n - 1)) t
                  else c :: Re.sub_repend repeat bnd (S pos) (Re.Kept (n - 1)) t
              | None => c :: Re.sub_repend repeat bnd (S pos) Re.Outside t
              end
    = count "}" (c :: t)).
  { destruct (Re.repend_at (c :: t)) as [[g1 n]|] eqn:E.
    - destruct (pos <? bnd).
      + unfold Re.repend_at in E. rewrite !count_app, R.
        destruct (Re.is_opening c) eqn:O.
        * destruct (Re.spaces_ending t) as [m|] eqn:Sp; [|discriminate].
          injection E as <- <-. destruct (spaces_ending_free _ _ Sp) as [_ F].
          replace (S m - 1) with m by lia.
          rewrite (IH (S pos) (Re.Dropped m) F).
          unfold Re.is_opening in O.
          destruct (chr_eqb c "}") eqn:Ec;
            [apply chr_eqb_eq in Ec; subst c; discriminate|].
          cbn [count]. rewrite Ec. reflexivity.
        * destruct (Re.spaces_ending (c :: t)) as [m|] eqn:Sp; [|discriminate].
          injection E as <- <-. destruct (spaces_ending_free _ _ Sp) as [M F].
          destruct m as [|m]; [lia|].
          apply count_firstn_tail in F. destruct F as [F1 F2].
          replace (S m - 1) with m by lia.
          rewrite (IH (S pos) (Re.Dropped m) F2).
          cbn [count]. rewrite F1. reflexivity.
      + cbn [count]. rewrite (IH (S pos) (Re.Kept (n - 1)) I). reflexivity.
    - cbn [count]. rewrite (IH (S pos) Re.Outside I). reflexivity. }
  destruct st as [|[|k]|[|k]]; cbn [Re.sub_repend]; try exact Scan.
  - cbn [count]. rewrite (IH (S pos) (Re.Kept k) I). reflexivity.
  - apply count_firstn_tail in Hst. destruct Hst as [F1 F2].
    rewrite (IH (S pos) (Re.Dropped k) F2). cbn [count]. rewrite F1.
    reflexivity.
Qed.

Lemma iter_sub_repend_count (repeat : str) (bnd n : nat) (s : str) :
  count "}" repeat = 0 ->
  count "}" (Nat.iter n (Re.sub_repend repeat bnd 0 Re.Outside) s)
  = count "}" s.
Proof.
  intros R. induction n as [|n IH]; [reflexivity|].
  rewrite Nat.iter_succ.
  rewrite (sub_repend_count repeat bnd _ R 0 Re.Outside I). exact IH.
Qed.

Section NumberedStep.

Variable remove_markers : str -> str.
Hypothesis deletes : only_deletes remove_markers.

(** The step of a repeat with numbered endings whose group does not begin
    with a closing bracket. *)
Lemma numbered_step (s pre g post out : str) :
  g <> [] -> ~ In "}" (tl g) -> starts_close g = false ->
  expand_numbered remove_markers s pre g post = Ok out ->
  count "}" out + 1 = count "}" (pre ++ "{" :: g ++ "}" :: post).
Proof.
  intros Hg Hc Hs. unfold expand_numbered.
  destruct (Re.finditer Re.nrep_at 0 0 s) as [|[[start e] u] others];
    [discriminate|].
  destruct (negb (start <? match others with
                           | [] => length s
                           | (b, _, _) :: _ => b
                           end)); [discriminate|].
  destruct (mjoin [pre; Re.remove_endings g; post]) as [new | e'] eqn:M;
    cbn [bind]; [|discriminate].
  destruct (Re.search_first_ending [] g) as [group1|] eqn:F; [|discriminate].
  intros H. injection H as <-.
  pose proof (starts_close_count g Hs Hc) as G0.
  assert (R : count "}" (remove_markers group1) = 0).
  { apply count_zero. intros Hi.
    apply (subseq_in _ _ _ (deletes group1)) in Hi.
    destruct (search_first_ending_chars _ _ _ _ F Hi) as [[] | Hi'].
    apply count_zero in G0. contradiction. }
  rewrite (iter_sub_repend_count _ _ _ _ R).
  destruct (group_brackets pre g post Hg) as (Gc & _). rewrite Gc.
  apply mjoin_facts in M. destruct M as (Mc & _).
  rewrite (Mc "}"); [|discriminate | reflexivity].
  cbn [concat]. rewrite app_nil_r, !count_app.
  rewrite remove_endings_count by (try discriminate; reflexivity). lia.
Qed.

End NumberedStep.

(** ** Termination of the expansion *)

Section Termination.

Variable remove_markers : str -> str.
Hypothesis deletes : only_deletes remove_markers.

(** An invocation on a group that does not begin with a closing bracket
    leaves one closing bracket less. *)
Lemma expand_once_closers (s pre g post s' : str) :
  Re.search_repeat s = Some (pre, g, post) ->
  starts_close g = false ->
  expand_once remove_markers s = Some (Ok s') ->
  count "}" s' + 1 = count "}" s.
Proof.
  intros E S. unfold expand_once. rewrite E.
  destruct (ReFacts.search_repeat_split _ _ _ _ E) as (Es & Hg & Hc & _).
  intros H. injection H as H.
  destruct (Re.has_ending g).
  - pose proof (numbered_step remove_markers deletes s pre g post s' Hg Hc S H)
      as R.
    rewrite <- Es in R. exact R.
  - destruct (bracket_step remove_markers deletes pre g post s' Hg Hc H)
      as (_ & _ & R).
    specialize (R S). rewrite <- Es in R. exact R.
Qed.

(** An invocation on a string without the letter N. *)
Lemma expand_once_decreases (s s' : str) :
  ~ In "N" s ->
  expand_once remove_markers s = Some (Ok s') ->
  ~ In "N" s'
  /\ (adjacent s' < adjacent s
      \/ (adjacent s' <= adjacent s /\ count "}" s' < count "}" s)).
Proof.
  intros N. unfold expand_once.
  destruct (Re.search_repeat s) as [[[pre g] post]|] eqn:E; [|discriminate].
  destruct (ReFacts.search_repeat_split _ _ _ _ E) as (Es & Hg & Hc & _).
  assert (Ng : ~ In "N" g).
  { intros Hi. apply N. rewrite Es. apply in_app_iff. right. right.
    apply in_app_iff. left. exact Hi. }
  destruct (Re.has_ending g) eqn:He.
  { exfalso. apply Ng, has_ending_letter, He. }
  intros H. injection H as H.
  destruct (bracket_step remove_markers deletes pre g post s' Hg Hc H)
    as (Hn & Ha & Hb).
  rewrite <- Es in Ha, Hb. split.
  - apply count_zero. apply Hn; try discriminate; try reflexivity;
      apply count_zero; intros Hi; apply N; rewrite Es; apply in_app_iff.
    + left. exact Hi.
    + right. right. apply in_app_iff. left. exact Hi.
    + right. right. apply in_app_iff. right. right. exact Hi.
  - destruct (starts_close g).
    + left. lia.
    + right. specialize (Hb eq_refl). lia.
Qed.

Lemma fill_long_repeats_terminates_from (a : nat) :
  forall (b : nat) (s : str),
    adjacent s = a -> count "}" s = b -> ~ In "N" s ->
    exists fuel r, fill_long_repeats remove_markers fuel s = Some r.
Proof.
  induction a as [a IHa] using lt_wf_ind.
  induction b as [b IHb] using lt_wf_ind.
  intros s Ha Hb N.
  destruct (expand_once remove_markers s) as [[s' | e]|] eqn:E.
  - destruct (expand_once_decreases s s' N E) as (N' & [D | [D1 D2]]).
    + destruct (IHa (adjacent s') ltac:(lia) (count "}" s') s' eq_refl eq_refl N')
        as (fuel & r & H).
      exists (S fuel), r. cbn [fill_long_repeats]. rewrite E. exact H.
    + destruct (Nat.eq_dec (adjacent s') a) as [Ea | Na].
      * destruct (IHb (count "}" s') ltac:(lia) s' Ea eq_refl N')
          as (fuel & r & H).
        exists (S fuel), r. cbn [fill_long_repeats]. rewrite E. exact H.
      * destruct (IHa (adjacent s') ltac:(lia) (count "}" s') s'
                    eq_refl eq_refl N') as (fuel & r & H).
        exists (S fuel), r. cbn [fill_long_repeats]. rewrite E. exact H.
  - exists 1, (Raise e). cbn [fill_long_repeats]. rewrite E. reflexivity.
  - exists 1, (Ok s). cbn [fill_long_repeats]. rewrite E. reflexivity.
Qed.

End Termination.

(** C9, as amended.  An invocation of [_fill_long_repeats] finds no repeat
    group and returns, or raises, or hands a new string to the recursive
    call; the new string has exactly one closing bracket less whenever the
    group found does not begin with a closing bracket.  On a string without
    the letter N (no numbered ending) the new string has no N either and has
    fewer opening brackets immediately followed by a closing one, or no more
    of them and fewer closing brackets; so the recursion ends on every such
    string.  All this for a [_remove_markers] that only deletes
    characters. *)
Theorem long_repeats_terminate_without_endings (remove_markers : str -> str) :
  only_deletes remove_markers ->
  (forall s pre g post s',
      Re.search_repeat s = Some (pre, g, post) ->
      starts_close g = false ->
      expand_once remove_markers s = Some (Ok s') ->
      count "}" s' + 1 = count "}" s)
  /\ (forall s s',
      ~ In "N" s ->
      expand_once remove_markers s = Some (Ok s') ->
      ~ In "N" s'
      /\ (adjacent s' < adjacent s
          \/ (adjacent s' <= adjacent s /\ count "}" s' < count "}" s)))
  /\ (forall s,
      ~ In "N" s ->
      exists fuel r, fill_long_repeats remove_markers fuel s = Some r).
Proof.
  intros D. split; [|split].
  - apply expand_once_closers. exact D.
  - apply expand_once_decreases. exact D.
  - intros s N.
    exact (fill_long_repeats_terminates_from remove_markers D (adjacent s)
             (count "}" s) s eq_refl eq_refl N).
Qed.

Lemma long_repeats_terminate_without_endings_example :
  exists fuel r,
    fill_long_repeats strip_coda_segno fuel (py "{Cmaj7 {Dm7 <3x>} G7}")
    = Some r.
Proof.
  apply (long_repeats_terminate_without_endings strip_coda_segno
           strip_coda_segno_deletes).
  apply count_zero. reflexivity.
Defined.

(** C9, as stated, fails on "{}a<3x>}": the invocation finds the group
    "}a<3x>" and hands on a string with three closing brackets, one more
    than it received. *)
Lemma closing_brackets_can_multiply :
  expand_once strip_coda_segno (py "{}a<3x>}") = Some (Ok (py "}a |}a |}a"))
  /\ count "}" (py "{}a<3x>}") = 2
  /\ count "}" (py "}a |}a |}a") = 3.
Proof. repeat split. Qed.

(** ** The count and the content of a bracket repeat *)

Module CountFacts.

Import Re.

Lemma span_digits_app (ds r : str) :
  forallb is_digit ds = true ->
  match r with c :: _ => is_digit c = false | [] => True end ->
  span_digits (ds ++ r) = (ds, r).
Proof.
  intros D R. induction ds as [|d ds IH].
  - destruct r as [|c r]; [reflexivity|]. cbn [app span_digits]. rewrite R.
    reflexivity.
  - cbn [forallb] in D. apply andb_true_iff in D. destruct D as [D1 D2].
    cbn [app span_digits]. rewrite D1, (IH D2). reflexivity.
Qed.

Lemma span_digits_split (s ds r : str) :
  span_digits s = (ds, r) -> s = ds ++ r /\ forallb is_digit ds = true.
Proof.
  revert ds r. induction s as [|c s IH]; intros ds r.
  - intros H. injection H as <- <-. split; reflexivity.
  - cbn [span_digits]. destruct (is_digit c) eqn:D.
    + destruct (span_digits s) as [ds' r']. intros H. injection H as <- <-.
      destruct (IH ds' r' eq_refl) as (-> & F).
      split; [reflexivity|]. cbn [forallb]. rewrite D, F. reflexivity.
    + intros H. injection H as <- <-. split; reflexivity.
Qed.

Lemma count_at_annotation (ds b : str) :
  digits ds -> count_at (annotation ds ++ b) = Some (ds, length ds + 3).
Proof.
  intros [N D]. unfold annotation, count_at. cbn [app].
  change (chr_eqb "<" "<") with true. cbv iota.
  rewrite <- app_assoc, (span_digits_app ds (py "x>" ++ b) D eq_refl).
  destruct ds as [|d ds]; [contradiction|]. reflexivity.
Qed.

Lemma count_at_split (s ds : str) (n : nat) :
  count_at s = Some (ds, n) ->
  digits ds /\ n = length ds + 3 /\ exists rest, s = annotation ds ++ rest.
Proof.
  unfold count_at. destruct s as [|c t]; [discriminate|].
  destruct (chr_eqb c "<") eqn:C; [|discriminate].
  apply chr_eqb_eq in C. subst c.
  destruct (span_digits t) as [ds' r] eqn:S.
  destruct (span_digits_split _ _ _ S) as (-> & D).
  destruct ds' as [|d ds']; [discriminate|].
  destruct r as [|x [|g r]]; try discriminate.
  destruct (chr_eqb x "x" && chr_eqb g ">") eqn:E; [|discriminate].
  apply andb_true_iff in E. destruct E as [E1 E2].
  apply chr_eqb_eq in E1. apply chr_eqb_eq in E2. subst x g.
  intros H. injection H as <- <-.
  split; [split; [discriminate | exact D]|]. split; [reflexivity|].
  exists r. unfold annotation. cbn [app]. rewrite <- app_assoc. reflexivity.
Qed.

Lemma annotated_cons (c : ascii) (s : str) : annotated s -> annotated (c :: s).
Proof.
  intros (a & ds & b & D & ->). exists (c :: a), ds, b.
  split; [exact D | reflexivity].
Qed.

Lemma finditer_none (s : str) :
  ~ annotated s -> forall pos skip, finditer count_at pos skip s = [].
Proof.
  induction s as [|c s IH]; intros N pos skip; [reflexivity|].
  assert (N' : ~ annotated s) by (intros H; apply N, annotated_cons, H).
  cbn [finditer]. destruct skip as [|k]; [|apply IH, N'].
  destruct (count_at (c :: s)) as [[ds n]|] eqn:E; [|apply IH, N'].
  exfalso. apply N. destruct (count_at_split _ _ _ E) as (D & _ & rest & ->).
  exists [], ds, rest. split; [exact D | reflexivity].
Qed.

Lemma finditer_cons {A : Type} (at_ : str -> option (A * nat))
    (pos skip : nat) (c : ascii) (t : str) :
  finditer at_ pos skip (c :: t)
  = match skip with
    | S k => finditer at_ (S pos) k t
    | O =>
        match at_ (c :: t) with
        | Some (a, n) => (pos, pos + n, a) :: finditer at_ (S pos) (n - 1) t
        | None => finditer at_ (S pos) 0 t
        end
    end.
Proof. reflexivity. Qed.

Lemma finditer_skip {A : Type} (at_ : str -> option (A * nat))
    (u b : str) (pos : nat) :
  finditer at_ pos (length u) (u ++ b) = finditer at_ (pos + length u) 0 b.
Proof.
  revert pos. induction u as [|c u IH]; intros pos.
  - cbn [length app]. rewrite Nat.add_0_r. destruct b; reflexivity.
  - cbn [length app finditer]. rewrite IH. f_equal. lia.
Qed.

Lemma digits_no_angle (ds : str) :
  forallb is_digit ds = true -> count "<" ds = 0.
Proof.
  induction ds as [|d ds IH]; [reflexivity|]. cbn [forallb count].
  intros H. apply andb_true_iff in H. destruct H as [H1 H2].
  destruct (chr_eqb d "<") eqn:E.
  - apply chr_eqb_eq in E. subst d. discriminate.
  - apply IH. exact H2.
Qed.

(** The scan of the text before an annotation ends where the annotation
    starts. *)
Lemma finditer_prefix (a r : str) :
  forall pos skip,
    count "<" (firstn skip (a ++ "<" :: r)) = 0 ->
    exists X, finditer count_at pos skip (a ++ "<" :: r)
              = X ++ finditer count_at (pos + length a) 0 ("<" :: r).
Proof.
  induction a as [|c a IH]; intros pos skip H.
  - destruct skip as [|k]; [|discriminate].
    exists []. rewrite Nat.add_0_r. reflexivity.
  - replace (pos + length (c :: a)) with (S pos + length a)
      by (cbn [length]; lia).
    change ((c :: a) ++ "<" :: r) with (c :: a ++ "<" :: r) in H |- *.
    rewrite finditer_cons. destruct skip as [|k].
    + destruct (count_at (c :: a ++ "<" :: r)) as [[ds n]|] eqn:E.
      * destruct (count_at_split _ _ _ E) as ((_ & D) & -> & rest & Er).
        unfold annotation in Er. cbn [app] in Er. injection Er as -> Er.
        destruct (IH (S pos) (length ds + 3 - 1)) as (X & ->).
        { rewrite Er. replace (length ds + 3 - 1) with (length (ds ++ py "x>"))
            by (rewrite length_app; cbn [py list_ascii_of_string length]; lia).
          rewrite firstn_app, Nat.sub_diag.
          rewrite firstn_all. cbn [firstn]. rewrite app_nil_r, count_app.
          rewrite (digits_no_angle ds D). reflexivity. }
        exists ((pos, pos + (length ds + 3), ds) :: X). reflexivity.
      * destruct (IH (S pos) 0 eq_refl) as (X & ->).
        exists X. reflexivity.
    + apply count_firstn_tail in H. destruct H as [_ H].
      destruct (IH (S pos) k H) as (X & ->).
      exists X. reflexivity.
Qed.

Lemma annotation_length (ds : str) : length (annotation ds) = length ds + 3.
Proof.
  unfold annotation. cbn [length]. rewrite length_app.
  cbn [py list_ascii_of_string length]. lia.
Qed.

Lemma counted_sound (g : str) (times : Z) (content : str) :
  counted g times content -> count_and_content g = (times, content).
Proof.
  intros H. unfold count_and_content. destruct H as [g N | a ds b D N].
  - rewrite (finditer_none g N). reflexivity.
  - set (r := (ds ++ py "x>") ++ b).
    destruct (finditer_prefix a r 0 0 eq_refl) as (X & E).
    change (a ++ annotation ds ++ b) with (a ++ "<" :: r) at 1.
    rewrite E. cbn [Nat.add]. rewrite finditer_cons.
    change ("<" :: r) with (annotation ds ++ b).
    rewrite (count_at_annotation ds b D).
    subst r. replace (length ds + 3 - 1) with (length (ds ++ py "x>"))
      by (rewrite length_app; cbn [py list_ascii_of_string length]; lia).
    rewrite finditer_skip, (finditer_none b N), rev_unit.
    rewrite slice_to_app.
    replace (length a + (length ds + 3)) with (length (a ++ annotation ds))
      by (rewrite length_app, annotation_length; reflexivity).
    rewrite app_assoc, slice_from_app. reflexivity.
Qed.

End CountFacts.

Lemma no_ending_has_ending (g : str) : no_ending g <-> Re.has_ending g = false.
Proof.
  unfold no_ending. induction g as [|c g IH].
  - split; [reflexivity|]. intros _ a d b H. destruct a; discriminate.
  - cbn [Re.has_ending]. destruct g as [|d g].
    + split; [reflexivity|]. intros _ a e b H.
      destruct a as [|x [|y a]]; discriminate.
    + rewrite orb_false_iff, <- IH. split.
      * intros H. split.
        -- destruct (chr_eqb c "N") eqn:E; [|reflexivity].
           apply chr_eqb_eq in E. subst c. cbn [andb].
           exact (H [] d g eq_refl).
        -- intros a e b Hg. apply (H (c :: a) e b). rewrite Hg. reflexivity.
      * intros [H1 H2] a e b Hg. destruct a as [|x a].
        -- cbn [app] in Hg. injection Hg as -> -> _. exact H1.
        -- cbn [app] in Hg. injection Hg as _ Hg. exact (H2 a e b Hg).
Qed.

(** ** When the metrical join returns *)

Lemma lstrip_blank (x : str) : is_blank x = false -> lstrip x <> [].
Proof.
  induction x as [|c x IH]; [discriminate|]. cbn [is_blank forallb lstrip].
  destruct (is_space c); [exact IH | discriminate].
Qed.

Lemma is_blank_app (x y : str) : is_blank (x ++ y) = is_blank x && is_blank y.
Proof. apply forallb_app. Qed.

Lemma is_blank_rev (x : str) : is_blank (rev x) = is_blank x.
Proof.
  induction x as [|c x IH]; [reflexivity|]. cbn [rev].
  rewrite is_blank_app, IH. cbn [is_blank forallb].
  rewrite andb_true_r. apply andb_comm.
Qed.

Lemma separator_ok (last next : str) :
  is_blank last = false -> is_blank next = false ->
  exists sep, separator last next = Ok sep /\ (sep = py "|" \/ sep = []).
Proof.
  intros L N. unfold separator, index_last, rstrip. rewrite rev_involutive.
  rewrite <- is_blank_rev in L. apply lstrip_blank in L. apply lstrip_blank in N.
  destruct (lstrip (rev last)) as [|a l]; [contradiction|]. cbn [bind].
  destruct (chr_eqb a "|"); [eauto|].
  unfold index_first. destruct (lstrip next) as [|b l']; [contradiction|].
  cbn [bind]. destruct (chr_eqb b "|"); eauto.
Qed.

Lemma mjoin_loop_ok (rest : list str) :
  forall last,
    is_blank last = false ->
    (forall x, In x rest -> is_blank x = false) ->
    exists more, mjoin_loop last rest = Ok more.
Proof.
  induction rest as [|next rest IH]; intros last L R; [eexists; reflexivity|].
  cbn [mjoin_loop].
  assert (N : is_blank next = false) by (apply R; left; reflexivity).
  destruct (separator_ok last next L N) as (sep & -> & Hs). cbn [bind].
  destruct (IH (sep ++ next)) as (more & ->).
  - rewrite is_blank_app, N. apply andb_false_r.
  - intros x Hx. apply R. right. exact Hx.
  - eexists. reflexivity.
Qed.

(** [mjoin] raises only when all its arguments are blank. *)
Lemma mjoin_ok (strings : list str) :
  (exists x, In x strings /\ is_blank x = false) ->
  exists out, mjoin strings = Ok out.
Proof.
  intros (x & Hx & B). unfold mjoin.
  assert (F : In x (filter (fun cs => negb (is_blank cs)) strings)).
  { apply filter_In. rewrite B. split; [exact Hx | reflexivity]. }
  assert (A : forall y, In y (filter (fun cs => negb (is_blank cs)) strings) ->
                        is_blank y = false).
  { intros y Hy. apply filter_In in Hy. destruct Hy as [_ Hy].
    apply negb_true_iff. exact Hy. }
  destruct (filter (fun cs => negb (is_blank cs)) strings) as [|first rest];
    [destruct F|].
  destruct (mjoin_loop_ok rest first) as (more & ->).
  - apply A. left. reflexivity.
  - intros y Hy. apply A. right. exact Hy.
  - eexists. reflexivity.
Qed.

Lemma not_annotated_nil : ~ annotated [].
Proof.
  intros (a & ds & b & _ & H). destruct a; discriminate.
Qed.

(** C2.  When the group found has no numbered ending, an invocation of
    [_fill_long_repeats] hands to the recursive call the metrical join of
    the text before the group, the content of the group, the repetitions
    and the text after the group.  The count is the number of the last
    annotation [<Nx>] of the group, and 2 without one; the content is the
    group without that annotation; the repetitions are count - 1 copies of
    the marker-stripped content, each behind a bar separator.  The join
    raises only when all four texts are blank.  The example of the
    specification follows, equal to the expected text once split at white
    space. *)
Theorem bracket_repeat_expansion
    (remove_markers : str -> str) (s pre g post : str)
    (times : Z) (content : str) :
  Re.search_repeat s = Some (pre, g, post) ->
  no_ending g ->
  counted g times content ->
  let repetitions :=
    str_mul (py " |" ++ remove_markers content) (times - 1) in
  s = pre ++ "{" :: g ++ "}" :: post
  /\ expand_once remove_markers s
     = Some (mjoin [pre; content; repetitions; post])
  /\ (forall fuel,
      fill_long_repeats remove_markers (S fuel) s
      = match mjoin [pre; content; repetitions; post] with
        | Ok new_chord_string =>
            fill_long_repeats remove_markers fuel new_chord_string
        | Raise e => Some (Raise e)
        end)
  /\ (is_blank pre = false \/ is_blank content = false
      \/ (2 <= times)%Z \/ is_blank post = false ->
      exists new_chord_string,
        mjoin [pre; content; repetitions; post] = Ok new_chord_string)
  /\ (s = py "{Cmaj7 Dm7 <3x>}" ->
      remove_markers (py "Cmaj7 Dm7 ") = py "Cmaj7 Dm7 " ->
      fill_long_repeats remove_markers 2 s
      = Some (Ok (py "Cmaj7 Dm7  |Cmaj7 Dm7  |Cmaj7 Dm7 "))
      /\ split (py "Cmaj7 Dm7  |Cmaj7 Dm7  |Cmaj7 Dm7 ")
         = split (py "Cmaj7 Dm7 |Cmaj7 Dm7 |Cmaj7 Dm7")).
Proof.
  intros E N C repetitions.
  destruct (ReFacts.search_repeat_split _ _ _ _ E) as (Es & _).
  apply no_ending_has_ending in N.
  assert (X : expand_once remove_markers s
              = Some (mjoin [pre; content; repetitions; post])).
  { unfold expand_once. rewrite E, N. unfold expand_bracket.
    rewrite (CountFacts.counted_sound g times content C). reflexivity. }
  split; [exact Es|]. split; [exact X|]. split; [|split].
  - intros fuel. cbn [fill_long_repeats]. rewrite X.
    destruct (mjoin [pre; content; repetitions; post]); reflexivity.
  - intros H. apply mjoin_ok.
    destruct H as [H | [H | [H | H]]].
    + exists pre. split; [left; reflexivity | exact H].
    + exists content. split; [right; left; reflexivity | exact H].
    + exists repetitions. split; [right; right; left; reflexivity|].
      subst repetitions. unfold str_mul.
      destruct (Z.to_nat (times - 1)) as [|n] eqn:T; [lia|].
      reflexivity.
    + exists post. split; [right; right; right; left; reflexivity | exact H].
  - intros -> R. split; [|vm_compute; reflexivity].
    assert (Es' : Re.search_repeat (py "{Cmaj7 Dm7 <3x>}")
                  = Some ([], py "Cmaj7 Dm7 <3x>", []))
      by (vm_compute; reflexivity).
    assert (Ec : count_and_content (py "Cmaj7 Dm7 <3x>")
                 = (3%Z, py "Cmaj7 Dm7 ")) by (vm_compute; reflexivity).
    cbn [fill_long_repeats]. unfold expand_once at 1. rewrite Es'.
    change (Re.has_ending (py "Cmaj7 Dm7 <3x>")) with false. cbv iota.
    unfold expand_bracket. rewrite Ec, R. vm_compute. reflexivity.
Qed.

Lemma bracket_repeat_expansion_example :
  fill_long_repeats strip_coda_segno 2 (py "{Cmaj7 Dm7 <3x>}")
  = Some (Ok (py "Cmaj7 Dm7  |Cmaj7 Dm7  |Cmaj7 Dm7 ")).
Proof.
  refine (proj1 (proj2 (proj2 (proj2 (proj2
    (bracket_repeat_expansion strip_coda_segno (py "{Cmaj7 Dm7 <3x>}")
       [] (py "Cmaj7 Dm7 <3x>") [] 3 (py "Cmaj7 Dm7 ") eq_refl _ _))))
    eq_refl eq_refl)).
  - apply no_ending_has_ending. reflexivity.
  - apply (counted_explicit (py "Cmaj7 Dm7 ") (py "3") []).
    + split; [discriminate | reflexivity].
    + exact not_annotated_nil.
Defined.

(** ** Further properties of the reconciler, the join and the codas *)

(** The reconciler leaves its own results alone: applied twice it does what
    it does once.  And in a result every closing bracket has an opening
    bracket somewhere before it. *)
Theorem reconciler_idempotent (s : str) :
  let r := Reconciler.insert_missing_repeat_brackets s in
  Reconciler.insert_missing_repeat_brackets r = r
  /\ (forall a b, r = a ++ "}" :: b -> In "{" a).
Proof.
  cbv zeta.
  assert (P : forall a b,
             Reconciler.insert_missing_repeat_brackets s = a ++ "}" :: b ->
             In "{" a).
  { intros a b H.
    destruct (in_dec ascii_dec "{" a) as [I | I]; [exact I | exfalso].
    unfold Reconciler.insert_missing_repeat_brackets in H.
    pose proof (reconciler_condition s) as C.
    destruct ((find "}" s >? -1)
              && ((find "{" s =? -1) || (find "{" s >? find "}" s)))%Z.
    - destruct a as [|x a]; [discriminate|].
      injection H as <- _. apply I. left. reflexivity.
    - assert (X : false = true) by (apply C; exists a, b; split; assumption).
      discriminate. }
  split; [|exact P].
  set (r := Reconciler.insert_missing_repeat_brackets s) in *.
  unfold Reconciler.insert_missing_repeat_brackets at 1.
  pose proof (reconciler_condition r) as C.
  destruct ((find "}" r >? -1)
            && ((find "{" r =? -1) || (find "{" r >? find "}" r)))%Z;
    [|reflexivity].
  destruct (proj1 C eq_refl) as (a & b & H & I).
  exfalso. exact (I (P a b H)).
Qed.

(** [mjoin] raises, and then [IndexError], exactly when every one of its
    arguments is blank; otherwise it returns a string. *)
Theorem mjoin_raises_when_all_blank (strings : list str) :
  (forallb is_blank strings = true /\ mjoin strings = Raise IndexError)
  \/ (forallb is_blank strings = false /\ exists out, mjoin strings = Ok out).
Proof.
  destruct (forallb is_blank strings) eqn:B.
  - left. split; [reflexivity|]. unfold mjoin.
    replace (filter (fun cs => negb (is_blank cs)) strings) with (@nil str);
      [reflexivity|].
    symmetry. induction strings as [|x l IH]; [reflexivity|].
    cbn [forallb] in B. apply andb_true_iff in B. destruct B as [B1 B2].
    cbn [filter]. rewrite B1. cbn [negb]. exact (IH B2).
  - right. split; [reflexivity|]. apply mjoin_ok.
    induction strings as [|x l IH]; [discriminate|].
    cbn [forallb] in B. destruct (is_blank x) eqn:X.
    + destruct (IH B) as (y & Hy & By). exists y. split; [right|]; assumption.
    + exists x. split; [left; reflexivity | exact X].
Qed.

Lemma remove_char_concat (c : ascii) (l : list str) :
  remove_char c (concat l) = concat (map (remove_char c) l).
Proof.
  induction l as [|x l IH]; [reflexivity|].
  cbn [concat map]. rewrite remove_char_app, IH. reflexivity.
Qed.

Lemma mjoin_loop_bars (rest : list str) :
  forall (last : str) (more : list str),
    mjoin_loop last rest = Ok more ->
    remove_char "|" (concat more) = remove_char "|" (concat rest)
    /\ subseq (concat rest) (concat more)
    /\ length (concat more) <= length (concat rest) + length rest.
Proof.
  induction rest as [|next rest IH]; intros last more.
  - intros H. injection H as <-. split; [reflexivity|].
    split; [constructor | reflexivity].
  - cbn [mjoin_loop].
    destruct (separator last next) as [sep | e] eqn:S; cbn [bind]; [|discriminate].
    destruct (mjoin_loop (sep ++ next) rest) as [more' | e] eqn:M; cbn [bind];
      [|discriminate].
    intros H. injection H as <-.
    destruct (separator_cases _ _ _ S) as (Hs & _ & _).
    destruct (IH _ _ M) as (H1 & H2 & H3).
    cbn [concat]. rewrite !remove_char_app, H1, !length_app.
    destruct Hs as [-> | ->].
    + split; [reflexivity|]. split.
      * cbn [py list_ascii_of_string app]. apply subseq_skip.
        apply subseq_app; [apply subseq_refl | exact H2].
      * cbn [py list_ascii_of_string app length]. lia.
    + split; [reflexivity|]. split.
      * cbn [app]. apply subseq_app; [apply subseq_refl | exact H2].
      * cbn [app length]. lia.
Qed.

(** All [mjoin] adds to its arguments is bars: its result is the
    concatenation of the arguments that are not blank with some bars
    inserted, at most one between two consecutive ones; so the two agree once
    the bars are removed. *)
Theorem mjoin_adds_only_bars (strings : list str) (out : str) :
  mjoin strings = Ok out ->
  let pre_chords := filter (fun cs => negb (is_blank cs)) strings in
  remove_char "|" out = remove_char "|" (concat pre_chords)
  /\ subseq (concat pre_chords) out
  /\ length out + 1 <= length (concat pre_chords) + length pre_chords.
Proof.
  unfold mjoin.
  destruct (filter (fun cs => negb (is_blank cs)) strings) as [|first rest];
    [discriminate|].
  destruct (mjoin_loop first rest) as [more | e] eqn:M; cbn [bind]; [|discriminate].
  intros H. injection H as <-. cbv zeta.
  destruct (mjoin_loop_bars _ _ _ M) as (H1 & H2 & H3).
  cbn [concat]. rewrite !remove_char_app, H1, !length_app. cbn [length].
  split; [reflexivity|]. split; [|lia].
  apply subseq_app; [apply subseq_refl | exact H2].
Qed.

Lemma mjoin_adds_only_bars_example :
  mjoin [py "A "; py " "; py "B|"; py "|C"] = Ok (py "A |B||C")
  /\ remove_char "|" (py "A |B||C") = py "A BC"
  /\ length (py "A |B||C") + 1 <= 6 + 3.
Proof.
  split; [reflexivity|].
  destruct (mjoin_adds_only_bars [py "A "; py " "; py "B|"; py "|C"]
              (py "A |B||C") eq_refl) as (H1 & _ & H3).
  split; [exact H1 | exact H3].
Defined.

(** A string [_fill_codas] returns holds no coda mark; when the input had
    two of them it holds no segno mark either, and otherwise it has the
    segno marks of the input. *)
Theorem fill_codas_leaves_no_coda (s out : str) :
  Codas.fill_codas s = Ok out ->
  ~ In "Q" out
  /\ (count "Q" s = 2 -> ~ In "S" out)
  /\ (count "Q" s < 2 -> count "S" out = count "S" s).
Proof.
  unfold Codas.fill_codas.
  destruct (2 <? count "Q" s) eqn:E2; [discriminate|].
  apply Nat.ltb_ge in E2.
  destruct (count "Q" s =? 1) eqn:E1.
  - apply Nat.eqb_eq in E1. intros H. injection H as <-.
    split; [|split].
    + unfold remove_char. intros I. apply filter_In in I. destruct I as [_ I].
      rewrite chr_eqb_refl in I. discriminate.
    + lia.
    + intros _. unfold remove_char. clear. induction s as [|c s IH]; [reflexivity|].
      cbn [filter count]. destruct (chr_eqb c "Q") eqn:Q; cbn [negb].
      * apply chr_eqb_eq in Q. subst c. exact IH.
      * cbn [count]. rewrite IH. reflexivity.
  - apply Nat.eqb_neq in E1.
    destruct (count "Q" s =? 2) eqn:E3.
    + apply Nat.eqb_eq in E3.
      destruct (positions "Q" s) as [|q1 [|q2 [|q3 l]]]; try discriminate.
      intros H. injection H as <-.
      split; [|split; [|lia]].
      * unfold Codas.remove_QS. intros I. apply filter_In in I.
        destruct I as [_ I]. rewrite chr_eqb_refl in I. discriminate.
      * intros _. unfold Codas.remove_QS. intros I. apply filter_In in I.
        destruct I as [_ I]. rewrite chr_eqb_refl, orb_true_r in I. discriminate.
    + apply Nat.eqb_neq in E3. intros H. injection H as <-.
      split; [|split; [lia | reflexivity]].
      apply count_zero. lia.
Qed.

Lemma fill_codas_leaves_no_coda_example :
  Codas.fill_codas (py "A S B Q C | D Q E") = Ok (py "A  B  C | D  B  | E")
  /\ ~ In "Q" (py "A  B  C | D  B  | E")
  /\ ~ In "S" (py "A  B  C | D  B  | E").
Proof.
  split; [reflexivity|].
  destruct (fill_codas_leaves_no_coda (py "A S B Q C | D Q E")
              (py "A  B  C | D  B  | E") eq_refl) as (H1 & H2 & _).
  split; [exact H1 | exact (H2 eq_refl)].
Defined.

(** ** Measures without repeat markers *)

Lemma split_rx_none (s cur : str) :
  (forall d, In d s -> is_rx d = false) -> split_rx cur s = [cur ++ s].
Proof.
  revert cur. induction s as [|c s IH]; intros cur H; cbn [split_rx].
  - rewrite app_nil_r. reflexivity.
  - rewrite (H c) by (left; reflexivity).
    rewrite IH by (intros d Hd; apply H; right; exact Hd).
    rewrite <- app_assoc. reflexivity.
Qed.

Lemma findall_rx_none (s : str) :
  (forall d, In d s -> is_rx d = false) -> findall_rx s = [].
Proof.
  intros H. unfold findall_rx.
  replace (filter is_rx s) with (@nil ascii); [reflexivity|].
  symmetry. induction s as [|c s IH]; [reflexivity|]. cbn [filter].
  rewrite (H c) by (left; reflexivity).
  apply IH. intros d Hd. apply H. right. exact Hd.
Qed.

Lemma marker_free_chars (m : str) (d : ascii) :
  marker_free m -> In d m -> is_rx d = false.
Proof.
  intros [Hr Hx] Hd. destruct (is_rx d) eqn:E; [|reflexivity].
  apply is_rx_cases in E. destruct E as [-> | ->]; contradiction.
Qed.

Lemma measures_xt_free (m : str) :
  marker_free m ->
  measures_xt m = if is_blank m then [] else [strip m].
Proof.
  intros F. unfold measures_xt.
  rewrite split_rx_none, findall_rx_none
    by (intros d; apply marker_free_chars; exact F).
  cbn [app combine flat_map fst snd filter].
  change (is_blank []) with true. cbn [negb].
  destruct (is_blank m); reflexivity.
Qed.

Lemma pre_measures_free (measures : list str) :
  (forall m, In m measures -> marker_free m) ->
  pre_measures measures
  = map strip (filter (fun m => negb (is_blank m)) measures).
Proof.
  unfold pre_measures. induction measures as [|m l IH]; intros H; [reflexivity|].
  cbn [flat_map filter]. rewrite measures_xt_free by (apply H; left; reflexivity).
  rewrite IH by (intros y Hy; apply H; right; exact Hy).
  destruct (is_blank m); reflexivity.
Qed.

Lemma marker_free_not_marker (y : str) :
  marker_free y -> str_eqb y (py "x") = false /\ str_eqb y (py "r") = false.
Proof.
  intros [Hr Hx]. split; apply str_eqb_neq; intros ->;
    [apply Hx | apply Hr]; left; reflexivity.
Qed.

Lemma add_slots_free (l : list str) :
  (forall y, In y l -> marker_free y) -> add_slots l = l.
Proof.
  induction l as [|y l IH]; intros H; [reflexivity|]. cbn [add_slots].
  destruct (marker_free_not_marker y) as [_ ->]; [apply H; left; reflexivity|].
  rewrite IH by (intros z Hz; apply H; right; exact Hz). reflexivity.
Qed.

Lemma infill_loop_free (rm : str -> str) (l : list str) (n k : nat) :
  (forall y, In y l -> marker_free y) ->
  k + n = length l ->
  infill_loop rm n (Z.of_nat k) l = Ok l.
Proof.
  intros H. revert k. induction n as [|n IH]; intros k L; [reflexivity|].
  cbn [infill_loop]. unfold infill_at.
  rewrite py_get_nat by lia. cbn [bind].
  destruct (marker_free_not_marker (nth k l [])) as [-> ->];
    [apply H, nth_In; lia|].
  cbn [bind]. replace (Z.of_nat k + 1)%Z with (Z.of_nat (S k)) by lia.
  apply IH. lia.
Qed.

(** On measures that hold neither repeat marker, [_fill_single_double_repeats]
    returns the measures that are not blank, each stripped of the white space
    around it, and drops the blank ones; [_remove_markers] is not called. *)
Theorem measures_without_markers_are_stripped
    (remove_markers : str -> str) (measures : list str) :
  (forall m, In m measures -> marker_free m) ->
  fill_single_double_repeats remove_markers measures
  = Ok (map strip (filter (fun m => negb (is_blank m)) measures)).
Proof.
  intros H. unfold fill_single_double_repeats.
  rewrite pre_measures_free by exact H.
  set (l := map strip (filter (fun m => negb (is_blank m)) measures)).
  assert (F : forall y, In y l -> marker_free y).
  { intros y Hy. apply in_map_iff in Hy. destruct Hy as (m & <- & Hm).
    apply marker_free_strip, H. apply filter_In in Hm. tauto. }
  rewrite add_slots_free by exact F.
  destruct l as [|y l']; [reflexivity|].
  replace (length (y :: l') - 1) with (length l')
    by (cbn [length]; lia).
  apply (infill_loop_free remove_markers (y :: l') (length l') 1);
    [exact F | reflexivity].
Qed.

Lemma measures_without_markers_are_stripped_example :
  fill_single_double_repeats strip_coda_segno
    [py " C G7 "; py "  "; py "Am"]
  = Ok [py "C G7"; py "Am"].
Proof.
  apply (measures_without_markers_are_stripped strip_coda_segno
           [py " C G7 "; py "  "; py "Am"]).
  intros m [<- | [<- | [<- | []]]]; split; intros H; vm_compute in H;
    repeat (destruct H as [H | H]; [discriminate|]); exact H.
Defined.

(** ** The outcomes of the annotation extractor *)

Lemma split_ws_nil (s cur : str) :
  split_ws cur s = [] <-> cur = [] /\ is_blank s = true.
Proof.
  revert cur. induction s as [|c s IH]; intros cur; cbn [split_ws is_blank forallb].
  - destruct cur; split; try tauto; try discriminate.
    intros [H _]. discriminate.
  - destruct (is_space c); cbn [andb].
    + destruct cur as [|d cur].
      * apply IH.
      * split; [discriminate | intros [H _]; discriminate].
    + rewrite IH. split; [|intros [_ H]; discriminate].
      intros [H _]. destruct cur; discriminate.
Qed.

Lemma split_nil (s : str) : split s = [] <-> is_blank s = true.
Proof. unfold split. rewrite split_ws_nil. tauto. Qed.

Section AnnotationOutcomes.

Variable num : Type.
Variable true_div : Z -> Z -> num.
Variable zero : num.
Variable add : num -> num -> num.

Lemma chords_from_outcome (b : Z) (measures : list str) :
  forall m,
    (existsb is_blank measures = true
     /\ chords_from num true_div zero add b m measures
        = Raise ZeroDivisionError)
    \/ (existsb is_blank measures = false
        /\ exists chords,
             chords_from num true_div zero add b m measures = Ok chords).
Proof.
  induction measures as [|measure rest IH]; intros m.
  - right. split; [reflexivity | eexists; reflexivity].
  - cbn [existsb chords_from]. destruct (is_blank measure) eqn:B; cbn [orb].
    + left. split; [reflexivity|]. unfold measure_events.
      apply split_nil in B. rewrite B. reflexivity.
    + rewrite measure_events_spaced
        by (intros E; apply split_nil in E; congruence).
      cbn [bind]. destruct (IH (m + 1)%Z) as [[E ->] | [E (chords & ->)]].
      * left. split; [exact E | reflexivity].
      * right. split; [exact E | eexists; reflexivity].
Qed.

End AnnotationOutcomes.

(** [extract_annotations_from_tune] raises [ZeroDivisionError] exactly when
    some measure is blank, whatever the key is; it raises [AssertionError]
    exactly when no measure is blank and the key is not one single token;
    and it returns in the remaining case, in which no measure is blank and
    the key is one token.  A tune without measures is in the last two
    cases. *)
Theorem annotations_outcomes
    (num : Type) (true_div : Z -> Z -> num) (zero : num)
    (add : num -> num -> num) (t : tune) :
  let r := extract_annotations_from_tune num true_div zero add t in
  let some_blank := existsb is_blank (measures_as_strings t) in
  let one_key := length (split (key t)) =? 1 in
  (r = Raise ZeroDivisionError <-> some_blank = true)
  /\ (r = Raise AssertionError <-> some_blank = false /\ one_key = false)
  /\ ((exists v, r = Ok v) <-> some_blank = false /\ one_key = true).
Proof.
  cbv zeta. unfold extract_annotations_from_tune.
  destruct (chords_from_outcome num true_div zero add
              (fst (time_signature t)) (measures_as_strings t) 1%Z)
    as [[E ->] | [E (chords & ->)]]; rewrite E; cbn [bind].
  - split; [tauto|]. split.
    + split; [discriminate | intros [H _]; discriminate].
    + split; [intros [v H]; discriminate | intros [H _]; discriminate].
  - destruct (length (split (key t)) =? 1); cbn [negb].
    + split; [split; discriminate|]. split.
      * split; [discriminate | intros [_ H]; discriminate].
      * split; [tauto | intros _; eexists; reflexivity].
    + split; [split; discriminate|]. split; [tauto|].
      split; [intros [v H]; discriminate | intros [_ H]; discriminate].
Qed.

(** ** What the slash filler returns, and that it returns *)

Module ChordChars.

Import Chord.

Lemma quality_split (s : str) : s = fst (quality s) ++ snd (quality s).
Proof.
  induction s as [|c s IH]; [reflexivity|]. cbn [quality].
  destruct (is_note c || chr_eqb c "/"); [reflexivity|].
  destruct (quality s) as [q r]. cbn [fst snd] in *. cbn [app]. congruence.
Qed.

Lemma bass_in (r : str) (c : ascii) : In c (bass r) -> In c r.
Proof.
  unfold bass. destruct r as [|x [|y t]]; try (intros []).
  destruct (chr_eqb x "/" && is_note y); [|intros []].
  destruct t as [|a t].
  - intros H. exact H.
  - destruct (chr_eqb a "#" || chr_eqb a "b"); cbn [In]; tauto.
Qed.

Lemma chord_at_in (s chord : str) (c : ascii) :
  chord_at s = Some chord -> In c chord -> In c s.
Proof.
  unfold chord_at. destruct s as [|d s]; [discriminate|].
  destruct (is_root d); [|discriminate].
  pose proof (quality_split s) as Q. destruct (quality s) as [q r].
  cbn [fst snd] in Q. intros H. injection H as <-.
  intros [H | H]; [left; exact H | right].
  rewrite Q. apply in_app_iff. apply in_app_iff in H.
  destruct H as [H | H]; [left; exact H | right; exact (bass_in r c H)].
Qed.

Lemma findall_in (s : str) (c : ascii) (chord : str) :
  forall prev skip,
    In chord (findall prev skip s) -> In c chord -> In c s.
Proof.
  induction s as [|d s IH]; intros prev skip; [intros []|].
  cbn [findall]. destruct skip as [|k].
  - destruct (if match prev with Some p => chr_eqb p "/" | None => false end
              then None else chord_at (d :: s)) as [ch |] eqn:E.
    + intros [<- | H] Hc.
      * destruct (match prev with Some p => chr_eqb p "/" | None => false end);
          [discriminate|].
        exact (chord_at_in _ _ _ E Hc).
      * right. exact (IH _ _ H Hc).
    + intros H Hc. right. exact (IH _ _ H Hc).
  - intros H Hc. right. exact (IH _ _ H Hc).
Qed.

Lemma last_chord_in (s chord : str) (c : ascii) :
  last_chord s = Ok chord -> In c chord -> In c s.
Proof.
  unfold last_chord. destruct (rev (findall None 0 s)) as [|ch l] eqn:E;
    [discriminate|].
  intros H. injection H as <-. apply (findall_in s c ch None 0).
  apply in_rev. rewrite E. left. reflexivity.
Qed.

End ChordChars.

Lemma update_update (l : list str) (j : nat) (v w : str) :
  update (update l j v) j w = update l j w.
Proof.
  revert j. induction l as [|x l IH]; intros [|j]; cbn [update];
    try reflexivity.
  rewrite IH. reflexivity.
Qed.

Lemma update_nth (l : list str) (j : nat) : update l j (nth j l []) = l.
Proof.
  revert j. induction l as [|x l IH]; intros [|j]; cbn [update nth];
    try reflexivity.
  rewrite IH. reflexivity.
Qed.

Lemma find_head (c d : ascii) (s : str) :
  chr_eqb d c = false -> find c (d :: s) <> 0%Z.
Proof.
  intros H. cbn [find]. rewrite H. pose proof (find_lower c s) as L.
  destruct (Z.eqb_spec (find c s) (-1)); lia.
Qed.

Lemma skipn_past (a b : str) (c : ascii) :
  skipn (length a + 1) (a ++ c :: b) = b.
Proof.
  induction a as [|d a IH]; [reflexivity|]. exact IH.
Qed.

Section SlashRounds.

Variable template_ok : str -> bool.

(** One round of the [while] loop rewrites the measure at hand, which no
    longer begins with a slash afterwards; a round on a slash inside the
    measure leaves one slash fewer. *)
Lemma fill_slash_round (ms ms' : list str) (k : nat) :
  k < length ms ->
  find "p" (nth k ms []) <> (-1)%Z ->
  fill_slash template_ok ms (Z.of_nat k) (find "p" (nth k ms [])) = Ok ms' ->
  exists cur',
    ms' = update ms k cur'
    /\ find "p" cur' <> 0%Z
    /\ (find "p" (nth k ms []) <> 0%Z ->
        count "p" cur' + 1 = count "p" (nth k ms [])).
Proof.
  intros K F. unfold fill_slash. rewrite py_get_nat by exact K. cbn [bind].
  set (cur := nth k ms []) in *.
  destruct (find "p" cur =? 0)%Z eqn:Z0.
  - apply Z.eqb_eq in Z0.
    destruct (py_get ms (Z.of_nat k - 1)) as [behind | e]; cbn [bind];
      [|discriminate].
    destruct (Chord.last_chord behind) as [chord | e] eqn:C; cbn [bind];
      [|discriminate].
    rewrite py_set_nat by exact K. cbn [bind].
    rewrite py_get_nat by (rewrite update_length; exact K). cbn [bind].
    rewrite nth_update_same by exact K.
    destruct (template_ok (chord ++ py " ")); [|discriminate].
    rewrite py_set_nat by (rewrite update_length; exact K).
    rewrite update_update. intros H. injection H as <-.
    destruct (ChordFacts.last_chord_root _ _ C) as (c & tl & -> & R).
    pose proof (ChordFacts.root_not_slash c R) as P.
    exists (((c :: tl) ++ py " ") ++ slice_from 1 cur).
    cbn [app sub_leading_slashes]. rewrite P.
    split; [reflexivity|]. split; [apply find_head; exact P | lia].
  - apply Z.eqb_neq in Z0. pose proof (find_lower "p" cur) as L.
    assert (I : In "p" cur).
    { destruct (in_dec ascii_dec "p" cur) as [I | I]; [exact I|].
      apply find_none in I. contradiction. }
    destruct (in_split_first "p" cur I) as (a & b & E & Na).
    rewrite E. rewrite (find_split "p" a b Na). rewrite Nat2Z.id.
    unfold slice_to, slice_from.
    rewrite firstn_app, Nat.sub_diag, firstn_all. cbn [firstn].
    rewrite app_nil_r, skipn_past.
    destruct (Chord.last_chord a) as [chord | e] eqn:C; cbn [bind];
      [|discriminate].
    rewrite py_set_nat by exact K. intros H. injection H as <-.
    exists (a ++ chord ++ py " " ++ b). split; [reflexivity|].
    assert (Nc : ~ In "p" chord).
    { intros H. exact (Na (ChordChars.last_chord_in a chord "p" C H)). }
    split.
    + destruct a as [|d a'].
      * exfalso. rewrite E in Z0. cbn [app find] in Z0.
        rewrite chr_eqb_refl in Z0. apply Z0. reflexivity.
      * cbn [app]. apply find_head.
        destruct (chr_eqb d "p") eqn:D; [|reflexivity].
        apply chr_eqb_eq in D. exfalso. apply Na. left. exact D.
    + intros _. rewrite !count_app.
      apply count_zero in Na. apply count_zero in Nc. rewrite Na, Nc.
      cbn [count py list_ascii_of_string]. rewrite chr_eqb_refl.
      change (chr_eqb " " "p") with false. cbv iota. lia.
Qed.

Lemma fill_slashes_at_mono (fuel fuel' : nat) (ms : list str) (i : Z)
    (r : result (list str)) :
  fuel <= fuel' ->
  fill_slashes_at template_ok fuel ms i = Some r ->
  fill_slashes_at template_ok fuel' ms i = Some r.
Proof.
  intros L H. induction L as [|f L IH]; [exact H|].
  apply fill_slashes_at_more. exact IH.
Qed.

Lemma fill_slashes_from_mono (fuel fuel' n : nat) (ms : list str) (i : Z)
    (r : result (list str)) :
  fuel <= fuel' ->
  fill_slashes_from template_ok fuel n ms i = Some r ->
  fill_slashes_from template_ok fuel' n ms i = Some r.
Proof.
  intros L H. induction L as [|f L IH]; [exact H|].
  apply fill_slashes_from_more. exact IH.
Qed.

(** The [while] loop at an index: what it returns. *)
Lemma fill_slashes_at_post (fuel : nat) (k : nat) :
  forall (ms out : list str),
    k < length ms ->
    fill_slashes_at template_ok fuel ms (Z.of_nat k) = Some (Ok out) ->
    length out = length ms
    /\ (forall j, j <> k -> nth j out [] = nth j ms [])
    /\ ~ In "p" (nth k out [])
    /\ (~ In "p" (nth k ms []) -> out = ms).
Proof.
  induction fuel as [|fuel IH]; intros ms out K; [discriminate|].
  cbn [fill_slashes_at]. rewrite py_get_nat by exact K.
  destruct (find "p" (nth k ms []) =? -1)%Z eqn:F.
  - apply Z.eqb_eq in F. intros H. injection H as <-.
    split; [reflexivity|]. split; [reflexivity|].
    split; [apply find_none; exact F | reflexivity].
  - apply Z.eqb_neq in F.
    destruct (fill_slash template_ok ms (Z.of_nat k) (find "p" (nth k ms [])))
      as [ms' | e] eqn:R; [|discriminate].
    destruct (fill_slash_round ms ms' k K F R) as (cur' & -> & _).
    intros H. apply IH in H; [|rewrite update_length; exact K].
    destruct H as (H1 & H2 & H3 & _). rewrite update_length in H1.
    split; [exact H1|]. split; [|split; [exact H3|]].
    + intros j J. rewrite (H2 j J). apply nth_update_other. lia.
    + intros N. apply find_none in N. contradiction.
Qed.

(** The [while] loop ends once the measure does not begin with a slash:
    every round leaves one slash fewer. *)
Lemma fill_slashes_at_inner (n : nat) (k : nat) :
  forall ms : list str,
    k < length ms ->
    find "p" (nth k ms []) <> 0%Z ->
    count "p" (nth k ms []) <= n ->
    exists r, fill_slashes_at template_ok (S n) ms (Z.of_nat k) = Some r.
Proof.
  induction n as [|n IH]; intros ms K Z0 C; cbn [fill_slashes_at];
    rewrite py_get_nat by exact K.
  - assert (F : find "p" (nth k ms []) = (-1)%Z)
      by (apply find_none, count_zero; lia).
    rewrite F. eexists. reflexivity.
  - destruct (find "p" (nth k ms []) =? -1)%Z eqn:F; [eexists; reflexivity|].
    apply Z.eqb_neq in F.
    destruct (fill_slash template_ok ms (Z.of_nat k) (find "p" (nth k ms [])))
      as [ms' | e] eqn:R; [|eexists; reflexivity].
    destruct (fill_slash_round ms ms' k K F R) as (cur' & -> & Z1 & D).
    specialize (D Z0).
    apply IH; [rewrite update_length; exact K | |];
      rewrite nth_update_same by exact K; [exact Z1 | lia].
Qed.

Lemma fill_slashes_at_total (ms : list str) (k : nat) :
  k < length ms ->
  exists fuel r, fill_slashes_at template_ok fuel ms (Z.of_nat k) = Some r.
Proof.
  intros K.
  destruct (Z.eq_dec (find "p" (nth k ms [])) 0) as [Z0 | Z0].
  - assert (F : find "p" (nth k ms []) <> (-1)%Z) by lia.
    destruct (fill_slash template_ok ms (Z.of_nat k) (find "p" (nth k ms [])))
      as [ms' | e] eqn:R.
    + destruct (fill_slash_round ms ms' k K F R) as (cur' & -> & Z1 & _).
      destruct (fill_slashes_at_inner (count "p" cur') k (update ms k cur'))
        as (r & H);
        [rewrite update_length; exact K | | |];
        rewrite ?nth_update_same by exact K; [exact Z1 | lia |].
      exists (S (S (count "p" cur'))), r.
      cbn [fill_slashes_at] in H |- *. rewrite py_get_nat by exact K.
      replace (find "p" (nth k ms []) =? -1)%Z with false
        by (symmetry; apply Z.eqb_neq; exact F).
      rewrite R. exact H.
    + exists 1, (Raise e). cbn [fill_slashes_at]. rewrite py_get_nat by exact K.
      replace (find "p" (nth k ms []) =? -1)%Z with false
        by (symmetry; apply Z.eqb_neq; exact F).
      rewrite R. reflexivity.
  - destruct (fill_slashes_at_inner (count "p" (nth k ms [])) k ms K Z0
                (le_n _)) as (r & H).
    eexists. eexists. exact H.
Qed.

Lemma fill_slashes_from_post (fuel n : nat) :
  forall (k : nat) (ms out : list str),
    k + n = length ms ->
    fill_slashes_from template_ok fuel n ms (Z.of_nat k) = Some (Ok out) ->
    length out = length ms
    /\ (forall j, j < k -> nth j out [] = nth j ms [])
    /\ (forall j, k <= j < length ms -> ~ In "p" (nth j out []))
    /\ (forall j, ~ In "p" (nth j ms []) -> nth j out [] = nth j ms []).
Proof.
  induction n as [|n IH]; intros k ms out K; cbn [fill_slashes_from].
  - intros H. injection H as <-. split; [reflexivity|].
    split; [reflexivity|]. split; [intros j J; lia | reflexivity].
  - destruct (fill_slashes_at template_ok fuel ms (Z.of_nat k))
      as [[ms1 | e] |] eqn:A; try discriminate.
    apply fill_slashes_at_post in A; [|lia].
    destruct A as (A1 & A2 & A3 & A4).
    replace (Z.of_nat k + 1)%Z with (Z.of_nat (S k)) by lia.
    intros H. apply IH in H; [|lia]. destruct H as (H1 & H2 & H3 & H4).
    split; [congruence|]. split; [|split].
    + intros j J. rewrite H2 by lia. apply A2. lia.
    + intros j J. destruct (Nat.eq_dec j k) as [-> | N].
      * rewrite H2 by lia. exact A3.
      * apply H3. lia.
    + intros j J. destruct (Nat.eq_dec j k) as [-> | N].
      * rewrite (A4 J) in *. apply H4. exact J.
      * rewrite <- (A2 j N) in J. rewrite (H4 j J). apply A2. exact N.
Qed.

Lemma fill_slashes_from_total (n : nat) :
  forall (k : nat) (ms : list str),
    k + n = length ms ->
    exists fuel r,
      fill_slashes_from template_ok fuel n ms (Z.of_nat k) = Some r.
Proof.
  induction n as [|n IH]; intros k ms K.
  - exists 0. eexists. reflexivity.
  - destruct (fill_slashes_at_total ms k) as (f1 & [ms1 | e] & A); [lia| |].
    + pose proof (fill_slashes_at_post f1 k ms ms1 ltac:(lia) A) as (L & _).
      destruct (IH (S k) ms1 ltac:(lia)) as (f2 & r & B).
      exists (Nat.max f1 f2), r. cbn [fill_slashes_from].
      rewrite (fill_slashes_at_mono f1 (Nat.max f1 f2) ms _ _
                 (Nat.le_max_l _ _) A).
      replace (Z.of_nat k + 1)%Z with (Z.of_nat (S k)) by lia.
      exact (fill_slashes_from_mono f2 (Nat.max f1 f2) n ms1 _ _
               (Nat.le_max_r _ _) B).
    + exists f1, (Raise e). cbn [fill_slashes_from]. rewrite A. reflexivity.
Qed.

End SlashRounds.

(** The list [_fill_slashes] returns has the length of the one it received
    and holds no slash marker; a measure that held no slash marker is
    returned as it was. *)
Theorem fill_slashes_leaves_no_slash
    (template_ok : str -> bool) (fuel : nat) (measures out : list str) :
  fill_slashes template_ok fuel measures = Some (Ok out) ->
  length out = length measures
  /\ (forall m, In m out -> ~ In "p" m)
  /\ (forall j, ~ In "p" (nth j measures []) ->
                nth j out [] = nth j measures []).
Proof.
  unfold fill_slashes. intros H.
  apply (fill_slashes_from_post template_ok fuel (length measures) 0) in H;
    [|reflexivity].
  destruct H as (H1 & _ & H3 & H4).
  split; [exact H1|]. split; [|exact H4].
  intros m Hm. destruct (In_nth out m [] Hm) as (j & J & <-).
  apply H3. lia.
Qed.

Lemma fill_slashes_leaves_no_slash_example :
  fill_slashes no_backslash 3 [py "C G7"; py "p Am p"]
  = Some (Ok [py "C G7"; py "G7  Am Am  "])
  /\ length [py "C G7"; py "G7  Am Am  "] = 2
  /\ ~ In "p" (py "G7  Am Am  ").
Proof.
  split; [vm_compute; reflexivity|].
  destruct (fill_slashes_leaves_no_slash no_backslash 3
              [py "C G7"; py "p Am p"] [py "C G7"; py "G7  Am Am  "]
              eq_refl) as (H1 & H2 & _).
  split; [exact H1|]. apply H2. right. left. reflexivity.
Defined.

(** [_fill_slashes] comes to an end on every list of measures, by returning
    or by raising: a round of a [while] loop on a leading slash leaves a
    measure that begins with a chord, and every later round leaves one slash
    fewer in the measure. *)
Theorem fill_slashes_terminates
    (template_ok : str -> bool) (measures : list str) :
  exists fuel r, fill_slashes template_ok fuel measures = Some r.
Proof.
  unfold fill_slashes.
  exact (fill_slashes_from_total template_ok (length measures) 0 measures
           eq_refl).
Qed.

(** ** Charts of an iReal URL *)

Lemma strip_prefix_app (p s rest : str) :
  strip_prefix p s = Some rest <-> s = p ++ rest.
Proof.
  revert s. induction p as [|c p IH]; intros s; cbn [strip_prefix app].
  - split; [intros H; injection H as ->; reflexivity | intros ->; reflexivity].
  - destruct s as [|d s]; [split; discriminate|].
    destruct (chr_eqb c d) eqn:E.
    + apply chr_eqb_eq in E. subst d. rewrite IH.
      split; [intros ->; reflexivity | intros H; injection H as ->; reflexivity].
    + apply chr_eqb_neq in E. split; [discriminate|].
      intros H. injection H as H _. congruence.
Qed.


Lemma cons_head_length (c : ascii) (l : list str) :
  l <> [] -> length (cons_head c l) = length l.
Proof. destruct l; [contradiction | reflexivity]. Qed.



(** [split_ireal_charts] raises, and then [RuntimeError], exactly when the
    unquoted URL does not begin with [irealb://] and one more character that
    is not a double quote. *)
Theorem split_ireal_charts_accepts (unquote : str -> str) (url : str) :
  ((exists charts, split_ireal_charts unquote url = Ok charts)
   /\ exists c rest, unquote url = py "irealb://" ++ c :: rest /\ c <> dquote)
  \/ (split_ireal_charts unquote url = Raise RuntimeError
      /\ forall c rest, unquote url = py "irealb://" ++ c :: rest ->
                        c = dquote).
Proof.
  unfold split_ireal_charts, match_ireal.
  destruct (strip_prefix (py "irealb://") (unquote url)) as [rest |] eqn:P.
  - apply strip_prefix_app in P.
    destruct rest as [|c rest].
    + right. split; [reflexivity|]. intros c rest E. rewrite E in P.
      apply app_inv_head in P. discriminate.
    + cbn [unquoted_run]. destruct (chr_eqb c dquote) eqn:Q.
      * apply chr_eqb_eq in Q. subst c. right. split; [reflexivity|].
        intros c rest' E. rewrite E in P. apply app_inv_head in P.
        injection P as -> _. reflexivity.
      * apply chr_eqb_neq in Q. left. split; [eexists; reflexivity|].
        exists c, rest. split; assumption.
  - right. split; [reflexivity|]. intros c rest E.
    assert (X : strip_prefix (py "irealb://") (unquote url) = Some (c :: rest))
      by (apply strip_prefix_app; exact E).
    congruence.
Qed.



Section ChartFacts.

Variable unquote : str -> str.
Variable Tune : Type.
Variable ChoCoTune : str -> result Tune.

Lemma readable_app (a b : list str) :
  readable Tune ChoCoTune (a ++ b)
  = readable Tune ChoCoTune a ++ readable Tune ChoCoTune b.
Proof. apply flat_map_app. Qed.

Lemma readable_one (chart : str) :
  readable Tune ChoCoTune [chart]
  = match ChoCoTune chart with
    | Ok tune => [tune]
    | Raise _ => []
    end.
Proof. unfold readable. cbn [flat_map]. apply app_nil_r. Qed.

(** The loop, once it has read the charts [done] and is left with
    [init ++ [final]]. *)
Lemma parse_charts_last (init : list str) (final : str) :
  forall (done : list str),
    parse_charts Tune ChoCoTune (length (done ++ init ++ [final]))
      (length done) (init ++ [final]) (readable Tune ChoCoTune done)
    = if existsb (fun c => chr_eqb c "=") final
      then (readable Tune ChoCoTune (done ++ init ++ [final]), None)
      else (readable Tune ChoCoTune (done ++ init), Some (strip final)).
Proof.
  induction init as [|chart init IH]; intros done.
  - cbn [app parse_charts].
    replace (Z.of_nat (length done)
             =? Z.of_nat (length (done ++ [final])) - 1)%Z with true
      by (symmetry; apply Z.eqb_eq; rewrite length_app; cbn [length]; lia).
    cbn [andb]. destruct (existsb (fun c => chr_eqb c "=") final); cbn [negb].
    + rewrite readable_app, readable_one.
      destruct (ChoCoTune final); rewrite ?app_nil_r; reflexivity.
    + rewrite app_nil_r. reflexivity.
  - cbn [app parse_charts].
    replace (Z.of_nat (length done)
             =? Z.of_nat (length (done ++ chart :: init ++ [final])) - 1)%Z
      with false
      by (symmetry; apply Z.eqb_neq; rewrite !length_app; cbn [length];
          rewrite length_app; cbn [length]; lia).
    cbn [andb].
    specialize (IH (done ++ [chart])).
    rewrite <- !app_assoc in IH. cbn [app] in IH.
    replace (length (done ++ [chart])) with (S (length done)) in IH
      by (rewrite length_app; cbn [length]; lia).
    rewrite readable_app, readable_one in IH.
    destruct (ChoCoTune chart) as [tune | e].
    + exact IH.
    + rewrite app_nil_r in IH. exact IH.
Qed.

End ChartFacts.

(** [parse_ireal_url] raises only what [split_ireal_charts] raises, which is
    [RuntimeError]: a chart that the constructor refuses is skipped.  When
    the last chart holds no [=], it is taken, stripped, as the name of the
    playlist and the tunes are those of the charts before it that the
    constructor reads, in order; otherwise there is no name and the tunes
    are those of all the charts that it reads. *)
Theorem parse_ireal_url_outcomes
    (unquote : str -> str) (Tune : Type) (ChoCoTune : str -> result Tune)
    (url : str) :
  match split_ireal_charts unquote url with
  | Raise e =>
      e = RuntimeError
      /\ parse_ireal_url unquote Tune ChoCoTune url = Raise RuntimeError
  | Ok charts =>
      parse_ireal_url unquote Tune ChoCoTune url
      = Ok (if existsb (fun c => chr_eqb c "=") (last charts [])
               || (length charts =? 0)
            then (readable Tune ChoCoTune charts, None)
            else (readable Tune ChoCoTune (removelast charts),
                  Some (strip (last charts []))))
  end.
Proof.
  unfold parse_ireal_url.
  destruct (split_ireal_charts_accepts unquote url)
    as [[(charts & ->) _] | [-> _]]; cbn [bind]; [|split; reflexivity].
  f_equal.
  destruct charts as [|chart rest]; [reflexivity|].
  destruct (exists_last (l := chart :: rest)) as (init & final & ->);
    [discriminate|].
  rewrite last_last, removelast_last.
  replace (length (init ++ [final]) =? 0) with false
    by (symmetry; apply Nat.eqb_neq; rewrite length_app; cbn [length]; lia).
  rewrite orb_false_r.
  exact (parse_charts_last Tune ChoCoTune init final []).
Qed.

(** ** The cleaning passes *)

Module SubFacts.

Import Sub.

Lemma sub_skip (at_ : str -> option nat) (r : str) (s : str) :
  forall k, sub at_ r k s = sub at_ r 0 (skipn k s).
Proof.
  induction s as [|c t IH]; intros [|k]; try reflexivity.
  cbn [sub skipn]. apply IH.
Qed.

(** The equation of a substitution at a character that belongs to no
    earlier match. *)
Lemma sub_cons (at_ : str -> option nat) (r : str) (c : ascii) (t : str) :
  sub at_ r 0 (c :: t)
  = match at_ (c :: t) with
    | Some n => r ++ sub at_ r 0 (skipn (n - 1) t)
    | None => c :: sub at_ r 0 t
    end.
Proof.
  cbn [sub]. destruct (at_ (c :: t)) as [n|]; [|reflexivity].
  rewrite sub_skip. reflexivity.
Qed.

Lemma sub_in (at_ : str -> option nat) (r : str) (x : ascii) (s : str) :
  forall k, In x (sub at_ r k s) -> In x s \/ In x r.
Proof.
  induction s as [|c t IH]; intros k; [intros []|].
  cbn [sub]. destruct k as [|k].
  - destruct (at_ (c :: t)) as [n|].
    + intros H. apply in_app_iff in H. destruct H as [H | H]; [right; exact H|].
      destruct (IH _ H) as [H1 | H1]; [left; right; exact H1 | right; exact H1].
    + intros [H | H]; [left; left; exact H|].
      destruct (IH _ H) as [H1 | H1]; [left; right; exact H1 | right; exact H1].
  - intros H.
    destruct (IH _ H) as [H1 | H1]; [left; right; exact H1 | right; exact H1].
Qed.

Lemma sub_length (at_ : str -> option nat) (r : str) (s : str) :
  length r <= 1 -> forall k, length (sub at_ r k s) <= length s.
Proof.
  intros R. induction s as [|c t IH]; intros k; [reflexivity|].
  cbn [sub length]. destruct k as [|k].
  - destruct (at_ (c :: t)) as [n|].
    + rewrite length_app. specialize (IH (n - 1)). lia.
    + cbn [length]. specialize (IH 0). lia.
  - specialize (IH k). lia.
Qed.

Lemma sub_small_in (x : ascii) (s : str) :
  forall p2 p1, In x (sub_small p2 p1 s) -> In x s.
Proof.
  induction s as [|c t IH]; intros p2 p1; [intros []|]. cbn [sub_small].
  match goal with
  | |- In x (if ?b then _ else _) -> _ => destruct b
  end.
  - intros H. right. exact (IH _ _ H).
  - intros [H | H]; [left; exact H | right; exact (IH _ _ H)].
Qed.

Lemma sub_small_length (s : str) :
  forall p2 p1, length (sub_small p2 p1 s) <= length s.
Proof.
  induction s as [|c t IH]; intros p2 p1; [reflexivity|]. cbn [sub_small].
  match goal with
  | |- length (if ?b then _ else _) <= _ => destruct b
  end; cbn [length]; specialize (IH p1 (Some c)); lia.
Qed.

(** A substitution for the characters of a class leaves none of them,
    unless the replacement brings one. *)
Lemma sub_class_free (P : ascii -> bool) (r : str) (x : ascii) (s : str) :
  In x (sub (class_at P) r 0 s) -> P x = true -> In x r.
Proof.
  induction s as [|c t IH]; [intros []|]. cbn [sub class_at].
  destruct (P c) eqn:E.
  - cbn [Nat.sub]. intros H Px. apply in_app_iff in H.
    destruct H as [H | H]; [exact H | exact (IH H Px)].
  - intros [H | H] Px; [congruence | exact (IH H Px)].
Qed.

Lemma starts_skip_run (Q : ascii -> bool) (s : str) :
  starts Q (skipn (run Q s) s) = false.
Proof.
  induction s as [|c t IH]; [reflexivity|]. cbn [run].
  destruct (Q c) eqn:E; [exact IH | exact E].
Qed.

Lemma run_positive (Q : ascii -> bool) (s : str) :
  (0 <? run Q s) = starts Q s.
Proof. destruct s as [|c t]; [reflexivity|]. cbn [run starts]. destruct (Q c); reflexivity. Qed.

Lemma pair_free_skipn (P Q : ascii -> bool) (s : str) :
  forall k, pair_free P Q s = true -> pair_free P Q (skipn k s) = true.
Proof.
  induction s as [|c t IH]; intros [|k] H; try exact H; try reflexivity.
  cbn [skipn]. apply IH. cbn [pair_free] in H.
  apply andb_true_iff in H. tauto.
Qed.

Lemma pair_free_app_l (P Q : ascii -> bool) (a b : str) :
  pair_free P Q (a ++ b) = true -> pair_free P Q a = true.
Proof.
  induction a as [|c a IH]; [reflexivity|]. cbn [app pair_free].
  intros H. apply andb_true_iff in H. destruct H as [H1 H2].
  rewrite (IH H2), andb_true_r.
  destruct (P c); [|reflexivity]. cbn [andb negb] in H1 |- *.
  destruct a as [|d a]; [reflexivity | exact H1].
Qed.

(** What a replacement of at most one character puts in front of a text. *)
Lemma pair_free_repl (P Q : ascii -> bool) (r x : str) :
  length r <= 1 ->
  (forall c, In c r -> P c = true -> starts Q x = false) ->
  pair_free P Q x = true ->
  pair_free P Q (r ++ x) = true.
Proof.
  intros L H X. destruct r as [|c [|d r]]; [exact X | | cbn [length] in L; lia].
  cbn [app pair_free]. rewrite X, andb_true_r.
  destruct (P c) eqn:E; [|reflexivity].
  rewrite (H c (or_introl eq_refl) E). reflexivity.
Qed.

Section LeadRun.

Variables P Q : ascii -> bool.
Variable r : str.
Hypothesis r_short : length r <= 1.
Hypothesis r_plain : starts Q r = false.

Lemma lead_run_at_cons (c : ascii) (t : str) :
  lead_run_at P Q (c :: t)
  = if P c && starts Q t then Some (S (run Q t)) else None.
Proof. cbn [lead_run_at]. rewrite run_positive. reflexivity. Qed.

(** After a substitution for [pQ+], the text begins with a character of
    [Q] only if it did before. *)
Lemma sub_lead_starts (n : nat) :
  forall s, length s <= n ->
    starts Q (sub (lead_run_at P Q) r 0 s) = true -> starts Q s = true.
Proof.
  induction n as [|n IH]; intros [|c t] L; try (intros H; exact H).
  - cbn [length] in L. lia.
  - cbn [length] in L. rewrite sub_cons, lead_run_at_cons.
    destruct (P c && starts Q t) eqn:M; [|intros H; exact H].
    replace (S (run Q t) - 1) with (run Q t) by lia.
    destruct r as [|d r'].
    + cbn [app]. intros H. apply IH in H.
      * rewrite starts_skip_run in H. discriminate.
      * rewrite length_skipn. lia.
    + cbn [app starts]. cbn [starts] in r_plain. congruence.
Qed.

(** After a substitution for [pQ+], whose replacement is one character at
    most and none of [Q], no character of [Q] follows one of [P]. *)
Lemma sub_lead_pair_free (n : nat) :
  forall s, length s <= n ->
    pair_free P Q (sub (lead_run_at P Q) r 0 s) = true.
Proof.
  induction n as [|n IH]; intros [|c t] L; try reflexivity.
  - cbn [length] in L. lia.
  - cbn [length] in L. rewrite sub_cons, lead_run_at_cons.
    destruct (P c && starts Q t) eqn:M.
    + replace (S (run Q t) - 1) with (run Q t) by lia.
      assert (K : length (skipn (run Q t) t) <= n)
        by (rewrite length_skipn; lia).
      apply pair_free_repl; [exact r_short | | apply IH; exact K].
      intros d _ _.
      destruct (starts Q (sub (lead_run_at P Q) r 0 (skipn (run Q t) t)))
        eqn:S; [|reflexivity].
      apply (sub_lead_starts n _ K) in S.
      rewrite starts_skip_run in S. discriminate.
    + cbn [pair_free]. rewrite (IH t) by lia. rewrite andb_true_r.
      destruct (P c); [|reflexivity]. cbn [andb] in M |- *.
      destruct (starts Q (sub (lead_run_at P Q) r 0 t)) eqn:S; [|reflexivity].
      apply (sub_lead_starts n t) in S; [congruence | lia].
Qed.

End LeadRun.

Section Run.

Variable Q : ascii -> bool.
Variable c0 : ascii.

Lemma run_at_cons (c : ascii) (t : str) :
  run_at Q (c :: t) = if Q c then Some (S (run Q t)) else None.
Proof. unfold run_at. cbn [run]. destruct (Q c); reflexivity. Qed.

Lemma sub_run_starts (s : str) :
  starts Q s = false -> starts Q (sub (run_at Q) [c0] 0 s) = false.
Proof.
  destruct s as [|c t]; [reflexivity|]. cbn [starts]. intros H.
  rewrite sub_cons, run_at_cons, H. exact H.
Qed.

(** After a substitution for [Q+], the characters of [Q] left are those of
    the replacement. *)
Lemma sub_run_class (x : ascii) (n : nat) :
  forall s, length s <= n ->
    In x (sub (run_at Q) [c0] 0 s) -> Q x = true -> x = c0.
Proof.
  induction n as [|n IH]; intros [|c t] L; try (intros []).
  - cbn [length] in L. lia.
  - cbn [length] in L. rewrite sub_cons, run_at_cons.
    destruct (Q c) eqn:E.
    + replace (S (run Q t) - 1) with (run Q t) by lia.
      intros [H | H] Qx; [symmetry; exact H|].
      apply (IH (skipn (run Q t) t)); [rewrite length_skipn; lia | exact H | exact Qx].
    + intros [H | H] Qx; [congruence|].
      apply (IH t); [lia | exact H | exact Qx].
Qed.

(** After a substitution of one character for [Q+], no two characters of
    [Q] are adjacent. *)
Lemma sub_run_pair_free (n : nat) :
  forall s, length s <= n ->
    pair_free Q Q (sub (run_at Q) [c0] 0 s) = true.
Proof.
  induction n as [|n IH]; intros [|c t] L; try reflexivity.
  - cbn [length] in L. lia.
  - cbn [length] in L. rewrite sub_cons, run_at_cons.
    destruct (Q c) eqn:E.
    + replace (S (run Q t) - 1) with (run Q t) by lia.
      cbn [app pair_free].
      rewrite IH by (rewrite length_skipn; lia).
      rewrite (sub_run_starts _ (starts_skip_run Q t)).
      rewrite andb_false_r. reflexivity.
    + cbn [pair_free]. rewrite E. rewrite IH by lia. reflexivity.
Qed.

(** A substitution for [Q+] puts no character of [Q] behind a character of
    a class [P] that has none of [Q] behind it, when the replacement is not
    in [P]. *)
Lemma sub_run_keeps_pair_free (P : ascii -> bool) (n : nat) :
  P c0 = false ->
  forall s, length s <= n ->
    pair_free P Q s = true ->
    pair_free P Q (sub (run_at Q) [c0] 0 s) = true.
Proof.
  intros P0. induction n as [|n IH]; intros [|c t] L; try reflexivity.
  - cbn [length] in L. lia.
  - cbn [length] in L. rewrite sub_cons, run_at_cons.
    cbn [pair_free]. intros H. apply andb_true_iff in H. destruct H as [H1 H2].
    destruct (Q c) eqn:E.
    + replace (S (run Q t) - 1) with (run Q t) by lia.
      cbn [app pair_free]. rewrite P0. cbn [andb negb].
      apply IH; [rewrite length_skipn; lia | apply pair_free_skipn; exact H2].
    + cbn [pair_free]. rewrite (IH t) by (try lia; exact H2).
      rewrite andb_true_r. destruct (P c); [|reflexivity].
      cbn [andb negb] in H1 |- *. apply negb_true_iff in H1.
      rewrite (sub_run_starts t H1). reflexivity.
Qed.

End Run.

Lemma lstrip_head (s : str) (c : ascii) (t : str) :
  lstrip s = c :: t -> is_space c = false.
Proof.
  induction s as [|d s IH]; [discriminate|]. cbn [lstrip].
  destruct (is_space d) eqn:E; [exact IH|].
  intros H. injection H as <- _. exact E.
Qed.

Lemma lstrip_suffix (s : str) : exists w, s = w ++ lstrip s.
Proof.
  induction s as [|d s (w & IH)]; [exists []; reflexivity|]. cbn [lstrip].
  destruct (is_space d).
  - exists (d :: w). cbn [app]. congruence.
  - exists []. reflexivity.
Qed.

Lemma rstrip_prefix (s : str) : exists w, s = rstrip s ++ w.
Proof.
  unfold rstrip. destruct (lstrip_suffix (rev s)) as (w & E).
  exists (rev w). rewrite <- rev_app_distr, <- E, rev_involutive. reflexivity.
Qed.

Lemma rstrip_last (s a : str) (c : ascii) :
  rstrip s = a ++ [c] -> is_space c = false.
Proof.
  unfold rstrip. intros H. apply (f_equal (@rev ascii)) in H.
  rewrite rev_involutive, rev_app_distr in H. cbn [rev app] in H.
  exact (lstrip_head _ _ _ H).
Qed.

End SubFacts.

(** [_remove_unsupported_annotations] never lengthens a string, and the
    only characters it can add are the bar and the space. *)
Theorem remove_unsupported_annotations_shrinks (s : str) :
  length (remove_unsupported_annotations s) <= length s
  /\ forall x, In x (remove_unsupported_annotations s) ->
               In x s \/ x = "|" \/ x = " ".
Proof.
  unfold remove_unsupported_annotations. split.
  - repeat first
      [ eapply Nat.le_trans;
        [apply SubFacts.sub_length; cbn [py list_ascii_of_string length]; lia|]
      | eapply Nat.le_trans; [apply SubFacts.sub_small_length|] ].
    apply Nat.le_refl.
  - intros x H.
    repeat first
      [ apply SubFacts.sub_in in H;
        destruct H as [H | H];
        [| try (destruct H as [<- | []]; tauto); try (destruct H) ]
      | apply SubFacts.sub_small_in in H ].
    left. exact H.
Qed.

(** A string [_remove_unsupported_annotations] returns holds no square
    bracket, no [l], no [f], and no time signature: no [T] with a digit
    behind it. *)
Theorem remove_unsupported_annotations_removes (s : str) :
  let out := remove_unsupported_annotations s in
  ~ In "[" out /\ ~ In "]" out /\ ~ In "l" out /\ ~ In "f" out
  /\ pair_free (fun c => chr_eqb c "T") is_digit out = true.
Proof.
  cbv zeta.
  assert (B : forall x, x = "[" \/ x = "]" ->
                        ~ In x (remove_unsupported_annotations s)).
  { intros x Hx H. unfold remove_unsupported_annotations in H.
    apply SubFacts.sub_in in H. destruct H as [H | []].
    apply SubFacts.sub_in in H. destruct H as [H | []].
    apply SubFacts.sub_small_in in H.
    apply SubFacts.sub_in in H. destruct H as [H | []].
    apply SubFacts.sub_in in H.
    destruct H as [H | [<- | []]]; [|destruct Hx; discriminate].
    apply SubFacts.sub_in in H. destruct H as [H | []].
    apply SubFacts.sub_in in H.
    destruct H as [H | [<- | []]]; [|destruct Hx; discriminate].
    apply SubFacts.sub_class_free in H.
    - destruct H as [<- | []]. destruct Hx; discriminate.
    - destruct Hx as [-> | ->]; reflexivity. }
  assert (L : forall x, x = "l" \/ x = "f" ->
                        ~ In x (remove_unsupported_annotations s)).
  { intros x Hx H. unfold remove_unsupported_annotations in H.
    apply SubFacts.sub_in in H. destruct H as [H | []].
    apply SubFacts.sub_in in H. destruct H as [H | []].
    apply SubFacts.sub_small_in in H.
    apply SubFacts.sub_class_free in H.
    - destruct H.
    - destruct Hx as [-> | ->]; reflexivity. }
  split; [apply B; left; reflexivity|].
  split; [apply B; right; reflexivity|].
  split; [apply L; left; reflexivity|].
  split; [apply L; right; reflexivity|].
  unfold remove_unsupported_annotations.
  eapply SubFacts.sub_lead_pair_free; [cbn [length]; lia | reflexivity |].
  apply Nat.le_refl.
Qed.

(** The white space of a string [_cleanup_chord_string] returns: it is made
    of single spaces, none of which stands at the end or behind a bar.
    This holds whatever [pad_substring] does. *)
Theorem cleanup_chord_string_spacing (pad_ovals : str -> str) (s : str) :
  let out := cleanup_chord_string pad_ovals s in
  (forall x, In x out -> is_space x = true -> x = " ")
  /\ pair_free is_space is_space out = true
  /\ pair_free (fun c => chr_eqb c "|") is_space out = true
  /\ (forall a c, out = a ++ [c] -> is_space c = false).
Proof.
  cbv zeta. unfold cleanup_chord_string.
  match goal with
  | |- context [Sub.sub (Sub.run_at is_space) (py " ") 0 ?x] =>
      set (bars := x)
  end.
  set (spaced := Sub.sub (Sub.run_at is_space) (py " ") 0 bars).
  destruct (SubFacts.rstrip_prefix spaced) as (w & E).
  assert (I : forall x, In x (rstrip spaced) -> In x spaced).
  { intros x H. rewrite E. apply in_app_iff. left. exact H. }
  split; [|split; [|split]].
  - intros x H Q. apply I in H.
    exact (SubFacts.sub_run_class is_space " " x _ bars (le_n _) H Q).
  - apply (SubFacts.pair_free_app_l _ _ _ w). rewrite <- E.
    exact (SubFacts.sub_run_pair_free is_space " " _ bars (le_n _)).
  - apply (SubFacts.pair_free_app_l _ _ _ w). rewrite <- E.
    apply (SubFacts.sub_run_keeps_pair_free is_space " "
             (fun c => chr_eqb c "|") (length bars));
      [reflexivity | apply Nat.le_refl|].
    subst bars.
    eapply SubFacts.sub_lead_pair_free;
      [cbn [py list_ascii_of_string length]; lia | reflexivity |].
    apply Nat.le_refl.
  - intros a c. apply SubFacts.rstrip_last.
Qed.

(** ** Cutting the chord string into measures *)

Lemma re_split_not_nil (at_ : str -> option nat) (s : str) :
  forall k, re_split at_ k s <> [].
Proof.
  induction s as [|c t IH]; intros k; [discriminate|]. cbn [re_split].
  destruct k as [|k]; [|apply IH].
  destruct (at_ (c :: t)); [discriminate|].
  specialize (IH 0). destruct (re_split at_ 0 t); [contradiction | discriminate].
Qed.

(** The pieces of a split hold characters of the text, and none that is a
    match of the pattern by itself wherever it stands. *)
Lemma re_split_chars (at_ : str -> option nat) (x : ascii) (s : str) :
  forall k p,
    In p (re_split at_ k s) -> In x p ->
    In x s /\ ((forall t, at_ (x :: t) <> None) -> False).
Proof.
  induction s as [|c t IH]; intros k p.
  - intros [<- | []] [].
  - cbn [re_split]. destruct k as [|k].
    + destruct (at_ (c :: t)) as [n|] eqn:A.
      * intros [<- | H] Hx; [destruct Hx|].
        destruct (IH _ _ H Hx) as [H1 H2]. split; [right; exact H1 | exact H2].
      * pose proof (re_split_not_nil at_ t 0) as N.
        destruct (re_split at_ 0 t) as [|q qs] eqn:E; [contradiction|].
        cbn [cons_head]. intros [<- | H] Hx.
        -- destruct Hx as [<- | Hx].
           ++ split; [left; reflexivity|]. intros M. exact (M t A).
           ++ destruct (IH 0 q) as [H1 H2];
                [rewrite E; left; reflexivity | exact Hx|].
              split; [right; exact H1 | exact H2].
        -- destruct (IH 0 p) as [H1 H2];
             [rewrite E; right; exact H | exact Hx|].
           split; [right; exact H1 | exact H2].
    + intros H Hx. destruct (IH _ _ H Hx) as [H1 H2].
      split; [right; exact H1 | exact H2].
Qed.

Lemma keep_measures_ok (measures : list str) :
  forall rest i,
    i + length rest = length measures ->
    exists kept,
      keep_measures measures i rest = Ok kept
      /\ length kept <= length rest
      /\ forall m, In m kept -> exists p, In p rest /\ m = strip p.
Proof.
  induction rest as [|m rest IH]; intros i L.
  - exists []. split; [reflexivity|]. split; [reflexivity | intros m []].
  - cbn [length] in L. cbn [keep_measures].
    destruct (IH (S i) ltac:(lia)) as (more & -> & Hl & Hm).
    assert (G : exists before, py_get measures (Z.of_nat i - 1) = Ok before).
    { destruct i as [|i].
      - exists (last measures []). apply py_get_last. lia.
      - exists (nth i measures []).
        replace (Z.of_nat (S i) - 1)%Z with (Z.of_nat i) by lia.
        apply py_get_nat. lia. }
    destruct G as (before & ->). cbn [bind].
    assert (K : forall y, In y (strip m :: more) ->
                          exists p, In p (m :: rest) /\ y = strip p).
    { intros y [<- | H]; [exists m; split; [left|]; reflexivity|].
      destruct (Hm y H) as (p & Hp & ->). exists p. split; [right|]; tauto. }
    assert (K' : forall y, In y more ->
                           exists p, In p (m :: rest) /\ y = strip p).
    { intros y H. apply K. right. exact H. }
    destruct (negb (is_blank m)); cbn [bind].
    + exists (strip m :: more). split; [reflexivity|].
      split; [cbn [length]; lia | exact K].
    + destruct (str_eqb (strip before) (py "r")).
      * exists (strip m :: more). split; [reflexivity|].
        split; [cbn [length]; lia | exact K].
      * exists more. split; [reflexivity|].
        split; [cbn [length]; lia | exact K'].
Qed.

Lemma lstrip_fixed (s : str) : starts is_space s = false -> lstrip s = s.
Proof. destruct s as [|c t]; [reflexivity|]. cbn [starts lstrip]. intros ->. reflexivity. Qed.

Lemma lstrip_starts (s : str) : starts is_space (lstrip s) = false.
Proof.
  induction s as [|c t IH]; [reflexivity|]. cbn [lstrip].
  destruct (is_space c) eqn:E; [exact IH | exact E].
Qed.

Lemma rstrip_starts (s : str) :
  starts is_space s = false -> starts is_space (rstrip s) = false.
Proof.
  intros H. destruct (SubFacts.rstrip_prefix s) as (w & E).
  destruct (rstrip s) as [|c t]; [reflexivity|].
  rewrite E in H. exact H.
Qed.

(** Stripping twice is stripping once. *)
Lemma strip_strip (s : str) : strip (strip s) = strip s.
Proof.
  unfold strip.
  rewrite (lstrip_fixed (rstrip (lstrip s)))
    by (apply rstrip_starts, lstrip_starts).
  unfold rstrip. rewrite rev_involutive.
  rewrite (lstrip_fixed (lstrip (rev (lstrip s)))) by apply lstrip_starts.
  reflexivity.
Qed.

Lemma remove_char_in (c x : ascii) (s : str) :
  In x (remove_char c s) -> In x s /\ x <> c.
Proof.
  unfold remove_char. intros H. apply filter_In in H. destruct H as [H1 H2].
  split; [exact H1|]. intros ->. rewrite chr_eqb_refl in H2. discriminate.
Qed.

(** The cut of a chord string into measures always succeeds: the lookback
    of the first piece wraps around to the last one.  A measure it returns
    has no white space around it, is made of characters of the chord string
    and holds no bar line, bracket, end marker or [U]; and there are no more
    measures than pieces between the bar markers. *)
Theorem cut_measures_clean (chord_string : str) :
  exists measures,
    cut_measures chord_string = Ok measures
    /\ length measures <= length (re_split bar_at 0 chord_string)
    /\ forall m, In m measures ->
         strip m = m
         /\ forall x, In x m ->
              In x chord_string
              /\ ~ In x (py "|KZ{}[]U").
Proof.
  unfold cut_measures.
  destruct (keep_measures_ok (re_split bar_at 0 chord_string)
              (re_split bar_at 0 chord_string) 0 eq_refl)
    as (kept & -> & Hl & Hk).
  cbn [bind]. eexists. split; [reflexivity|].
  split; [rewrite length_map; exact Hl|].
  intros m Hm. apply in_map_iff in Hm. destruct Hm as (k & <- & Hm).
  split; [apply strip_strip|].
  intros x Hx. apply strip_in, remove_char_in in Hx. destruct Hx as [Hx NU].
  destruct (Hk k Hm) as (p & Hp & ->). apply strip_in in Hx.
  destruct (re_split_chars bar_at x chord_string 0 p Hp Hx) as [H1 H2].
  split; [exact H1|].
  intros H. cbn [py list_ascii_of_string In] in H.
  destruct H as [<- | [<- | [<- | [<- | [<- | [<- | [<- | [<- | []]]]]]]]];
    try (apply H2; intros t; vm_compute; discriminate).
  apply NU. reflexivity.
Qed.

(** ** Edge cases of the repeat passes *)

(** A string without an opening curly bracket, or without a closing one,
    holds no repeat group: [_fill_long_repeats] returns it as it is, at its
    first invocation and without calling [_remove_markers]. *)
Theorem long_repeats_need_both_brackets
    (remove_markers : str -> str) (fuel : nat) (s : str) :
  ~ In "{" s \/ ~ In "}" s ->
  fill_long_repeats remove_markers (S fuel) s = Some (Ok s).
Proof.
  intros H. cbn [fill_long_repeats]. unfold expand_once.
  destruct (Re.search_repeat s) as [[[pre g] post]|] eqn:E; [|reflexivity].
  exfalso. destruct (ReFacts.search_repeat_split _ _ _ _ E) as (Es & _).
  destruct H as [H | H]; apply H; rewrite Es; apply in_app_iff; right.
  - left. reflexivity.
  - right. apply in_app_iff. right. left. reflexivity.
Qed.

Lemma long_repeats_need_both_brackets_example :
  fill_long_repeats strip_coda_segno 1 (py "A7 | D7 } G7 N1 C")
  = Some (Ok (py "A7 | D7 } G7 N1 C")).
Proof.
  apply (long_repeats_need_both_brackets strip_coda_segno 0
           (py "A7 | D7 } G7 N1 C")).
  left. apply count_zero. reflexivity.
Defined.

(** The loop that fills the repeat markers starts at the second measure:
    the first measure of the list [_fill_single_double_repeats] returns is
    the first one of the list it prepared.  So, when the function returns on
    a list that begins with a repeat marker, the marker is still there. *)
Theorem first_measure_is_not_filled
    (remove_markers : str -> str) (measures out : list str) :
  fill_single_double_repeats remove_markers measures = Ok out ->
  nth 0 out [] = nth 0 (add_slots (pre_measures measures)) []
  /\ (forall first rest,
        measures = first :: rest ->
        first = py "x" \/ first = py "r" ->
        nth 0 out [] = first).
Proof.
  unfold fill_single_double_repeats. intros H.
  apply (infill_loop_stable _ _ 1) in H. destruct H as [_ H].
  split; [apply H; lia|].
  intros first rest -> M. rewrite H by lia.
  unfold pre_measures. cbn [flat_map].
  destruct M as [-> | ->].
  - change (measures_xt (py "x")) with [py "x"]. reflexivity.
  - change (measures_xt (py "r")) with [py "r"]. reflexivity.
Qed.

Lemma first_measure_is_not_filled_example :
  fill_single_double_repeats strip_coda_segno [py "x"; py "C7"; py "x"]
  = Ok [py "x"; py "C7"; py "C7"]
  /\ nth 0 [py "x"; py "C7"; py "C7"] [] = py "x".
Proof.
  split; [reflexivity|].
  exact (proj2 (first_measure_is_not_filled strip_coda_segno
                  [py "x"; py "C7"; py "x"] [py "x"; py "C7"; py "C7"]
                  eq_refl)
           (py "x") [py "C7"; py "x"] eq_refl (or_introl eq_refl)).
Defined.

(** ** The last cleaning of the measures *)

Lemma remove_endings_in (x : ascii) (s : str) :
  In x (Re.remove_endings s) -> In x s.
Proof.
  assert (G : forall n s, length s <= n ->
                          In x (Re.remove_endings s) -> In x s).
  { clear s. induction n as [|n IH]; intros [|c [|d u]] L;
      try (intros H; exact H); try (cbn [length] in L; lia).
    rewrite remove_endings_cons.
    cbn [length] in L.
    destruct (chr_eqb c "N" && is_digit d).
    - intros H. right. right. apply (IH u); [lia | exact H].
    - intros [H | H]; [left; exact H | right].
      apply (IH (d :: u)); [cbn [length]; lia | exact H]. }
  exact (G (length s) s (le_n _)).
Qed.

Lemma clean_measure_chars (m : str) (x : ascii) :
  In x (clean_measure m) ->
  (In x m \/ x = " ") /\ x <> "U" /\ x <> "S".
Proof.
  unfold clean_measure.
  set (a := Sub.sub (Sub.class_at (fun c => chr_eqb c "U" || chr_eqb c "S"))
                    [] 0 m).
  set (b := strip (Sub.sub (Sub.lead_run_at is_space is_space) (py " ") 0 a)).
  intros H.
  assert (Hb : In x b).
  { destruct (Re.has_ending b); [apply remove_endings_in|]; exact H. }
  subst b. apply strip_in, SubFacts.sub_in in Hb.
  destruct Hb as [Ha | [<- | []]].
  - split.
    + subst a. apply SubFacts.sub_in in Ha. destruct Ha as [Ha | []].
      left. exact Ha.
    + split; intros ->;
        destruct (SubFacts.sub_class_free _ _ _ _ Ha eq_refl).
  - split; [right; reflexivity | split; discriminate].
Qed.

Section CleanFacts.

Variable pad_no_chord : str -> str.
Variable expand_template : str -> option str.

Lemma pad_measures_length (fuel : nat) (measures padded : list str) :
  pad_measures pad_no_chord fuel measures = Some padded ->
  length padded = length measures.
Proof.
  revert padded. induction measures as [|m rest IH]; intros padded.
  - intros H. injection H as <-. reflexivity.
  - cbn [pad_measures].
    destruct (pad_measure pad_no_chord fuel m); [|discriminate].
    destruct (pad_measures pad_no_chord fuel rest) as [rest'|]; [|discriminate].
    intros H. injection H as <-. cbn [length]. rewrite (IH rest' eq_refl).
    reflexivity.
Qed.

(** The first pass does nothing to measures without the no-chord mark. *)
Lemma pad_measures_plain (fuel : nat) (measures : list str) :
  (forall m, In m measures -> ~ In "n" m) ->
  pad_measures pad_no_chord (S fuel) measures = Some measures.
Proof.
  induction measures as [|m rest IH]; intros H; [reflexivity|].
  cbn [pad_measures pad_measure].
  replace (find "n" m =? -1)%Z with true
    by (symmetry; apply Z.eqb_eq, find_none, H; left; reflexivity).
  rewrite IH by (intros y Hy; apply H; right; exact Hy). reflexivity.
Qed.

Lemma infill_measures_length (measures filled : list str) :
  forall last_root,
    infill_measures expand_template measures last_root = Done filled ->
    length filled = length measures.
Proof.
  revert filled. induction measures as [|m rest IH]; intros filled last_root.
  - intros H. injection H as <-. reflexivity.
  - cbn [infill_measures].
    destruct (infill_ovals expand_template (split m) last_root m)
      as [[lr m'] | e]; [|discriminate].
    destruct (infill_measures expand_template rest lr) as [rest' | e] eqn:E;
      [|discriminate].
    intros H. injection H as <-. cbn [length]. rewrite (IH _ _ E). reflexivity.
Qed.

End CleanFacts.

(** When [_clean_measures] returns, it returns as many measures as it
    received, and none of them holds a [U] or an [S]; this whatever
    [pad_substring] does. *)
Theorem clean_measures_result
    (pad_no_chord : str -> str) (expand_template : str -> option str)
    (fuel : nat) (measures out : list str) :
  clean_measures pad_no_chord expand_template fuel measures
  = Some (Done out) ->
  length out = length measures
  /\ forall m, In m out -> ~ In "U" m /\ ~ In "S" m.
Proof.
  unfold clean_measures.
  destruct (pad_measures pad_no_chord fuel measures) as [padded|] eqn:P;
    [|discriminate].
  destruct (infill_measures expand_template padded None) as [filled | e] eqn:F;
    [|discriminate].
  intros H. injection H as <-. split.
  - rewrite length_map, (infill_measures_length _ _ _ _ F).
    exact (pad_measures_length _ _ _ _ P).
  - intros m Hm. apply in_map_iff in Hm. destruct Hm as (y & <- & _).
    split; intros H; destruct (clean_measure_chars y _ H) as (_ & H1 & H2);
      congruence.
Qed.

Lemma clean_measures_result_example :
  clean_measures (fun m => m) (fun root => Some root) 1
    [py "C7 US"; py "W/G  F N1"]
  = Some (Done [py "C7"; py "C7/G F "])
  /\ length [py "C7"; py "C7/G F "] = 2
  /\ ~ In "U" (py "C7") /\ ~ In "S" (py "C7").
Proof.
  split; [vm_compute; reflexivity|].
  destruct (clean_measures_result (fun m => m) (fun root => Some root) 1
              [py "C7 US"; py "W/G  F N1"] [py "C7"; py "C7/G F "]
              eq_refl) as (H1 & H2).
  split; [exact H1|]. apply H2. left. reflexivity.
Defined.

(** An oval before any chord: when no measure holds the no-chord mark and
    the first token of the first measure holds a [W] and does not begin like
    a chord, [_clean_measures] raises [UnboundLocalError], for [last_root]
    is read before it is assigned. *)
Theorem oval_before_any_chord_raises
    (pad_no_chord : str -> str) (expand_template : str -> option str)
    (fuel : nat) (first observation : str) (rest more : list str) :
  (forall m, In m (first :: rest) -> ~ In "n" m) ->
  split first = observation :: more ->
  Chord.chord_at observation = None ->
  In "W" observation ->
  clean_measures pad_no_chord expand_template (S fuel) (first :: rest)
  = Some (Failed UnboundLocalError).
Proof.
  intros N S C W. unfold clean_measures.
  rewrite pad_measures_plain by exact N.
  cbn [infill_measures]. rewrite S. cbn [infill_ovals]. rewrite C.
  replace (existsb (fun c => chr_eqb c "W") observation) with true;
    [reflexivity|].
  symmetry. apply existsb_exists. exists "W". split; [exact W | reflexivity].
Qed.

Lemma oval_before_any_chord_raises_example :
  clean_measures (fun m => m) (fun root => Some root) 1
    [py "W/C F7"; py "Bb"]
  = Some (Failed UnboundLocalError).
Proof.
  apply (oval_before_any_chord_raises (fun m => m) (fun root => Some root) 0
           (py "W/C F7") (py "W/C") [py "Bb"] [py "F7"]).
  - intros m [<- | [<- | []]]; apply count_zero; reflexivity.
  - reflexivity.
  - reflexivity.
  - left. reflexivity.
Defined.
